(** * Bundle transactions over a versioned key-value store

    A shallow embedding of the transaction coordinator
    (src/dataServices/dynamoDbBundleService.ts) and of its staging helper
    (src/dataServices/dynamoDbBundleServiceHelper.ts), followed by the
    properties established about them.

    Conventions.
    - An optional JavaScript value ([undefined]) is an [option].
    - A promise either resolves or rejects: [Completion].
    - The store, the clock and the identifier source are threaded
      explicitly through a [World]; what lies outside the program (faults
      of the store, the version lookup, clock readings, minted ids) is read
      from an [Env].
    - Numbers are exact integers, which agrees with JavaScript doubles
      below 2^53 in magnitude.
    - A JavaScript object used as a dictionary is a [gmap] when only lookup
      matters and an insertion-ordered association list when its values are
      enumerated; inherited properties of the object prototype are not
      modelled. *)

From Stdlib Require Import ZArith Lia Ascii DecimalString DecimalPos DecimalZ.
From stdpp Require Import base option list gmap strings fin_maps.

Local Open Scope Z_scope.

(** ** JavaScript primitives used by the code *)

(** Truthiness of a string: only the empty string is falsy. *)
Definition truthy (s : string) : bool :=
  match s with
  | EmptyString => false
  | String _ _ => true
  end.

(** [o || d] for an optional string [o]. *)
Definition or_else (o : option string) (d : string) : string :=
  match o with
  | Some s => if truthy s then s else d
  | None => d
  end.

(** Interpolation of an optional string in a template literal. *)
Definition interpolate (o : option string) : string :=
  match o with
  | Some s => s
  | None => "undefined"
  end.

(** White space skipped by [parseInt] (the ASCII part of StrWhiteSpaceChar). *)
Definition is_white_space (c : ascii) : bool :=
  let n := nat_of_ascii c in
  (Nat.eqb n 9 || Nat.eqb n 10 || Nat.eqb n 11 || Nat.eqb n 12
   || Nat.eqb n 13 || Nat.eqb n 32)%bool.

Definition digit_value (c : ascii) : option Z :=
  let n := nat_of_ascii c in
  if (Nat.leb 48 n && Nat.leb n 57)%bool then Some (Z.of_nat n - 48) else None.

Fixpoint skip_white_space (s : string) : string :=
  match s with
  | String c s' => if is_white_space c then skip_white_space s' else s
  | EmptyString => s
  end.

(** Value of the longest prefix of decimal digits, [None] when it is empty. *)
Fixpoint parse_digits (acc : option Z) (s : string) : option Z :=
  match s with
  | String c s' =>
      match digit_value c with
      | Some d => parse_digits (Some (10 * default 0 acc + d)) s'
      | None => acc
      end
  | EmptyString => acc
  end.

(** [parseInt(s, 10)]; [None] is NaN. *)
Definition parseInt_string (s : string) : option Z :=
  match skip_white_space s with
  | String "-" s' => Z.opp <$> parse_digits None s'
  | String "+" s' => parse_digits None s'
  | s' => parse_digits None s'
  end.

(** [parseInt(x, 10)] where [x] may be [undefined]: the argument is first
    converted to the string "undefined", which has no digits. *)
Definition parseInt (x : option string) : option Z :=
  parseInt_string (interpolate x).

(** [n || 0] on numbers: NaN and zero are falsy. *)
Definition number_or_zero (n : option Z) : Z := default 0 n.

(** [Number.prototype.toString] on an integer. *)
Definition toString (n : Z) : string := NilZero.string_of_int (Z.to_int n).

(** [Array.prototype.toString]: the elements joined by commas. *)
Fixpoint join_comma (l : list string) : string :=
  match l with
  | [] => ""
  | [s] => s
  | s :: l' => s +:+ "," +:+ join_comma l'
  end.

(** A thrown value. *)
Inductive Exn :=
| Error (message : string)
| TypeError (message : string).

(** The settlement of a promise, or the outcome of a call that may throw. *)
Inductive Completion (A : Type) :=
| Resolved (a : A)
| Rejected (e : Exn).
Arguments Resolved {A} a.
Arguments Rejected {A} e.

(** ** Data model *)

(** Modelled from the spec: the enumeration of src/dataServices/documentStatus,
    which is not among the sources ("Document Status" of the data model). *)
Inductive DOCUMENT_STATUS :=
| AVAILABLE
| LOCKED
| PENDING
| PENDING_DELETE
| DELETED.

Global Instance DOCUMENT_STATUS_eq_dec : EqDecision DOCUMENT_STATUS.
Proof. solve_decision. Defined.

(** The [meta] element of a resource. *)
Record Meta := {
  versionId : option string;
  lastUpdated : option string
}.

(** A resource document ([any] in the source): the members the code reads
    and the rest of the payload. *)
Record Resource := {
  res_resourceType : string;
  res_id : string;
  res_meta : option Meta;
  res_content : string
}.

(** The empty object literal. *)
Definition empty_object : Resource :=
  {| res_resourceType := ""; res_id := ""; res_meta := None; res_content := "" |}.

(** One row of the resource table, keyed by [(item_id, item_vid)]. *)
Record Item := {
  item_id : string;
  item_vid : string;
  documentStatus : DOCUMENT_STATUS;
  item_resource : Resource
}.

Definition item_key (it : Item) : string * string := (item_id it, item_vid it).

(** BatchReadWriteRequest: one operation of the caller's bundle. *)
Record BatchReadWriteRequest := {
  rq_operation : string;
  rq_resourceType : string;
  rq_id : string;
  rq_resource : Resource
}.

(** BatchReadWriteResponse: the envelope returned for one operation. *)
Record BatchReadWriteResponse := {
  rs_id : string;
  rs_vid : option string;
  rs_operation : string;
  rs_lastModified : string;
  rs_resourceType : string;
  rs_resource : Resource
}.

(** ItemRequest: a lock record. *)
Record ItemRequest := {
  it_id : string;
  it_vid : option string;
  it_resourceType : string;
  it_operation : string;
  isOriginalUpdateItem : option bool
}.

(** An entry of [itemsToRemoveFromLock]. *)
Record LockRemoval := {
  rm_id : string;
  rm_vid : option string;
  rm_resourceType : string
}.

(** ** Requests understood by the store *)

(** A member of the [TransactItems] of a write batch. *)
Inductive WriteRequest :=
| Update (oldStatus : option DOCUMENT_STATUS) (newStatus : DOCUMENT_STATUS)
         (id : string) (vid : option string)
| Put (item : Item)
| Delete (id : string) (vid : option string).

(** A member of the [TransactItems] of a read batch. *)
Record GetRequest := {
  get_id : string;
  get_vid : option string
}.

(** The answer of the store to one point get, and to a read batch. *)
Record ItemResponse := { Item_ : option Item }.
Record TransactGetItemsOutput := { Responses : option (list ItemResponse) }.

(** Modelled from the spec: DynamoDbParamBuilder.buildUpdateDocumentStatusParam,
    which is not among the sources: "a single-item conditional update - if
    oldStatus is provided, the write must be conditioned on the item's
    current status equaling oldStatus". *)
Definition buildUpdateDocumentStatusParam
    (oldStatus : option DOCUMENT_STATUS) (newStatus : DOCUMENT_STATUS)
    (id : string) (vid : option string) : WriteRequest :=
  Update oldStatus newStatus id vid.

(** Modelled from the spec: DynamoDbParamBuilder.buildDeleteParam, which is
    not among the sources: "unconditional delete of one specific version
    row". *)
Definition buildDeleteParam (id : string) (vid : option string) : WriteRequest :=
  Delete id vid.

(** Modelled from the spec: DynamoDbUtil.prepItemForDdbInsert, which is not
    among the sources: the item built from a resource for a given id and
    version, in a given status, stamped with the time of its preparation. *)
Definition prepItemForDdbInsert (resource : Resource) (id vid : string)
    (status : DOCUMENT_STATUS) (now : string) : Item :=
  {| item_id := id;
     item_vid := vid;
     documentStatus := status;
     item_resource :=
       {| res_resourceType := res_resourceType resource;
          res_id := id;
          res_meta := Some {| versionId := Some vid; lastUpdated := Some now |};
          res_content := res_content resource |} |}.

(** [Item.meta.lastUpdated] of a prepared item. *)
Definition item_lastUpdated (it : Item) : string :=
  match res_meta (item_resource it) with
  | Some m => default "" (lastUpdated m)
  | None => ""
  end.

(** Modelled from the spec: DynamoDbUtil.cleanItem after
    DynamoDBConverter.unmarshall, which are not among the sources: the
    resource document of a stored row, without the bookkeeping of the
    table. *)
Definition cleanItem (it : Item) : Resource := item_resource it.

(** ** The world outside the program *)

(** The resource table: rows by [(id, vid)]. *)
Abbreviation Db := (gmap (string * string) Item).

(** A submission to the store. *)
Inductive StoreCall :=
| TransactWrite (items : list WriteRequest)
| TransactGet (items : list GetRequest).

(** What a submission did: whether it went through, and the table after it. *)
Record StoreEvent := {
  ev_call : StoreCall;
  ev_ok : bool;
  ev_after : Db
}.

(** The state threaded through the program: the table, the submissions made
    so far (oldest first), the number of clock readings and the number of
    identifiers minted. *)
Record World := {
  db : Db;
  events : list StoreEvent;
  ticks : nat;
  minted : nat
}.

(** The answer of the version lookup: the projection [id, resourceType,
    meta] of the row found, the distinguished not-found condition, or any
    other failure. *)
Record Projection := {
  pj_resourceType : string;
  pj_id : string;
  pj_versionId : string
}.

Inductive Lookup :=
| Found (resource : Projection)
| ResourceNotFoundError
| LookupFailure (e : Exn).

Global Instance Exn_eq_dec : EqDecision Exn.
Proof. solve_decision. Defined.
Global Instance Projection_eq_dec : EqDecision Projection.
Proof. solve_decision. Defined.
Global Instance Lookup_eq_dec : EqDecision Lookup.
Proof. solve_decision. Defined.

(** What the program takes from outside.
    - [getMostRecentResource]: DynamoDbHelper.getMostRecentResource, which is
      not among the sources, taken as a parameter;
    - [storeFault n]: the [n]-th submission to the store fails for a reason
      of its own (the network, throttling, another transaction);
    - [clock n]: the [n]-th reading of the clock, in milliseconds, and
      [toISOString] its rendering;
    - [uuidv4 n]: the [n]-th identifier minted;
    - [maxExecutionTimeMs]: the budget given to the constructor of the
      service, if any;
    - [LOCK_DURATION_SECONDS]: the rendering of
      DynamoDbParamBuilder.LOCK_DURATION_IN_MS / 1000, a constant that is
      not among the sources. *)
Record Env := {
  getMostRecentResource : Db -> string -> string -> Lookup;
  storeFault : nat -> bool;
  clock : nat -> Z;
  toISOString : Z -> string;
  uuidv4 : nat -> string;
  maxExecutionTimeMs : option Z;
  LOCK_DURATION_SECONDS : string
}.

(** [Date.now()]. *)
Definition Date_now (env : Env) (w : World) : Z * World :=
  (clock env (ticks w),
   {| db := db w; events := events w; ticks := S (ticks w); minted := minted w |}).

(** [new Date().toISOString()]. *)
Definition new_Date_toISOString (env : Env) (w : World) : string * World :=
  let '(t, w') := Date_now env w in (toISOString env t, w').

(** [uuidv4()]. *)
Definition mint (env : Env) (w : World) : string * World :=
  (uuidv4 env (minted w),
   {| db := db w; events := events w; ticks := ticks w; minted := S (minted w) |}).

(** ** The store

    The store is an external collaborator; its batch primitives follow the
    spec: "an atomic multi-item write batch (bounded to 25 items) that is
    all-or-nothing", "conditional single-item write ... failing the enclosing
    atomic batch without partial effect if unmet", "an atomic multi-item
    point-get batch". *)

Definition set_status (st : DOCUMENT_STATUS) (it : Item) : Item :=
  {| item_id := item_id it; item_vid := item_vid it;
     documentStatus := st; item_resource := item_resource it |}.

(** A row holding nothing but its key and status: what an unconditional
    status update leaves when the row did not exist. *)
Definition bare_item (id vid : string) (st : DOCUMENT_STATUS) : Item :=
  {| item_id := id; item_vid := vid; documentStatus := st;
     item_resource := empty_object |}.

(** Modelled from the spec: the effect of one request of a write batch on
    the table; [None] when the request is refused: a key without version, or
    a condition on the current status that does not hold. An unconditional
    status update of a row that does not exist leaves a bare row. *)
Definition apply_write (d : Db) (r : WriteRequest) : option Db :=
  match r with
  | Update old new id (Some vid) =>
      match d !! (id, vid), old with
      | Some it, Some o =>
          if decide (documentStatus it = o)
          then Some (<[(id, vid) := set_status new it]> d)
          else None
      | Some it, None => Some (<[(id, vid) := set_status new it]> d)
      | None, Some _ => None
      | None, None => Some (<[(id, vid) := bare_item id vid new]> d)
      end
  | Put it => Some (<[item_key it := it]> d)
  | Delete id (Some vid) => Some (delete (id, vid) d)
  | Update _ _ _ None | Delete _ None => None
  end.

(** Modelled from the spec: the requests of a batch applied in order, all
    or nothing. *)
Fixpoint apply_writes (d : Db) (rs : list WriteRequest) : option Db :=
  match rs with
  | [] => Some d
  | r :: rs' =>
      match apply_write d r with
      | Some d' => apply_writes d' rs'
      | None => None
      end
  end.

(** The largest batch the store accepts. *)
Definition MAX_BATCH_ITEMS : nat := 25.

Definition record_event (w : World) (c : StoreCall) (ok : bool) (d : Db) : World :=
  {| db := d;
     events := events w ++ [{| ev_call := c; ev_ok := ok; ev_after := d |}];
     ticks := ticks w; minted := minted w |}.

(** Modelled from the spec: [dynamoDb.transactWriteItems(params).promise()];
    [true] when the promise resolves, [false] when it rejects: on a fault of
    the store, on a batch of more than 25 requests, or when a request is
    refused. A rejected batch leaves the table as it was. *)
Definition transactWriteItems (env : Env) (w : World) (items : list WriteRequest)
    : bool * World :=
  let outcome :=
    if storeFault env (length (events w)) then None
    else if Nat.ltb MAX_BATCH_ITEMS (length items) then None
    else apply_writes (db w) items in
  match outcome with
  | Some d => (true, record_event w (TransactWrite items) true d)
  | None => (false, record_event w (TransactWrite items) false (db w))
  end.

(** Modelled from the spec: one point get; [None] when the key has no
    version. *)
Definition get_item (d : Db) (g : GetRequest) : option ItemResponse :=
  match get_vid g with
  | Some vid => Some {| Item_ := d !! (get_id g, vid) |}
  | None => None
  end.

(** Modelled from the spec: [dynamoDb.transactGetItems(params).promise()];
    the result, one response per request in the order of the requests, when
    the promise resolves, [None] when it rejects. *)
Definition transactGetItems (env : Env) (w : World) (items : list GetRequest)
    : option TransactGetItemsOutput * World :=
  let outcome :=
    if storeFault env (length (events w)) then None
    else mapM (get_item (db w)) items in
  match outcome with
  | Some rs =>
      (Some {| Responses := Some rs |}, record_event w (TransactGet items) true (db w))
  | None => (None, record_event w (TransactGet items) false (db w))
  end.

(** ** The staging helper (dynamoDbBundleServiceHelper.ts) *)

Module DynamoDbBundleServiceHelper.

(** The six arrays [generateStagingRequests] fills. *)
Record StagingRequests := {
  deleteRequests : list WriteRequest;
  createRequests : list WriteRequest;
  updateRequests : list WriteRequest;
  readRequests : list GetRequest;
  newLocks : list ItemRequest;
  newStagingResponses : list BatchReadWriteResponse
}.

Definition no_requests : StagingRequests :=
  {| deleteRequests := []; createRequests := []; updateRequests := [];
     readRequests := []; newLocks := []; newStagingResponses := [] |}.

Definition addStagingResponseAndItemsLocked
    (id vid resourceType operation lastModified : string)
    : BatchReadWriteResponse * ItemRequest :=
  let stagingResponse :=
    {| rs_id := id; rs_vid := Some vid; rs_operation := operation;
       rs_lastModified := lastModified; rs_resourceType := resourceType;
       rs_resource := empty_object |} in
  let itemLocked :=
    {| it_id := id; it_vid := Some vid; it_resourceType := resourceType;
       it_operation := operation;
       isOriginalUpdateItem :=
         if String.eqb operation "update" then Some false else None |} in
  (stagingResponse, itemLocked).

(** The body of the [forEach] of [generateStagingRequests]: one request
    handled, the arrays and the world updated. *)
Definition stage_request (env : Env) (idToVersionId : gmap string string)
    (acc : StagingRequests * World) (request : BatchReadWriteRequest)
    : StagingRequests * World :=
  let '(st, w) := acc in
  if String.eqb (rq_operation request) "create" then
    let '(fresh, w1) := mint env w in
    let id := if truthy (rq_id request) then rq_id request else fresh in
    let vid := "1" in
    let '(now, w2) := new_Date_toISOString env w1 in
    let Item := prepItemForDdbInsert (rq_resource request) id vid PENDING now in
    let '(stagingResponse, itemLocked) :=
      addStagingResponseAndItemsLocked id vid (rq_resourceType request)
        (rq_operation request) (item_lastUpdated Item) in
    ({| deleteRequests := deleteRequests st;
        createRequests := createRequests st ++ [Put Item];
        updateRequests := updateRequests st;
        readRequests := readRequests st;
        newLocks := newLocks st ++ [itemLocked];
        newStagingResponses := newStagingResponses st ++ [stagingResponse] |}, w2)
  else if String.eqb (rq_operation request) "update" then
    let id := res_id (rq_resource request) in
    let vid := toString (number_or_zero (parseInt (idToVersionId !! id)) + 1) in
    let '(now, w1) := new_Date_toISOString env w in
    let Item := prepItemForDdbInsert (rq_resource request) id vid PENDING now in
    let '(stagingResponse, itemLocked) :=
      addStagingResponseAndItemsLocked id vid (rq_resourceType request)
        (rq_operation request) (item_lastUpdated Item) in
    ({| deleteRequests := deleteRequests st;
        createRequests := createRequests st;
        updateRequests := updateRequests st ++ [Put Item];
        readRequests := readRequests st;
        newLocks := newLocks st ++ [itemLocked];
        newStagingResponses := newStagingResponses st ++ [stagingResponse] |}, w1)
  else if String.eqb (rq_operation request) "delete" then
    let id := rq_id request in
    let vid := idToVersionId !! id in
    let '(now, w1) := new_Date_toISOString env w in
    ({| deleteRequests :=
          deleteRequests st
          ++ [buildUpdateDocumentStatusParam (Some LOCKED) PENDING_DELETE id vid];
        createRequests := createRequests st;
        updateRequests := updateRequests st;
        readRequests := readRequests st;
        newLocks := newLocks st;
        newStagingResponses :=
          newStagingResponses st
          ++ [{| rs_id := id; rs_vid := vid; rs_operation := rq_operation request;
                 rs_lastModified := now; rs_resourceType := rq_resourceType request;
                 rs_resource := empty_object |}] |}, w1)
  else if String.eqb (rq_operation request) "read" then
    let id := rq_id request in
    let vid := idToVersionId !! id in
    ({| deleteRequests := deleteRequests st;
        createRequests := createRequests st;
        updateRequests := updateRequests st;
        readRequests := readRequests st ++ [{| get_id := id; get_vid := vid |}];
        newLocks := newLocks st;
        newStagingResponses :=
          newStagingResponses st
          ++ [{| rs_id := id; rs_vid := vid; rs_operation := rq_operation request;
                 rs_lastModified := ""; rs_resourceType := rq_resourceType request;
                 rs_resource := empty_object |}] |}, w)
  else (st, w).

Definition generateStagingRequests (env : Env) (w : World)
    (requests : list BatchReadWriteRequest) (idToVersionId : gmap string string)
    : StagingRequests * World :=
  fold_left (stage_request env idToVersionId) requests (no_requests, w).

Definition generateDeleteLatestRecordAndItemToRemoveFromLock
    (resourceType id : string) (vid : option string) : WriteRequest * LockRemoval :=
  let transactionRequest := buildDeleteParam id vid in
  let itemToRemoveFromLock :=
    {| rm_id := id; rm_vid := vid; rm_resourceType := resourceType |} in
  (transactionRequest, itemToRemoveFromLock).

Record RollbackRequests := {
  transactionRequests : list WriteRequest;
  itemsToRemoveFromLock : list LockRemoval
}.

Definition generateRollbackRequests (bundleEntryResponses : list BatchReadWriteResponse)
    : RollbackRequests :=
  fold_left
    (fun acc stagingResponse =>
       if (String.eqb (rs_operation stagingResponse) "create"
           || String.eqb (rs_operation stagingResponse) "update")%bool
       then
         let '(transactionRequest, itemToRemoveFromLock) :=
           generateDeleteLatestRecordAndItemToRemoveFromLock
             (rs_resourceType stagingResponse) (rs_id stagingResponse)
             (rs_vid stagingResponse) in
         {| transactionRequests := transactionRequests acc ++ [transactionRequest];
            itemsToRemoveFromLock := itemsToRemoveFromLock acc ++ [itemToRemoveFromLock] |}
       else acc)
    bundleEntryResponses
    {| transactionRequests := []; itemsToRemoveFromLock := [] |}.

(** [item?.meta?.lastUpdated ? item.meta.lastUpdated : ''] *)
Definition lastUpdated_or_empty (item : Resource) : string :=
  match res_meta item with
  | Some m => or_else (lastUpdated m) ""
  | None => ""
  end.

(** [readResult?.Responses[index]?.Item]: [Resolved None] is [undefined];
    indexing the [Responses] of a result that has none throws. *)
Definition result_item (readResult : option TransactGetItemsOutput) (index : nat)
    : Completion (option Item) :=
  match readResult with
  | None => Resolved None
  | Some r =>
      match Responses r with
      | None => Rejected (TypeError "Cannot read property of undefined")
      | Some rs =>
          match rs !! index with
          | Some ir => Resolved (Item_ ir)
          | None => Resolved None
          end
      end
  end.

(** The loop of [populateBundleEntryResponseWithReadResult] from position
    [i] of the array on, [index] results consumed so far. The array is
    updated in place: it is returned as it stands when the loop ends or
    throws. *)
Fixpoint populate_from (fuel i index : nat)
    (bundleEntryResponses : list BatchReadWriteResponse)
    (readResult : option TransactGetItemsOutput)
    : list BatchReadWriteResponse * option Exn :=
  match fuel with
  | O => (bundleEntryResponses, None)
  | S fuel' =>
      match bundleEntryResponses !! i with
      | None => (bundleEntryResponses, None)
      | Some stagingResponse =>
          if String.eqb (rs_operation stagingResponse) "read" then
            match result_item readResult index with
            | Rejected e => (bundleEntryResponses, Some e)
            | Resolved None =>
                (bundleEntryResponses,
                 Some (Error "Failed to fulfill all READ requests"))
            | Resolved (Some item) =>
                let item := cleanItem item in
                let stagingResponse :=
                  {| rs_id := rs_id stagingResponse;
                     rs_vid := rs_vid stagingResponse;
                     rs_operation := rs_operation stagingResponse;
                     rs_lastModified := lastUpdated_or_empty item;
                     rs_resourceType := rs_resourceType stagingResponse;
                     rs_resource := item |} in
                populate_from fuel' (S i) (S index)
                  (<[i := stagingResponse]> bundleEntryResponses) readResult
            end
          else populate_from fuel' (S i) index bundleEntryResponses readResult
      end
  end.

(** The array after the call, and what was thrown, if anything. When nothing
    is thrown the function returns that same array. *)
Definition populateBundleEntryResponseWithReadResult
    (bundleEntryResponses : list BatchReadWriteResponse)
    (readResult : option TransactGetItemsOutput)
    : list BatchReadWriteResponse * option Exn :=
  populate_from (length bundleEntryResponses) 0 0 bundleEntryResponses readResult.

End DynamoDbBundleServiceHelper.

(** ** The coordinator (dynamoDbBundleService.ts) *)

Module DynamoDbBundleService.

Import DynamoDbBundleServiceHelper.

Definition MAX_TRANSACTION_SIZE : nat := 25.

Definition dynamoDbMaxBatchSize : nat := 25.

Definition ELAPSED_TIME_WARNING_MESSAGE : string :=
  "Transaction time is greater than max allowed code execution time. Please reduce your bundle size by sending fewer Bundle entries.".

Inductive BatchReadWriteErrorType := USER_ERROR | SYSTEM_ERROR.

Record BundleResponse := {
  success : bool;
  message : string;
  batchReadWriteResponses : list BatchReadWriteResponse;
  errorType : option BatchReadWriteErrorType
}.

Record TransactionRequest := {
  requests : list BatchReadWriteRequest;
  startTime : Z
}.

(** The budget the constructor keeps: [maxExecutionTimeMs || 26 * 1000]. *)
Definition budget (env : Env) : Z :=
  match maxExecutionTimeMs env with
  | Some 0 | None => 26 * 1000
  | Some n => n
  end.

(** [batch] is not supported: the promise always rejects. *)
Definition batch (env : Env) (w : World) (request : list BatchReadWriteRequest)
    : Completion BundleResponse * World :=
  (Rejected (Error "Batch operation is not supported."), w).

(** Modelled from the spec: chunkArray of the package
    fhir-works-on-aws-interface, which is not among the sources: "partition
    ... into chunks no larger than" the given size, in order. *)
Fixpoint chunk_fuel {A} (fuel : nat) (myArray : list A) (chunkSize : nat) : list (list A) :=
  match fuel, myArray with
  | S fuel', _ :: _ =>
      take chunkSize myArray :: chunk_fuel fuel' (drop chunkSize myArray) chunkSize
  | _, _ => []
  end.

(** Modelled from the spec: chunkArray, with enough fuel for the whole
    array. *)
Definition chunkArray {A} (myArray : list A) (chunkSize : nat) : list (list A) :=
  chunk_fuel (length myArray) myArray chunkSize.

Definition getElapsedTime (env : Env) (w : World) (startTime : Z) : Z * World :=
  let '(now, w') := Date_now env w in (now - startTime, w').

Record LockItemsResponse := {
  successfulLock : bool;
  lock_errorType : option BatchReadWriteErrorType;
  errorMessage : option string;
  lockedItems : list ItemRequest
}.

(** What [Promise.all] rejects with: the failure of a lookup that failed
    otherwise than by not finding (of the first such lookup, in the order of
    the requests). *)
Fixpoint first_failure (itemResponses : list Lookup) : option Exn :=
  match itemResponses with
  | [] => None
  | LookupFailure e :: _ => Some e
  | _ :: rest => first_failure rest
  end.

(** The first loop over the answers: the ["resourceType/id"] of the items
    that were not found. *)
Fixpoint idItemsFailedToRead (itemResponses : list Lookup) (itemsToLock : list ItemRequest)
    : list string :=
  match itemResponses, itemsToLock with
  | ResourceNotFoundError :: rs, it :: its =>
      (it_resourceType it +:+ "/" +:+ it_id it) :: idItemsFailedToRead rs its
  | _ :: rs, _ :: its => idItemsFailedToRead rs its
  | _, _ => []
  end.

(** The second loop over the answers: the lock record and the lock request
    of every item found. *)
Fixpoint lock_requests (itemResponses : list Lookup)
    (allNonCreateRequests : list BatchReadWriteRequest)
    : list ItemRequest * list WriteRequest :=
  match itemResponses, allNonCreateRequests with
  | Found resource :: rs, request :: rqs =>
      let '(lockedItems, addLockRequests) := lock_requests rs rqs in
      let lockedItem :=
        {| it_id := pj_id resource;
           it_vid := Some (pj_versionId resource);
           it_resourceType := pj_resourceType resource;
           it_operation := rq_operation request;
           isOriginalUpdateItem :=
             if String.eqb (rq_operation request) "update" then Some true else None |} in
      (lockedItem :: lockedItems,
       buildUpdateDocumentStatusParam (Some AVAILABLE) LOCKED
         (pj_id resource) (Some (pj_versionId resource)) :: addLockRequests)
  | _ :: rs, _ :: rqs => lock_requests rs rqs
  | _, _ => ([], [])
  end.

Definition lockItems (env : Env) (w : World) (requests : list BatchReadWriteRequest)
    : Completion LockItemsResponse * World :=
  let allNonCreateRequests :=
    filter (fun request => rq_operation request ≠ "create") requests in
  let itemsToLock :=
    map (fun request =>
           {| it_id := rq_id request; it_vid := None;
              it_resourceType := rq_resourceType request;
              it_operation := rq_operation request;
              isOriginalUpdateItem := None |}) allNonCreateRequests in
  if Nat.ltb dynamoDbMaxBatchSize (length itemsToLock) then
    (Resolved {| successfulLock := false;
                 lock_errorType := Some SYSTEM_ERROR;
                 errorMessage :=
                   Some ("Cannot lock more than "
                         +:+ toString (Z.of_nat dynamoDbMaxBatchSize) +:+ " items");
                 lockedItems := [] |}, w)
  else
    let itemResponses :=
      map (fun itemToLock =>
             getMostRecentResource env (db w) (it_resourceType itemToLock) (it_id itemToLock))
          itemsToLock in
    match first_failure itemResponses with
    | Some e => (Rejected e, w)
    | None =>
        let failed := idItemsFailedToRead itemResponses itemsToLock in
        if Nat.ltb 0 (length failed) then
          (Resolved {| successfulLock := false;
                       lock_errorType := Some USER_ERROR;
                       errorMessage :=
                         Some ("Failed to find resources: " +:+ join_comma failed);
                       lockedItems := [] |}, w)
        else
          let '(lockedItems, addLockRequests) :=
            lock_requests itemResponses allNonCreateRequests in
          if Nat.ltb 0 (length addLockRequests) then
            let '(ok, w') := transactWriteItems env w addLockRequests in
            if ok then
              (Resolved {| successfulLock := true; lock_errorType := None;
                           errorMessage := None; lockedItems := [] ++ lockedItems |}, w')
            else
              (Resolved {| successfulLock := false;
                           lock_errorType := Some SYSTEM_ERROR;
                           errorMessage :=
                             Some ("Failed to lock resources for transaction. Please try again after "
                                   +:+ LOCK_DURATION_SECONDS env +:+ " seconds.");
                           lockedItems := [] |}, w')
          else
            (Resolved {| successfulLock := true; lock_errorType := None;
                         errorMessage := None; lockedItems := [] |}, w)
    end.

Record UnlockItemsResponse := {
  successfulUnlock : bool;
  locksFailedToRelease : list ItemRequest
}.

(** The status an unlock request gives to the row of a lock. *)
Definition newStatus (rollBack : bool) (lockedItem : ItemRequest) : DOCUMENT_STATUS :=
  if ((String.eqb (it_operation lockedItem) "delete"
       || (String.eqb (it_operation lockedItem) "update"
           && default false (isOriginalUpdateItem lockedItem)))
      && negb rollBack)%bool
  then DELETED
  else AVAILABLE.

Definition unlock_request (rollBack : bool) (lockedItem : ItemRequest) : WriteRequest :=
  buildUpdateDocumentStatusParam None (newStatus rollBack lockedItem)
    (it_id lockedItem) (Some (or_else (it_vid lockedItem) "0")).

(** The [for] loop of [unlockItems] from chunk [i] on; [params] holds the
    batches not yet submitted. *)
Fixpoint unlock_from (env : Env) (w : World) (i : nat)
    (params : list (list WriteRequest)) (lockedItemChunks : list (list ItemRequest))
    : UnlockItemsResponse * World :=
  match params with
  | [] => ({| successfulUnlock := true; locksFailedToRelease := [] |}, w)
  | requestChunk :: rest =>
      let '(ok, w') := transactWriteItems env w requestChunk in
      if ok then unlock_from env w' (S i) rest lockedItemChunks
      else
        ({| successfulUnlock := false;
            locksFailedToRelease := concat (drop i lockedItemChunks) |}, w')
  end.

Definition unlockItems (env : Env) (w : World) (lockedItems : list ItemRequest)
    (rollBack : bool) : UnlockItemsResponse * World :=
  match lockedItems with
  | [] => ({| successfulUnlock := true; locksFailedToRelease := [] |}, w)
  | _ =>
      let updateRequests := map (unlock_request rollBack) lockedItems in
      let updateRequestChunks := chunkArray updateRequests MAX_TRANSACTION_SIZE in
      let lockedItemChunks := chunkArray lockedItems MAX_TRANSACTION_SIZE in
      unlock_from env w 0 updateRequestChunks lockedItemChunks
  end.

Definition generateFullId (id : string) (vid : string) : string :=
  id +:+ "_" +:+ vid.

(** [record[key] = value] on an object whose values are enumerated later:
    an existing key keeps its place. The keys are full ids, which hold an
    underscore: none is an array index, so the values are enumerated in the
    order of insertion. *)
Fixpoint set_property {A} (key : string) (value : A) (record : list (string * A))
    : list (string * A) :=
  match record with
  | [] => [(key, value)]
  | (k, v) :: rest =>
      if String.eqb k key then (k, value) :: rest
      else (k, v) :: set_property key value rest
  end.

(** [delete record[key]]. *)
Definition delete_property {A} (key : string) (record : list (string * A))
    : list (string * A) :=
  filter (fun kv => kv.1 ≠ key) record.

Definition removeLocksFromArray (originalLocks : list ItemRequest)
    (locksToRemove : list LockRemoval) : list ItemRequest :=
  let fullIdToLockedItem :=
    fold_left
      (fun record lockedItem =>
         set_property
           (generateFullId (it_id lockedItem) (or_else (it_vid lockedItem) "0"))
           lockedItem record)
      originalLocks [] in
  let fullIdToLockedItem :=
    fold_left
      (fun record itemToRemove =>
         delete_property
           (generateFullId (rm_id itemToRemove) (interpolate (rm_vid itemToRemove)))
           record)
      locksToRemove fullIdToLockedItem in
  map snd fullIdToLockedItem.

Definition rollbackItems (env : Env) (w : World)
    (batchReadWriteEntryResponses : list BatchReadWriteResponse)
    (lockedItems : list ItemRequest) : list ItemRequest * World :=
  let rb := generateRollbackRequests batchReadWriteEntryResponses in
  let newLockedItems := removeLocksFromArray lockedItems (itemsToRemoveFromLock rb) in
  let '(_, w') := transactWriteItems env w (transactionRequests rb) in
  (newLockedItems, w').

Record StageItemsResponse := {
  stage_success : bool;
  stage_batchReadWriteResponses : list BatchReadWriteResponse;
  stage_lockedItems : list ItemRequest
}.

(** The [idToVersionId] that [stageItems] builds from the locks. *)
Definition version_map (lockedItems : list ItemRequest) : gmap string string :=
  fold_left
    (fun m idItemLocked => <[it_id idItemLocked := or_else (it_vid idItemLocked) "0"]> m)
    lockedItems ∅.

Definition stageItems (env : Env) (w : World) (requests : list BatchReadWriteRequest)
    (lockedItems : list ItemRequest) : StageItemsResponse * World :=
  let idToVersionId := version_map lockedItems in
  let '(st, w1) := generateStagingRequests env w requests idToVersionId in
  let editRequests := deleteRequests st ++ createRequests st ++ updateRequests st in
  let '(written, w2) :=
    if Nat.ltb 0 (length editRequests)
    then transactWriteItems env w1 editRequests
    else (true, w1) in
  if negb written then
    ({| stage_success := false; stage_batchReadWriteResponses := [];
        stage_lockedItems := lockedItems |}, w2)
  else
    let allLockedItems := lockedItems ++ newLocks st in
    let batchReadWriteResponses := [] ++ newStagingResponses st in
    if Nat.ltb 0 (length (readRequests st)) then
      match transactGetItems env w2 (readRequests st) with
      | (None, w3) =>
          ({| stage_success := false;
              stage_batchReadWriteResponses := batchReadWriteResponses;
              stage_lockedItems := allLockedItems |}, w3)
      | (Some readResult, w3) =>
          match populateBundleEntryResponseWithReadResult
                  batchReadWriteResponses (Some readResult) with
          | (populated, None) =>
              ({| stage_success := true;
                  stage_batchReadWriteResponses := populated;
                  stage_lockedItems := allLockedItems |}, w3)
          | (populated, Some _) =>
              ({| stage_success := false;
                  stage_batchReadWriteResponses := populated;
                  stage_lockedItems := allLockedItems |}, w3)
          end
      end
    else
      ({| stage_success := true;
          stage_batchReadWriteResponses := batchReadWriteResponses;
          stage_lockedItems := allLockedItems |}, w2).

Definition transaction (env : Env) (w : World) (request : TransactionRequest)
    : Completion BundleResponse * World :=
  match requests request with
  | [] =>
      (Resolved {| success := true; message := "No requests to process";
                   batchReadWriteResponses := []; errorType := None |}, w)
  | _ =>
      match lockItems env w (requests request) with
      | (Rejected e, w1) => (Rejected e, w1)
      | (Resolved lockItemsResponse, w1) =>
          let '(elapsedTimeInMs, w2) := getElapsedTime env w1 (startTime request) in
          if (Z.ltb (budget env) elapsedTimeInMs
              || negb (successfulLock lockItemsResponse))%bool then
            let '(_, w3) := unlockItems env w2 (lockedItems lockItemsResponse) true in
            if Z.ltb (budget env) elapsedTimeInMs then
              (Resolved {| success := false; message := ELAPSED_TIME_WARNING_MESSAGE;
                           batchReadWriteResponses := [];
                           errorType := Some USER_ERROR |}, w3)
            else
              (Resolved {| success := false;
                           message := or_else (errorMessage lockItemsResponse)
                                        "Failed to lock resources for transaction";
                           batchReadWriteResponses := [];
                           errorType := lock_errorType lockItemsResponse |}, w3)
          else
            let '(stageItemResponse, w3) :=
              stageItems env w2 (requests request) (lockedItems lockItemsResponse) in
            let '(elapsedTimeInMs, w4) := getElapsedTime env w3 (startTime request) in
            if (Z.ltb (budget env) elapsedTimeInMs
                || negb (stage_success stageItemResponse))%bool then
              let '(remaining, w5) :=
                rollbackItems env w4 (stage_batchReadWriteResponses stageItemResponse)
                  (stage_lockedItems stageItemResponse) in
              let '(_, w6) := unlockItems env w5 remaining true in
              if Z.ltb (budget env) elapsedTimeInMs then
                (Resolved {| success := false; message := ELAPSED_TIME_WARNING_MESSAGE;
                             batchReadWriteResponses := [];
                             errorType := Some USER_ERROR |}, w6)
              else
                (Resolved {| success := false;
                             message := "Failed to stage resources for transaction";
                             batchReadWriteResponses := [];
                             errorType := Some SYSTEM_ERROR |}, w6)
            else
              let '(_, w5) := unlockItems env w4 (stage_lockedItems stageItemResponse) false in
              (Resolved {| success := true;
                           message := "Successfully committed requests to DB";
                           batchReadWriteResponses :=
                             stage_batchReadWriteResponses stageItemResponse;
                           errorType := None |}, w5)
      end
  end.

End DynamoDbBundleService.

(** * Properties *)

(** Case analysis on a comparison of strings, with the equality or the
    disequality it decides in the context. *)
Ltac case_eqb :=
  match goal with
  | |- context [String.eqb ?a ?b] =>
      let E := fresh "E" in
      destruct (String.eqb_spec a b) as [E | E]
  | H : context [String.eqb ?a ?b] |- _ =>
      let E := fresh "E" in
      destruct (String.eqb_spec a b) as [E | E]
  end.

Module HelperProperties.

Import DynamoDbBundleServiceHelper.

(** ** Rollback generation *)

(** The envelope stands for a row that staging wrote. *)
Definition wrote_row (e : BatchReadWriteResponse) : Prop :=
  rs_operation e = "create" ∨ rs_operation e = "update".

Global Instance wrote_row_dec e : Decision (wrote_row e).
Proof. unfold wrote_row. apply _. Defined.

Definition rollback_delete (e : BatchReadWriteResponse) : WriteRequest :=
  Delete (rs_id e) (rs_vid e).

Definition rollback_removal (e : BatchReadWriteResponse) : LockRemoval :=
  {| rm_id := rs_id e; rm_vid := rs_vid e; rm_resourceType := rs_resourceType e |}.

Definition rollback_step (acc : RollbackRequests) (e : BatchReadWriteResponse)
    : RollbackRequests :=
  if (String.eqb (rs_operation e) "create" || String.eqb (rs_operation e) "update")%bool
  then
    let '(transactionRequest, itemToRemoveFromLock) :=
      generateDeleteLatestRecordAndItemToRemoveFromLock
        (rs_resourceType e) (rs_id e) (rs_vid e) in
    {| transactionRequests := transactionRequests acc ++ [transactionRequest];
       itemsToRemoveFromLock := itemsToRemoveFromLock acc ++ [itemToRemoveFromLock] |}
  else acc.

Lemma rollback_fold (l : list BatchReadWriteResponse) (acc : RollbackRequests) :
  fold_left rollback_step l acc =
  {| transactionRequests :=
       transactionRequests acc ++ map rollback_delete (filter wrote_row l);
     itemsToRemoveFromLock :=
       itemsToRemoveFromLock acc ++ map rollback_removal (filter wrote_row l) |}.
Proof.
  revert acc. induction l as [| e l IH]; intros acc; simpl.
  - rewrite !app_nil_r. by destruct acc.
  - rewrite IH, filter_cons.
    destruct (decide (wrote_row e)) as [H | H]; unfold wrote_row in H;
      unfold rollback_step at 1 2; repeat case_eqb; simpl; try tauto;
      rewrite <- ?app_assoc; reflexivity.
Qed.

(** C3. [generateRollbackRequests] emits, in the order of the envelopes, one
    unconditional delete of the (id, versionId) of every envelope whose
    operation is create or update and one lock-removal entry for that same
    (id, versionId), and nothing else: an envelope with any other operation,
    read and delete among them, contributes neither. *)
Theorem generateRollbackRequests_coverage (l : list BatchReadWriteResponse) :
  transactionRequests (generateRollbackRequests l)
    = map (λ e, buildDeleteParam (rs_id e) (rs_vid e)) (filter wrote_row l)
  ∧ itemsToRemoveFromLock (generateRollbackRequests l)
    = map rollback_removal (filter wrote_row l)
  ∧ (∀ e, e ∈ l → rs_operation e = "read" ∨ rs_operation e = "delete" →
           e ∉ filter wrote_row l).
Proof.
  unfold generateRollbackRequests.
  change (fold_left _ l ?a) with (fold_left rollback_step l a).
  rewrite rollback_fold. simpl. repeat split.
  intros e _ Hop Hin. apply list_elem_of_filter in Hin as [[H | H] _];
    destruct Hop as [H' | H']; rewrite H' in H; discriminate.
Qed.

(** ** Staging *)

Definition is_create (r : BatchReadWriteRequest) : Prop := rq_operation r = "create".
Definition is_update (r : BatchReadWriteRequest) : Prop := rq_operation r = "update".
Definition is_delete (r : BatchReadWriteRequest) : Prop := rq_operation r = "delete".
Definition is_read (r : BatchReadWriteRequest) : Prop := rq_operation r = "read".

Global Instance is_create_dec r : Decision (is_create r).
Proof. unfold is_create. apply _. Defined.
Global Instance is_update_dec r : Decision (is_update r).
Proof. unfold is_update. apply _. Defined.
Global Instance is_delete_dec r : Decision (is_delete r).
Proof. unfold is_delete. apply _. Defined.
Global Instance is_read_dec r : Decision (is_read r).
Proof. unfold is_read. apply _. Defined.

(** The version an update is staged at. *)
Definition next_version (idToVersionId : gmap string string) (id : string) : string :=
  toString (number_or_zero (parseInt (idToVersionId !! id)) + 1).

(** What staging submits for one delete, one create and one update. *)
Definition staged_delete (m : gmap string string) (r : BatchReadWriteRequest)
    : WriteRequest :=
  Update (Some LOCKED) PENDING_DELETE (rq_id r) (m !! rq_id r).

Definition staged_create (r : BatchReadWriteRequest) (x : WriteRequest) : Prop :=
  ∃ id now,
    x = Put (prepItemForDdbInsert (rq_resource r) id "1" PENDING now)
    ∧ (rq_id r ≠ "" → id = rq_id r).

Definition staged_update (m : gmap string string) (r : BatchReadWriteRequest)
    (x : WriteRequest) : Prop :=
  ∃ now,
    x = Put (prepItemForDdbInsert (rq_resource r) (res_id (rq_resource r))
               (next_version m (res_id (rq_resource r))) PENDING now).

Lemma truthy_nonempty s : s ≠ "" → truthy s = true.
Proof. by destruct s. Qed.

(** Splits on the operation of the request at hand and discards the cases
    in which the tests on it disagree. *)
Ltac settle_operation :=
  repeat case_eqb; repeat case_decide;
  try (exfalso; unfold is_create, is_update, is_delete, is_read in *; congruence).

(** Staging touches neither the table nor the record of submissions. *)
Lemma stage_request_world env m acc r :
  db (stage_request env m acc r).2 = db acc.2
  ∧ events (stage_request env m acc r).2 = events acc.2.
Proof.
  destruct acc as [st w]. unfold stage_request.
  repeat case_eqb; simpl; auto.
Qed.

Lemma staging_world env m l acc :
  db (fold_left (stage_request env m) l acc).2 = db acc.2
  ∧ events (fold_left (stage_request env m) l acc).2 = events acc.2.
Proof.
  revert acc. induction l as [| r l IH]; intros acc; simpl; [done |].
  destruct (IH (stage_request env m acc r)) as [-> ->].
  apply stage_request_world.
Qed.

Lemma generateStagingRequests_world env w requests m :
  db (generateStagingRequests env w requests m).2 = db w
  ∧ events (generateStagingRequests env w requests m).2 = events w.
Proof. apply (staging_world env m requests (no_requests, w)). Qed.

(** The three arrays of writes, in terms of the operations of each kind. *)
Lemma staging_writes env m l acc :
  let res := fold_left (stage_request env m) l acc in
  deleteRequests res.1
    = deleteRequests acc.1 ++ map (staged_delete m) (filter is_delete l)
  ∧ (∃ cs, createRequests res.1 = createRequests acc.1 ++ cs
           ∧ Forall2 staged_create (filter is_create l) cs)
  ∧ (∃ us, updateRequests res.1 = updateRequests acc.1 ++ us
           ∧ Forall2 (staged_update m) (filter is_update l) us).
Proof.
  revert acc. induction l as [| r l IH]; intros acc; simpl.
  - rewrite app_nil_r. repeat split; exists []; rewrite app_nil_r; by split.
  - destruct (IH (stage_request env m acc r)) as (Hd & (cs & Hc & Fc) & (us & Hu & Fu)).
    rewrite Hd, Hc, Hu. clear Hd Hc Hu IH.
    rewrite !filter_cons. destruct acc as [st w]. unfold stage_request.
    settle_operation; simpl.
    + rewrite <- app_assoc. split; [done |]. split; [| by exists us].
      eexists (_ :: cs). split; [done |].
      constructor; [| done]. eexists _, _. split; [done |].
      intros Hid. by rewrite (truthy_nonempty _ Hid).
    + rewrite <- app_assoc. split; [done |]. split; [by exists cs |].
      eexists (_ :: us). split; [done |].
      constructor; [| done]. by eexists.
    + rewrite <- app_assoc. split; [done |]. split; [by exists cs | by exists us].
    + split; [done |]. split; [by exists cs | by exists us].
    + split; [done |]. split; [by exists cs | by exists us].
Qed.

(** Staging only appends to its arrays. *)
Lemma staging_extends env m l acc :
  let res := fold_left (stage_request env m) l acc in
  ∃ us ks es,
    updateRequests res.1 = updateRequests acc.1 ++ us
    ∧ newLocks res.1 = newLocks acc.1 ++ ks
    ∧ newStagingResponses res.1 = newStagingResponses acc.1 ++ es.
Proof.
  revert acc. induction l as [| r l IH]; intros acc; simpl.
  - exists [], [], []. by rewrite !app_nil_r.
  - destruct (IH (stage_request env m acc r)) as (us & ks & es & -> & -> & ->).
    clear IH. destruct acc as [st w]. unfold stage_request.
    repeat case_eqb; simpl; rewrite <- ?app_assoc; by eexists _, _, _.
Qed.

(** An operation that is none of the four handled ones leaves the arrays and
    the world as they are. *)
Lemma stage_request_skip env m acc r :
  rq_operation r ≠ "create" → rq_operation r ≠ "update" →
  rq_operation r ≠ "delete" → rq_operation r ≠ "read" →
  stage_request env m acc r = acc.
Proof.
  intros Hc Hu Hd Hr. destruct acc as [st w]. unfold stage_request.
  by repeat case_eqb.
Qed.

(** An update of a resource whose version is unknown, or is not a number. *)
Lemma stage_request_update_unversioned env m st w r :
  rq_operation r = "update" →
  parseInt (m !! res_id (rq_resource r)) = None →
  let id := res_id (rq_resource r) in
  let now := toISOString env (clock env (ticks w)) in
  let res := stage_request env m (st, w) r in
  updateRequests res.1
    = updateRequests st ++ [Put (prepItemForDdbInsert (rq_resource r) id "1" PENDING now)]
  ∧ newLocks res.1
    = newLocks st
      ++ [{| it_id := id; it_vid := Some "1"; it_resourceType := rq_resourceType r;
             it_operation := "update"; isOriginalUpdateItem := Some false |}]
  ∧ newStagingResponses res.1
    = newStagingResponses st
      ++ [{| rs_id := id; rs_vid := Some "1"; rs_operation := "update";
             rs_lastModified := now; rs_resourceType := rq_resourceType r;
             rs_resource := empty_object |}].
Proof.
  intros Hop Hnan. unfold stage_request. rewrite Hop, Hnan. simpl. done.
Qed.

(** An operation request whose operation is none of create, update, delete
    and read is skipped by [generateStagingRequests]: the arrays of store
    requests, of response envelopes and of lock records, and the world, are
    those obtained without that entry. *)
Lemma generateStagingRequests_skip
    env w m (before after : list BatchReadWriteRequest) (r : BatchReadWriteRequest) :
  rq_operation r ≠ "create" → rq_operation r ≠ "update" →
  rq_operation r ≠ "delete" → rq_operation r ≠ "read" →
  generateStagingRequests env w (before ++ r :: after) m
  = generateStagingRequests env w (before ++ after) m.
Proof.
  intros Hc Hu Hd Hr. unfold generateStagingRequests.
  rewrite !fold_left_app. simpl. by rewrite stage_request_skip.
Qed.

(** C9. An update whose resource id is absent from the version map, or is
    mapped to a version that does not parse as an integer, is staged at
    version "1": the put, the lock record and the response envelope that
    [generateStagingRequests] adds for it all carry versionId "1". *)
Theorem generateStagingRequests_update_defaults_to_version_1
    env w m (before after : list BatchReadWriteRequest) (r : BatchReadWriteRequest) :
  rq_operation r = "update" →
  (m !! res_id (rq_resource r) = None
   ∨ ∃ v, m !! res_id (rq_resource r) = Some v ∧ parseInt_string v = None) →
  let id := res_id (rq_resource r) in
  let pre := generateStagingRequests env w before m in
  let res := generateStagingRequests env w (before ++ r :: after) m in
  ∃ now us ks es,
    updateRequests res.1
      = updateRequests pre.1
        ++ Put (prepItemForDdbInsert (rq_resource r) id "1" PENDING now) :: us
    ∧ newLocks res.1
      = newLocks pre.1
        ++ {| it_id := id; it_vid := Some "1"; it_resourceType := rq_resourceType r;
              it_operation := "update"; isOriginalUpdateItem := Some false |} :: ks
    ∧ newStagingResponses res.1
      = newStagingResponses pre.1
        ++ {| rs_id := id; rs_vid := Some "1"; rs_operation := "update";
              rs_lastModified := now; rs_resourceType := rq_resourceType r;
              rs_resource := empty_object |} :: es.
Proof.
  intros Hop Hversion id pre res.
  assert (parseInt (m !! res_id (rq_resource r)) = None) as Hnan.
  { destruct Hversion as [-> | (v & -> & Hv)]; [reflexivity | exact Hv]. }
  subst res. unfold generateStagingRequests.
  rewrite fold_left_app. simpl. fold (generateStagingRequests env w before m).
  fold pre. destruct pre as [st w1] eqn:Hpre.
  destruct (stage_request_update_unversioned env m st w1 r Hop Hnan) as (Hu & Hk & He).
  destruct (staging_extends env m after (stage_request env m (st, w1) r))
    as (us & ks & es & -> & -> & ->).
  rewrite Hu, Hk, He, <- !app_assoc. simpl. by eexists _, us, ks, es.
Qed.

(** ** Merging the results of the reads *)

Definition is_read_envelope (e : BatchReadWriteResponse) : Prop :=
  rs_operation e = "read".

Global Instance is_read_envelope_dec e : Decision (is_read_envelope e).
Proof. unfold is_read_envelope. apply _. Defined.

(** The number of read envelopes among the first [i]. *)
Definition reads_before (l : list BatchReadWriteResponse) (i : nat) : nat :=
  length (filter is_read_envelope (take i l)).

(** The [k]-th item of a read result, if it has one. *)
Definition nth_item (readResult : option TransactGetItemsOutput) (k : nat)
    : option Item :=
  r ← readResult; rs ← Responses r; ir ← rs !! k; Item_ ir.

(** A read envelope filled in from an item of the result. *)
Definition filled (e : BatchReadWriteResponse) (item : Item) : BatchReadWriteResponse :=
  {| rs_id := rs_id e; rs_vid := rs_vid e; rs_operation := rs_operation e;
     rs_lastModified := lastUpdated_or_empty (cleanItem item);
     rs_resourceType := rs_resourceType e;
     rs_resource := cleanItem item |}.

(** The read result is an object without a [Responses] list. *)
Definition lacks_responses (readResult : option TransactGetItemsOutput) : Prop :=
  ∃ r, readResult = Some r ∧ Responses r = None.

Definition incomplete_read : Exn := Error "Failed to fulfill all READ requests".

(** The walk over the envelopes, by recursion on those still to visit. *)
Fixpoint walk (rest : list BatchReadWriteResponse) (index : nat)
    (readResult : option TransactGetItemsOutput)
    : list BatchReadWriteResponse * option Exn :=
  match rest with
  | [] => ([], None)
  | e :: rest' =>
      if String.eqb (rs_operation e) "read" then
        match result_item readResult index with
        | Rejected x => (rest, Some x)
        | Resolved None => (rest, Some incomplete_read)
        | Resolved (Some item) =>
            let '(out, x) := walk rest' (S index) readResult in
            (filled e item :: out, x)
        end
      else
        let '(out, x) := walk rest' index readResult in (e :: out, x)
  end.

Lemma populate_from_walk readResult rest :
  ∀ fuel visited index,
    (length rest ≤ fuel)%nat →
    populate_from fuel (length visited) index (visited ++ rest) readResult
    = let '(out, x) := walk rest index readResult in (visited ++ out, x).
Proof.
  induction rest as [| e rest IH]; intros fuel visited index Hfuel.
  - simpl. rewrite app_nil_r.
    destruct fuel; simpl; [done |].
    by rewrite lookup_ge_None_2.
  - destruct fuel as [| fuel]; simpl in Hfuel; [lia |]. simpl.
    rewrite list_lookup_middle by done.
    case_eqb.
    + destruct (result_item readResult index) as [[item |] | x]; try done.
      replace (<[length visited := _]> (visited ++ e :: rest))
        with ((visited ++ [filled e item]) ++ rest).
      2:{ rewrite <- app_assoc. simpl.
          by rewrite (insert_app_r_alt visited (e :: rest) (length visited)),
                     Nat.sub_diag. }
      replace (S (length visited)) with (length (visited ++ [filled e item])).
      2:{ rewrite length_app. simpl. lia. }
      rewrite IH by lia.
      destruct (walk rest (S index) readResult) as [out x].
      by rewrite <- app_assoc.
    + replace (visited ++ e :: rest) with ((visited ++ [e]) ++ rest)
        by by rewrite <- app_assoc.
      replace (S (length visited)) with (length (visited ++ [e])).
      2:{ rewrite length_app. simpl. lia. }
      rewrite IH by lia.
      destruct (walk rest index readResult) as [out x].
      by rewrite <- app_assoc.
Qed.

Lemma populate_walk l readResult :
  populateBundleEntryResponseWithReadResult l readResult = walk l 0 readResult.
Proof.
  unfold populateBundleEntryResponseWithReadResult.
  pose proof (populate_from_walk readResult l (length l) [] 0) as H.
  simpl in H. rewrite H by done.
  by destruct (walk l 0 readResult).
Qed.

Lemma result_item_cases readResult k :
  (lacks_responses readResult ∧ ∃ m, result_item readResult k = Rejected (TypeError m))
  ∨ (¬ lacks_responses readResult
     ∧ result_item readResult k = Resolved (nth_item readResult k)).
Proof.
  unfold lacks_responses, result_item, nth_item.
  destruct readResult as [[[rs |]] |]; simpl.
  - right. split; [by intros (r & [= <-] & ?) |]. by destruct (rs !! k).
  - left. split; [by eexists | by eexists].
  - right. split; [by intros (r & ? & ?) | done].
Qed.

Lemma reads_before_0 l : reads_before l 0 = 0%nat.
Proof. unfold reads_before. by rewrite take_0. Qed.

Lemma reads_before_S e l i :
  reads_before (e :: l) (S i)
  = ((if decide (is_read_envelope e) then 1 else 0) + reads_before l i)%nat.
Proof.
  unfold reads_before. simpl. rewrite filter_cons. by case_decide.
Qed.

Lemma reads_cons e l :
  length (filter is_read_envelope (e :: l))
  = ((if decide (is_read_envelope e) then 1 else 0)
     + length (filter is_read_envelope l))%nat.
Proof. rewrite filter_cons. by case_decide. Qed.

(** When the result has an item for every read still to serve, the walk
    ends normally, filling each read envelope from the item of its rank. *)
Lemma walk_complete readResult rest :
  ∀ index,
    (∀ k, (index ≤ k < index + length (filter is_read_envelope rest))%nat →
          is_Some (nth_item readResult k)) →
    ∃ out,
      walk rest index readResult = (out, None)
      ∧ length out = length rest
      ∧ ∀ i e, rest !! i = Some e →
          (is_read_envelope e →
             ∃ item, nth_item readResult (index + reads_before rest i) = Some item
                     ∧ out !! i = Some (filled e item))
          ∧ (¬ is_read_envelope e → out !! i = Some e).
Proof.
  induction rest as [| e rest IH]; intros index Hall.
  - exists []. repeat split; try done; intros; by rewrite lookup_nil in *.
  - rewrite reads_cons in Hall. simpl. unfold is_read_envelope in *.
    case_eqb; case_decide; try done.
    + destruct (Hall index ltac:(lia)) as [item Hitem].
      destruct (result_item_cases readResult index) as [[Hl [m Hr]] | [_ Hr]].
      { destruct Hl as (r & -> & Hl). unfold nth_item in Hitem. simpl in Hitem.
        by rewrite Hl in Hitem. }
      rewrite Hr, Hitem.
      destruct (IH (S index)) as (out & -> & Hlen & Hout).
      { intros k Hk. apply Hall. lia. }
      exists (filled e item :: out). split; [done |]. split; [simpl; lia |].
      intros [| i] e' He'; simpl in He'.
      * injection He' as <-. rewrite reads_before_0, Nat.add_0_r. split; [| done].
        intros _. by exists item.
      * rewrite reads_before_S. unfold is_read_envelope. rewrite decide_True by done.
        replace (index + (1 + reads_before rest i))%nat
          with (S index + reads_before rest i)%nat by lia.
        by apply Hout.
    + destruct (IH index) as (out & -> & Hlen & Hout).
      { intros k Hk. apply Hall. lia. }
      exists (e :: out). split; [done |]. split; [simpl; lia |].
      intros [| i] e' He'; simpl in He'.
      * injection He' as <-. split; [done | done].
      * rewrite reads_before_S. unfold is_read_envelope. rewrite decide_False by done.
        by apply Hout.
Qed.

(** When some read has no item in the result, the walk throws. *)
Lemma walk_incomplete readResult rest :
  ∀ index,
    (∃ k, (index ≤ k < index + length (filter is_read_envelope rest))%nat
          ∧ nth_item readResult k = None) →
    ∃ out x,
      walk rest index readResult = (out, Some x)
      ∧ (¬ lacks_responses readResult → x = incomplete_read).
Proof.
  induction rest as [| e rest IH]; intros index (k & Hk & Hnone).
  - simpl in Hk. lia.
  - rewrite reads_cons in Hk. simpl. unfold is_read_envelope in *.
    case_eqb; case_decide; try done.
    + destruct (result_item_cases readResult index) as [[Hl [m ->]] | [Hl ->]].
      { by eexists _, _. }
      destruct (nth_item readResult index) as [item |] eqn:Hitem.
      * destruct (IH (S index)) as (out & x & -> & Hx).
        { exists k. split; [| done].
          destruct (decide (k = index)) as [-> | ]; [congruence | lia]. }
        by eexists _, _.
      * by eexists _, _.
    + destruct (IH index) as (out & x & -> & Hx).
      { exists k. split; [lia | done]. }
      by eexists _, _.
Qed.

(** The merge of the read results. Walking the envelopes in order, the read
    envelope of rank [k] receives the [k]-th item of the read result, its
    resource and lastModified taken from that item, and every other envelope
    is left as it was, provided the result has an item for each read
    envelope. When some read envelope has no item in the result the function
    throws instead of returning: the incomplete-read error, unless the result
    is an object that has no [Responses] list at all. *)
Theorem populateBundleEntryResponseWithReadResult_merges
    (l : list BatchReadWriteResponse) (readResult : option TransactGetItemsOutput) :
  let N := length (filter is_read_envelope l) in
  let result := populateBundleEntryResponseWithReadResult l readResult in
  ((∀ k, (k < N)%nat → is_Some (nth_item readResult k)) →
     result.2 = None
     ∧ length result.1 = length l
     ∧ ∀ i e, l !! i = Some e →
         (is_read_envelope e →
            ∃ item, nth_item readResult (reads_before l i) = Some item
                    ∧ result.1 !! i = Some (filled e item))
         ∧ (¬ is_read_envelope e → result.1 !! i = Some e))
  ∧ ((∃ k, (k < N)%nat ∧ nth_item readResult k = None) →
       ∃ x, result.2 = Some x
            ∧ (¬ lacks_responses readResult → x = incomplete_read)).
Proof.
  intros N result. subst result. rewrite populate_walk. split.
  - intros Hall.
    destruct (walk_complete readResult l 0) as (out & -> & Hlen & Hout).
    { intros k Hk. apply Hall. unfold N. lia. }
    repeat split; try done; by apply Hout.
  - intros (k & Hk & Hnone).
    destruct (walk_incomplete readResult l 0) as (out & x & -> & Hx).
    { exists k. split; [unfold N in Hk; lia | done]. }
    by exists x.
Qed.

End HelperProperties.

Module ServiceProperties.

Import DynamoDbBundleServiceHelper DynamoDbBundleService HelperProperties.

(** ** Chunks *)

Lemma chunk_fuel_enough {A} (n : nat) (l : list A) :
  ∀ fuel fuel', (length l ≤ fuel)%nat → (length l ≤ fuel')%nat → (0 < n)%nat →
    chunk_fuel fuel l n = chunk_fuel fuel' l n.
Proof.
  intros fuel. revert l.
  induction fuel as [| fuel IH]; intros l fuel' H1 H2 Hn.
  - destruct l; simpl in *; [| lia]. by destruct fuel'.
  - destruct l as [| x l]; [by destruct fuel' |].
    destruct fuel' as [| fuel']; simpl in *; [lia |].
    f_equal. destruct n as [| n]; [lia |]. simpl.
    apply IH; try lia; rewrite length_drop; lia.
Qed.

Lemma chunkArray_cons {A} (n : nat) (x : A) (l : list A) :
  (0 < n)%nat →
  chunkArray (x :: l) n = take n (x :: l) :: chunkArray (drop n (x :: l)) n.
Proof.
  intros Hn. unfold chunkArray. simpl. f_equal.
  destruct n as [| n]; [lia |]. simpl.
  apply chunk_fuel_enough; try lia; rewrite length_drop; lia.
Qed.

(** Induction along the chunks of a list. *)
Lemma chunk_ind {A} (n : nat) (Hn : (0 < n)%nat) (P : list A → Prop) :
  P [] →
  (∀ x l, P (drop n (x :: l)) → P (x :: l)) →
  ∀ l, P l.
Proof.
  intros Hnil Hstep l.
  remember (length l) as k eqn:Hk. revert l Hk.
  induction k as [k IH] using lt_wf_ind. intros [| x l] Hk; [done |].
  apply Hstep. eapply IH; [| reflexivity].
  subst k. destruct n as [| n]; [lia |]. simpl. rewrite length_drop. lia.
Qed.

Lemma chunkArray_concat {A} (n : nat) (l : list A) :
  (0 < n)%nat → concat (chunkArray l n) = l.
Proof.
  intros Hn. induction l as [| x l IH] using (chunk_ind n Hn); try done.
  rewrite chunkArray_cons by done. simpl concat. rewrite IH.
  apply take_drop.
Qed.

Lemma chunkArray_bound {A} (n : nat) (l : list A) :
  (0 < n)%nat → Forall (λ c, (0 < length c ≤ n)%nat) (chunkArray l n).
Proof.
  intros Hn. induction l as [| x l IH] using (chunk_ind n Hn).
  { constructor. }
  rewrite chunkArray_cons by done. constructor; [| done].
  rewrite length_take. destruct n; simpl; lia.
Qed.

Lemma chunkArray_map {A B} (f : A → B) (n : nat) (l : list A) :
  (0 < n)%nat → chunkArray (map f l) n = map (map f) (chunkArray l n).
Proof.
  intros Hn. induction l as [| x l IH] using (chunk_ind n Hn); try done.
  rewrite (chunkArray_cons n x l) by done.
  change (map f (x :: l)) with (f x :: map f l).
  rewrite chunkArray_cons by done.
  change (f x :: map f l) with (map f (x :: l)).
  change (map (map f) (?c :: ?cs)) with (map f c :: map (map f) cs).
  rewrite <- IH.
  change (map f) with (fmap (M := list) f).
  by rewrite fmap_take, fmap_drop.
Qed.

Lemma elem_of_concat {A} (x : A) (l : list A) (ls : list (list A)) :
  l ∈ ls → x ∈ l → x ∈ concat ls.
Proof.
  intros Hl Hx. induction ls as [| l' ls IH]; [by apply elem_of_nil in Hl |].
  simpl. apply elem_of_app. apply elem_of_cons in Hl as [<- | Hl]; [by left |].
  right. by apply IH.
Qed.

(** The chunks from the [i]-th on hold the locks from position [n * i] on. *)
Lemma chunkArray_drop {A} (n : nat) (l : list A) (i : nat) :
  (0 < n)%nat → concat (drop i (chunkArray l n)) = drop (n * i) l.
Proof.
  intros Hn. revert i. induction l as [| x l IH] using (chunk_ind n Hn); intros i.
  { unfold chunkArray. simpl. by rewrite !drop_nil. }
  destruct i as [| i].
  - rewrite Nat.mul_0_r, !drop_0. by apply chunkArray_concat.
  - rewrite chunkArray_cons by done. simpl drop at 1. rewrite IH.
    rewrite drop_drop. f_equal. lia.
Qed.

(** ** Submissions to the store *)

(** The submissions made between two worlds. *)
Definition submitted (w w' : World) : list StoreEvent :=
  drop (length (events w)) (events w').

Lemma submitted_app w w' news : events w' = events w ++ news → submitted w w' = news.
Proof. intros H. unfold submitted. rewrite H. by rewrite drop_app_length. Qed.

(** The write batches that went through, among some submissions. *)
Definition applied (evs : list StoreEvent) : list (list WriteRequest) :=
  omap (λ ev, match ev_call ev with
              | TransactWrite items => if ev_ok ev then Some items else None
              | TransactGet _ => None
              end) evs.

(** The write batches submitted, among some submissions. *)
Definition written (evs : list StoreEvent) : list (list WriteRequest) :=
  omap (λ ev, match ev_call ev with
              | TransactWrite items => Some items
              | TransactGet _ => None
              end) evs.

Lemma apply_writes_app d rs1 rs2 :
  apply_writes d (rs1 ++ rs2) = apply_writes d rs1 ≫= λ d', apply_writes d' rs2.
Proof.
  revert d. induction rs1 as [| r rs1 IH]; intros d; simpl; [done |].
  destruct (apply_write d r); simpl; [apply IH | done].
Qed.

Lemma transactWriteItems_spec env w items :
  let r := transactWriteItems env w items in
  ticks r.2 = ticks w ∧ minted r.2 = minted w
  ∧ events r.2
    = events w ++ [{| ev_call := TransactWrite items; ev_ok := r.1; ev_after := db r.2 |}]
  ∧ (if r.1 then apply_writes (db w) items = Some (db r.2) else db r.2 = db w).
Proof.
  unfold transactWriteItems.
  destruct (storeFault env (length (events w))); simpl; [done |].
  destruct (Nat.ltb MAX_BATCH_ITEMS (length items)); simpl; [done |].
  destruct (apply_writes (db w) items) eqn:Ha; simpl; done.
Qed.

(** ** Releasing the locks *)

(** What the loop of [unlockItems] does: it submits the batches in order up
    to the first that fails, [j] of them going through. *)
Lemma unlock_from_spec env params :
  ∀ w i chunks,
    let r := unlock_from env w i params chunks in
    ∃ j news,
      (j ≤ length params)%nat
      ∧ events r.2 = events w ++ news
      ∧ map ev_call news = map TransactWrite (take (S j) params)
      ∧ map ev_ok news
        = replicate j true ++ (if decide (j < length params)%nat then [false] else [])
      ∧ r.1 = (if decide (j < length params)%nat
               then {| successfulUnlock := false;
                       locksFailedToRelease := concat (drop (i + j) chunks) |}
               else {| successfulUnlock := true; locksFailedToRelease := [] |})
      ∧ apply_writes (db w) (concat (take j params)) = Some (db r.2)
      ∧ applied news = take j params.
Proof.
  induction params as [| p params IH]; intros w i chunks; simpl.
  - exists 0%nat, []. rewrite app_nil_r. repeat split; done.
  - pose proof (transactWriteItems_spec env w p) as (Ht & Hm & Hev & Hdb).
    destruct (transactWriteItems env w p) as [ok w1]. simpl in *.
    destruct ok.
    + destruct (IH w1 (S i) chunks)
        as (j & news & Hj & Hev' & Hcalls & Hoks & Hr & Hw & Happ).
      exists (S j), ({| ev_call := TransactWrite p; ev_ok := true; ev_after := db w1 |} :: news).
      split; [lia |]. split; [by rewrite Hev', Hev, <- app_assoc |].
      split; [simpl; by rewrite Hcalls |].
      split.
      { simpl. rewrite Hoks. repeat case_decide; try lia; done. }
      split.
      { rewrite Hr. replace (S i + j)%nat with (i + S j)%nat by lia.
        repeat case_decide; try lia; done. }
      split; [simpl; rewrite apply_writes_app, Hdb; simpl; exact Hw |].
      simpl take. rewrite <- Happ. reflexivity.
    + exists 0%nat, [{| ev_call := TransactWrite p; ev_ok := false; ev_after := db w1 |}].
      split; [lia |]. split; [done |]. split; [done |].
      split; [case_decide; [done | lia] |].
      split; [case_decide; [by rewrite Nat.add_0_r | lia] |].
      simpl. by rewrite Hdb.
Qed.

(** [unlockItems] in terms of its loop; the early return on an empty lock
    set agrees with the loop. *)
Lemma unlockItems_loop env w lockedItems rollBack :
  unlockItems env w lockedItems rollBack
  = unlock_from env w 0
      (map (map (unlock_request rollBack)) (chunkArray lockedItems MAX_TRANSACTION_SIZE))
      (chunkArray lockedItems MAX_TRANSACTION_SIZE).
Proof.
  unfold unlockItems. destruct lockedItems as [| l ls]; [done |].
  by rewrite chunkArray_map by (unfold MAX_TRANSACTION_SIZE; lia).
Qed.

(** The shape of a run of [unlockItems]. *)
Lemma unlockItems_spec env w lockedItems rollBack :
  let chunks := chunkArray lockedItems MAX_TRANSACTION_SIZE in
  let batches := map (map (unlock_request rollBack)) chunks in
  let r := unlockItems env w lockedItems rollBack in
  ∃ j news,
    (j ≤ length chunks)%nat
    ∧ events r.2 = events w ++ news
    ∧ map ev_call news = map TransactWrite (take (S j) batches)
    ∧ map ev_ok news
      = replicate j true ++ (if decide (j < length chunks)%nat then [false] else [])
    ∧ r.1 = (if decide (j < length chunks)%nat
             then {| successfulUnlock := false;
                     locksFailedToRelease := concat (drop j chunks) |}
             else {| successfulUnlock := true; locksFailedToRelease := [] |})
    ∧ apply_writes (db w) (concat (take j batches)) = Some (db r.2)
    ∧ applied news = take j batches.
Proof.
  intros chunks batches r. subst r. rewrite unlockItems_loop.
  fold chunks. fold batches.
  destruct (unlock_from_spec env batches w 0%nat chunks)
    as (j & news & Hj & Hev & Hcalls & Hoks & Hr & Hdb & Happ).
  assert (length batches = length chunks) as Hlen by (unfold batches; by rewrite length_map).
  rewrite Hlen in *. by exists j, news.
Qed.

(** C7. The lock set is cut, in order, into chunks of at most 25 locks; the
    batches of the chunks are submitted one after the other, each only after
    the one before went through; when the batch of chunk [i] fails nothing
    more is submitted and every lock of chunk [i] and of the chunks after
    it, that is every lock from position [25 * i] on, is reported in
    [locksFailedToRelease] with [successfulUnlock] false; when every batch
    goes through, all chunks were submitted and [locksFailedToRelease] is
    empty. *)
Theorem unlockItems_reports_unreleased_chunks env w lockedItems rollBack :
  let chunks := chunkArray lockedItems MAX_TRANSACTION_SIZE in
  let batches := map (map (unlock_request rollBack)) chunks in
  let r := unlockItems env w lockedItems rollBack in
  let news := submitted w r.2 in
  concat chunks = lockedItems
  ∧ Forall (λ c, (0 < length c ≤ 25)%nat) chunks
  ∧ map ev_call news = map TransactWrite (take (length news) batches)
  ∧ (∀ i ev, news !! i = Some ev → ev_ok ev = false →
       length news = S i
       ∧ (∀ k ev', (k < i)%nat → news !! k = Some ev' → ev_ok ev' = true)
       ∧ r.1 = {| successfulUnlock := false;
                  locksFailedToRelease := concat (drop i chunks) |}
       ∧ concat (drop i chunks) = drop (25 * i) lockedItems)
  ∧ (Forall (λ ev, ev_ok ev = true) news →
       length news = length chunks
       ∧ r.1 = {| successfulUnlock := true; locksFailedToRelease := [] |}).
Proof.
  intros chunks batches r news.
  destruct (unlockItems_spec env w lockedItems rollBack)
    as (j & news' & Hj & Hev & Hcalls & Hoks & Hr & _ & _).
  fold chunks batches r in Hj, Hev, Hcalls, Hoks, Hr.
  assert (news = news') as <- by (by apply submitted_app).
  assert (length batches = length chunks) as Hlen by (unfold batches; by rewrite length_map).
  assert (length news = length (map ev_ok news)) as Hn by (by rewrite length_map).
  rewrite Hoks, length_app, length_replicate in Hn.
  split; [apply chunkArray_concat; unfold MAX_TRANSACTION_SIZE; lia |].
  split; [apply chunkArray_bound; unfold MAX_TRANSACTION_SIZE; lia |].
  split.
  { rewrite Hcalls. f_equal. case_decide; simpl in Hn.
    - f_equal. lia.
    - rewrite !take_ge by lia. done. }
  split.
  - intros i ev Hi Hfalse.
    assert (map ev_ok news !! i = Some false) as Hlook.
    { rewrite list_lookup_fmap, Hi. simpl. by rewrite Hfalse. }
    rewrite Hoks in Hlook.
    assert (i = j ∧ (j < length chunks)%nat) as [-> Hlt].
    { apply lookup_app_Some in Hlook as [Hl | [Hge Hl]].
      - apply lookup_replicate in Hl as [? _]. done.
      - rewrite length_replicate in Hge, Hl. case_decide.
        + apply list_lookup_singleton_Some in Hl as [? _]. split; [lia | done].
        + by rewrite lookup_nil in Hl. }
    rewrite decide_True in Hn by done. rewrite decide_True in Hr by done.
    simpl in Hn.
    split; [lia |]. split.
    { intros k ev' Hk Hk'.
      assert (map ev_ok news !! k = Some (ev_ok ev')) as Hlook'.
      { by rewrite list_lookup_fmap, Hk'. }
      rewrite Hoks, lookup_app_l in Hlook' by (rewrite length_replicate; lia).
      apply lookup_replicate in Hlook' as [? _]. done. }
    split; [done |].
    apply chunkArray_drop. unfold MAX_TRANSACTION_SIZE. lia.
  - intros Hall. case_decide.
    + exfalso. simpl in Hn.
      assert (map ev_ok news !! j = Some false) as Hlook.
      { rewrite Hoks, lookup_app_r by (rewrite length_replicate; lia).
        by rewrite length_replicate, Nat.sub_diag. }
      rewrite list_lookup_fmap in Hlook.
      destruct (news !! j) as [ev |] eqn:Hj'; [| done].
      rewrite Forall_lookup in Hall. specialize (Hall j ev Hj').
      simpl in Hlook. congruence.
    + simpl in Hn. split; [lia | done].
Qed.

(** ** The status a released lock ends in *)

(** The lock stands for a row that the transaction deletes or supersedes. *)
Definition superseded (l : ItemRequest) : Prop :=
  it_operation l = "delete"
  ∨ (it_operation l = "update" ∧ isOriginalUpdateItem l = Some true).

Global Instance superseded_dec l : Decision (superseded l).
Proof. unfold superseded. apply _. Defined.

Definition released_status (rollBack : bool) (l : ItemRequest) : DOCUMENT_STATUS :=
  if rollBack then AVAILABLE
  else if decide (superseded l) then DELETED else AVAILABLE.

(** The row a lock stands for. *)
Definition lock_key (l : ItemRequest) : string * string :=
  (it_id l, or_else (it_vid l) "0").

Definition release (rollBack : bool) (l : ItemRequest) : WriteRequest :=
  Update None (released_status rollBack l) (lock_key l).1 (Some (lock_key l).2).

Lemma newStatus_released rollBack l : newStatus rollBack l = released_status rollBack l.
Proof.
  unfold newStatus, released_status.
  destruct rollBack; simpl; [by rewrite andb_false_r |].
  rewrite andb_true_r.
  destruct (decide (superseded l)) as [H | H]; unfold superseded in H;
    destruct (isOriginalUpdateItem l) as [[|] |]; simpl;
    repeat case_eqb; simpl; try done; exfalso; intuition congruence.
Qed.

Lemma unlock_request_release rollBack l : unlock_request rollBack l = release rollBack l.
Proof.
  unfold unlock_request, release, buildUpdateDocumentStatusParam.
  by rewrite newStatus_released.
Qed.

(** A release always applies, and sets the status of its row and of no
    other. *)
Lemma apply_release d rollBack l :
  ∃ d', apply_write d (release rollBack l) = Some d'
        ∧ (∃ it, d' !! lock_key l = Some it
                 ∧ documentStatus it = released_status rollBack l)
        ∧ ∀ k, k ≠ lock_key l → d' !! k = d !! k.
Proof.
  unfold release. destruct (lock_key l) as [id vid]. simpl.
  destruct (d !! (id, vid)) as [it |]; eexists; (split; [done |]); split;
    try (eexists; split; [apply lookup_insert_eq | done]);
    intros k Hk; by rewrite lookup_insert_ne.
Qed.

Lemma apply_releases_other rollBack ls :
  ∀ d d' k, apply_writes d (map (release rollBack) ls) = Some d' →
            k ∉ map lock_key ls → d' !! k = d !! k.
Proof.
  induction ls as [| l ls IH]; intros d d' k Ha Hk.
  - by injection Ha as <-.
  - rewrite map_cons in Ha, Hk. cbn [apply_writes] in Ha.
    destruct (apply_release d rollBack l) as (d1 & H1 & _ & Hother).
    rewrite H1 in Ha. apply not_elem_of_cons in Hk as [Hne Hk].
    rewrite (IH d1 d' k Ha Hk). by apply Hother.
Qed.

(** After a run of releases, a lock that no later lock shares its row with
    has its row in the status its release asked for. *)
Lemma apply_releases_status rollBack ls d d' before l after :
  apply_writes d (map (release rollBack) ls) = Some d' →
  ls = before ++ l :: after →
  lock_key l ∉ map lock_key after →
  ∃ it, d' !! lock_key l = Some it ∧ documentStatus it = released_status rollBack l.
Proof.
  intros Ha -> Hlast.
  change (map (release rollBack) (before ++ l :: after))
    with (release rollBack <$> (before ++ l :: after)) in Ha.
  rewrite fmap_app, apply_writes_app in Ha.
  destruct (apply_writes d (release rollBack <$> before)) as [d1 |]; [| done].
  rewrite fmap_cons in Ha. cbn [mbind option_bind apply_writes] in Ha.
  destruct (apply_release d1 rollBack l) as (d2 & H2 & Hit & _).
  rewrite H2 in Ha.
  by rewrite (apply_releases_other rollBack after d2 d' _ Ha Hlast).
Qed.

(** A release is never refused by the table. *)
Lemma releases_apply rollBack (ls : list ItemRequest) :
  ∀ d, is_Some (apply_writes d (map (release rollBack) ls)).
Proof.
  induction ls as [| l ls IH]; intros d; [by eexists |].
  cbn [map apply_writes].
  destruct (apply_release d rollBack l) as (d' & -> & _). apply IH.
Qed.

(** The loop of [unlockItems] stops only on a fault of the store: as long as
    the store has none, the batches of releases go through, one submission
    after the other. *)
Lemma unlock_from_first_fault env rollBack (cs : list (list ItemRequest)) :
  Forall (λ c, (length c ≤ 25)%nat) cs →
  ∀ w i chunks j,
    (∀ k, (k < j)%nat → storeFault env (length (events w) + k) = false) →
    let r := unlock_from env w i (map (map (release rollBack)) cs) chunks in
    (Nat.min j (length cs) ≤ length (applied (submitted w r.2)))%nat.
Proof.
  induction 1 as [| c cs Hc _ IH]; intros w i chunks j Hcalm; [simpl; lia |].
  destruct j as [| j]; [simpl; lia |].
  cbn [map unlock_from].
  destruct (transactWriteItems_spec env w (map (release rollBack) c))
    as (_ & _ & Hev & _).
  assert ((transactWriteItems env w (map (release rollBack) c)).1 = true) as Hok.
  { pose proof (Hcalm 0%nat ltac:(lia)) as Hnow. rewrite Nat.add_0_r in Hnow.
    unfold transactWriteItems. rewrite Hnow, length_map.
    destruct (Nat.ltb_spec MAX_BATCH_ITEMS (length c)) as [Hgt | _];
      [unfold MAX_BATCH_ITEMS in Hgt; lia |].
    by destruct (releases_apply rollBack c (db w)) as [d' ->]. }
  destruct (transactWriteItems env w (map (release rollBack) c)) as [ok w1].
  simpl in Hev, Hok. subst ok.
  specialize (IH w1 (S i) chunks j).
  destruct (unlock_from_spec env (map (map (release rollBack)) cs) w1 (S i) chunks)
    as (j' & news & _ & Hev' & _).
  simpl in IH.
  rewrite (submitted_app _ _ _ Hev') in IH.
  rewrite Hev, <- app_assoc in Hev'. rewrite (submitted_app _ _ _ Hev').
  simpl. apply le_n_S, IH.
  intros k Hk. rewrite Hev, length_app. simpl.
  replace (length (events w) + 1 + k)%nat with (length (events w) + S k)%nat by lia.
  apply Hcalm. lia.
Qed.

(** The locks of the first [j] chunks are the first [25 * j] locks. *)
Lemma chunkArray_take {A} (l : list A) (j : nat) :
  length (concat (take j (chunkArray l 25))) = Nat.min (25 * j) (length l).
Proof.
  pose proof (chunkArray_concat 25 l ltac:(lia)) as Hcat.
  pose proof (chunkArray_drop 25 l j ltac:(lia)) as Hdrop.
  rewrite <- (take_drop j (chunkArray l 25)), concat_app, Hdrop in Hcat.
  apply (f_equal length) in Hcat. rewrite length_app, length_drop in Hcat. lia.
Qed.

(** C1. Each status update that [unlockItems] gets through the store is the
    release of one lock, in the order of the lock set: with [rollBack] false
    it asks for DELETED when the operation of the lock is delete, or is
    update with [isOriginalUpdateItem] set, and for AVAILABLE for every other
    lock; with [rollBack] true it asks for AVAILABLE for every lock. The
    locks so released are the first [n] of the lock set, and the row of each
    (of the last one, when several locks share a row) is left in the status
    asked for. Only a fault of the store stops the releases: as long as the
    first [j] submissions of the call meet no fault, the first [25 * j] locks
    are released, so that without a fault every lock of the set is; and all
    the locks are released exactly when the unlock phase reports success. *)
Theorem unlockItems_releases env w lockedItems rollBack :
  let r := unlockItems env w lockedItems rollBack in
  ∃ n,
    (n ≤ length lockedItems)%nat
    ∧ concat (applied (submitted w r.2))
      = map (λ l, Update None
                    (if rollBack then AVAILABLE
                     else if decide (superseded l) then DELETED else AVAILABLE)
                    (it_id l) (Some (or_else (it_vid l) "0")))
            (take n lockedItems)
    ∧ (successfulUnlock r.1 = true → n = length lockedItems)
    ∧ (∀ before l after,
         take n lockedItems = before ++ l :: after →
         lock_key l ∉ map lock_key after →
         ∃ it, db r.2 !! lock_key l = Some it
               ∧ documentStatus it = released_status rollBack l)
    ∧ (∀ j, (∀ k, (k < j)%nat → storeFault env (length (events w) + k) = false) →
            (Nat.min (25 * j) (length lockedItems) ≤ n)%nat)
    ∧ (n = length lockedItems → successfulUnlock r.1 = true).
Proof.
  intros r.
  destruct (unlockItems_spec env w lockedItems rollBack)
    as (j & news & Hj & Hev & _ & _ & Hr & Hdb & Happ).
  fold r in Hev, Hr, Hdb.
  set (chunks := chunkArray lockedItems MAX_TRANSACTION_SIZE) in *.
  pose proof (unlock_from_first_fault env rollBack chunks) as Hfault.
  rewrite (submitted_app _ _ _ Hev), Happ.
  assert (concat chunks = lockedItems) as Hcat
    by (apply chunkArray_concat; unfold MAX_TRANSACTION_SIZE; lia).
  assert (Forall (λ c, (0 < length c ≤ 25)%nat) chunks) as Hbound
    by (apply chunkArray_bound; unfold MAX_TRANSACTION_SIZE; lia).
  set (prefix := concat (take j chunks)).
  assert (length prefix = Nat.min (25 * j) (length lockedItems)) as Hcount
    by apply chunkArray_take.
  assert (take (length prefix) lockedItems = prefix) as Hprefix.
  { rewrite <- Hcat, <- (take_drop j chunks), concat_app at 1.
    fold prefix. by rewrite take_app_length. }
  assert (concat (take j (map (map (unlock_request rollBack)) chunks))
          = map (release rollBack) prefix) as Hbatches.
  { change (map (map (unlock_request rollBack)) chunks)
      with (map (unlock_request rollBack) <$> chunks).
    rewrite <- fmap_take. unfold prefix.
    change (map (unlock_request rollBack) <$> take j chunks)
      with (map (map (unlock_request rollBack)) (take j chunks)).
    rewrite <- concat_map. apply map_ext. intros l. apply unlock_request_release. }
  exists (length prefix). rewrite Hprefix.
  split.
  { rewrite <- Hprefix. rewrite length_take. lia. }
  split; [by rewrite Hbatches |].
  split.
  { intros Hok. rewrite Hr in Hok. case_decide; [done |].
    unfold prefix. rewrite take_ge by lia. by rewrite Hcat. }
  split.
  { intros before l after Hl Hlast.
    rewrite Hbatches in Hdb.
    by eapply apply_releases_status. }
  split.
  - intros j0 Hcalm.
    assert (Nat.min j0 (length chunks) ≤ j)%nat as Hle.
    { specialize (Hfault ltac:(eapply Forall_impl; [exact Hbound | simpl; lia])
                    w 0%nat chunks j0 Hcalm).
      simpl in Hfault.
      rewrite (map_ext (map (release rollBack)) (map (unlock_request rollBack)))
        in Hfault
        by (intros c; apply map_ext; intros l; symmetry; apply unlock_request_release).
      unfold chunks in Hfault at 1 2.
      rewrite <- unlockItems_loop in Hfault. fold r in Hfault.
      rewrite (submitted_app _ _ _ Hev), Happ in Hfault.
      rewrite length_take, length_map in Hfault. fold chunks in Hfault. lia. }
    rewrite Hcount.
    destruct (decide (j0 ≤ j)%nat) as [Hj0 | Hj0]; [lia |].
    assert (j = length chunks) as -> by lia.
    unfold prefix in Hcount. rewrite take_ge, Hcat in Hcount by lia. lia.
  - intros Hall. rewrite Hr. case_decide as Hlt; [| done]. exfalso.
    assert (length prefix < length (concat chunks))%nat as Hless; [| rewrite Hcat in Hless; lia].
    rewrite <- (take_drop j chunks), concat_app, length_app. fold prefix.
    destruct (drop j chunks) as [| c rest] eqn:Hdrop.
    { apply (f_equal length) in Hdrop. rewrite length_drop in Hdrop. simpl in Hdrop. lia. }
    assert (c ∈ chunks) as Hc.
    { rewrite <- (take_drop j chunks), Hdrop. apply elem_of_app. right. by left. }
    rewrite Forall_forall in Hbound. specialize (Hbound c Hc).
    simpl. rewrite length_app. lia.
Qed.

(** ** Staging *)

Lemma transactGetItems_spec env w items :
  let r := transactGetItems env w items in
  db r.2 = db w ∧ ticks r.2 = ticks w ∧ minted r.2 = minted w
  ∧ ∃ ok, events r.2
          = events w ++ [{| ev_call := TransactGet items; ev_ok := ok; ev_after := db w |}].
Proof.
  unfold transactGetItems.
  destruct (storeFault env (length (events w))); simpl; [by eauto |].
  destruct (mapM (get_item (db w)) items); simpl; by eauto.
Qed.

(** The batch of writes that [stageItems] assembles. *)
Definition editRequests (st : StagingRequests) : list WriteRequest :=
  deleteRequests st ++ createRequests st ++ updateRequests st.

(** The write batches [stageItems] submits: the assembled batch, once,
    unless it is empty. *)
Lemma stageItems_written env w requests lockedItems :
  let st := (generateStagingRequests env w requests (version_map lockedItems)).1 in
  let r := stageItems env w requests lockedItems in
  written (submitted w r.2)
  = if decide (editRequests st = []) then [] else [editRequests st].
Proof.
  intros st r. subst st r. unfold stageItems.
  pose proof (generateStagingRequests_world env w requests (version_map lockedItems))
    as [_ Hev].
  destruct (generateStagingRequests env w requests (version_map lockedItems))
    as [st w1]. simpl in Hev. simpl fst.
  fold (editRequests st).
  assert (events w1 = events w ++ []) as Hev0 by (by rewrite app_nil_r).
  destruct (editRequests st) as [| e es] eqn:Hedit; simpl.
  - destruct (Nat.ltb 0 (length (readRequests st))) eqn:Hr;
      [| simpl; by rewrite (submitted_app _ _ _ Hev0)].
    pose proof (transactGetItems_spec env w1 (readRequests st))
      as (_ & _ & _ & ok' & Hg).
    rewrite Hev in Hg.
    destruct (transactGetItems env w1 (readRequests st)) as [[rr |] w3]; simpl in *;
      [destruct (populateBundleEntryResponseWithReadResult _ _) as [? [?|]] |];
      simpl; by rewrite (submitted_app _ _ _ Hg).
  - pose proof (transactWriteItems_spec env w1 (e :: es)) as (_ & _ & Hw & _).
    destruct (transactWriteItems env w1 (e :: es)) as [ok w2]. simpl in Hw.
    rewrite Hev in Hw.
    destruct ok; simpl; [| by rewrite (submitted_app _ _ _ Hw)].
    destruct (Nat.ltb 0 (length (readRequests st))) eqn:Hr;
      [| simpl; by rewrite (submitted_app _ _ _ Hw)].
    pose proof (transactGetItems_spec env w2 (readRequests st))
      as (_ & _ & _ & ok' & Hg).
    rewrite Hw, <- app_assoc in Hg.
    destruct (transactGetItems env w2 (readRequests st)) as [[rr |] w3]; simpl in *;
      [destruct (populateBundleEntryResponseWithReadResult _ _) as [? [?|]] |];
      simpl; by rewrite (submitted_app _ _ _ Hg).
Qed.

(** C2. Whatever the order of the operations in the input, the one write
    batch that the stage phase submits lists the status updates of the
    deletes first, then the puts of the creates, then the puts of the
    updates; each group follows the order of the input: the status updates
    are those of the delete operations in input order, and the puts of each
    group correspond one to one, in order, to the create and to the update
    operations of the input. *)
Theorem stageItems_write_order env w requests lockedItems :
  let m := version_map lockedItems in
  let st := (generateStagingRequests env w requests m).1 in
  let r := stageItems env w requests lockedItems in
  let batch := deleteRequests st ++ createRequests st ++ updateRequests st in
  written (submitted w r.2) = (if decide (batch = []) then [] else [batch])
  ∧ deleteRequests st
    = map (λ request,
             Update (Some LOCKED) PENDING_DELETE (rq_id request) (m !! rq_id request))
          (filter is_delete requests)
  ∧ Forall2 staged_create (filter is_create requests) (createRequests st)
  ∧ Forall2 (staged_update m) (filter is_update requests) (updateRequests st).
Proof.
  intros m st r batch. split; [apply stageItems_written |].
  destruct (staging_writes env m requests (no_requests, w))
    as (Hd & (cs & Hc & Fc) & (us & Hu & Fu)).
  fold (generateStagingRequests env w requests m) in Hd, Hc, Hu.
  fold st in Hd, Hc, Hu. simpl in Hd, Hc, Hu.
  rewrite Hd, Hc, Hu. done.
Qed.

(** ** Taking the locks *)

(** The operations that need a lock, and the answer of the version lookup
    for each. *)
Definition nonCreate (requests : list BatchReadWriteRequest) : list BatchReadWriteRequest :=
  filter (λ request, rq_operation request ≠ "create") requests.

Definition lookup (env : Env) (d : Db) (request : BatchReadWriteRequest) : Lookup :=
  getMostRecentResource env d (rq_resourceType request) (rq_id request).

Definition not_found (env : Env) (d : Db) (request : BatchReadWriteRequest) : Prop :=
  lookup env d request = ResourceNotFoundError.

Global Instance not_found_dec env d request : Decision (not_found env d request).
Proof. unfold not_found. apply _. Defined.

(** Every lookup of the lock phase completes: it finds the resource or
    reports that there is none. *)
Definition lookups_complete (env : Env) (d : Db) (requests : list BatchReadWriteRequest)
    : Prop :=
  ∀ request e, request ∈ nonCreate requests → lookup env d request ≠ LookupFailure e.

Definition to_lock (request : BatchReadWriteRequest) : ItemRequest :=
  {| it_id := rq_id request; it_vid := None;
     it_resourceType := rq_resourceType request;
     it_operation := rq_operation request;
     isOriginalUpdateItem := None |}.

Definition label (request : BatchReadWriteRequest) : string :=
  rq_resourceType request +:+ "/" +:+ rq_id request.

(** The lock record and the lock request of a request whose resource was
    found. *)
Definition lock_of (resource : Projection) (request : BatchReadWriteRequest) : ItemRequest :=
  {| it_id := pj_id resource;
     it_vid := Some (pj_versionId resource);
     it_resourceType := pj_resourceType resource;
     it_operation := rq_operation request;
     isOriginalUpdateItem :=
       if String.eqb (rq_operation request) "update" then Some true else None |}.

Definition lock_request_of (resource : Projection) : WriteRequest :=
  Update (Some AVAILABLE) LOCKED (pj_id resource) (Some (pj_versionId resource)).

Definition found (env : Env) (d : Db) (request : BatchReadWriteRequest)
    : option Projection :=
  match lookup env d request with
  | Found resource => Some resource
  | _ => None
  end.

Lemma first_failure_none (f : BatchReadWriteRequest → Lookup) l :
  (∀ request e, request ∈ l → f request ≠ LookupFailure e) →
  first_failure (map f l) = None.
Proof.
  induction l as [| r l IH]; intros H; simpl; [done |].
  destruct (f r) eqn:Hr.
  - apply IH. intros r' e Hin. apply H. by right.
  - apply IH. intros r' e Hin. apply H. by right.
  - exfalso. eapply (H r); [by left | done].
Qed.

Lemma first_failure_some (f : BatchReadWriteRequest → Lookup) l request e :
  request ∈ l → f request = LookupFailure e →
  ∃ e', first_failure (map f l) = Some e'.
Proof.
  intros Hin Hf. induction l as [| r' l IH]; [by apply elem_of_nil in Hin |].
  simpl. apply elem_of_cons in Hin as [<- | Hin].
  - rewrite Hf. by eexists.
  - destruct (f r'); try (by apply IH). by eexists.
Qed.

Lemma idItemsFailedToRead_filter env d l :
  idItemsFailedToRead (map (lookup env d) l) (map to_lock l)
  = map label (filter (not_found env d) l).
Proof.
  induction l as [| r l IH]; simpl; [done |].
  rewrite filter_cons.
  destruct (decide (not_found env d r)) as [H | H]; unfold not_found in H;
    destruct (lookup env d r) eqn:Hr; try done; simpl; by rewrite IH.
Qed.

Lemma lock_requests_found env d l :
  lock_requests (map (lookup env d) l) l
  = (omap (λ request, (λ p, lock_of p request) <$> found env d request) l,
     omap (λ request, lock_request_of <$> found env d request) l).
Proof.
  induction l as [| r l IH]; [done |].
  cbn [map lock_requests omap list_omap]. rewrite IH.
  assert (found env d r = match lookup env d r with
                          | Found p => Some p
                          | _ => None
                          end) as -> by reflexivity.
  destruct (lookup env d r) eqn:Hr; reflexivity.
Qed.

(** The run of [lockItems] when at most 25 operations need a lock and every
    lookup completes. *)
Lemma lockItems_run env w requests :
  (length (nonCreate requests) ≤ 25)%nat →
  lookups_complete env (db w) requests →
  let missing := filter (not_found env (db w)) (nonCreate requests) in
  let locks := omap (λ request, (λ p, lock_of p request) <$> found env (db w) request)
                 (nonCreate requests) in
  let addLockRequests := omap (λ request, lock_request_of <$> found env (db w) request)
                           (nonCreate requests) in
  lockItems env w requests
  = match missing with
    | _ :: _ =>
        (Resolved {| successfulLock := false;
                     lock_errorType := Some USER_ERROR;
                     errorMessage :=
                       Some ("Failed to find resources: " +:+ join_comma (map label missing));
                     lockedItems := [] |}, w)
    | [] =>
        match addLockRequests with
        | [] => (Resolved {| successfulLock := true; lock_errorType := None;
                             errorMessage := None; lockedItems := [] |}, w)
        | _ =>
            let r := transactWriteItems env w addLockRequests in
            (Resolved (if r.1
                       then {| successfulLock := true; lock_errorType := None;
                               errorMessage := None; lockedItems := locks |}
                       else {| successfulLock := false;
                               lock_errorType := Some SYSTEM_ERROR;
                               errorMessage :=
                                 Some ("Failed to lock resources for transaction. Please try again after "
                                       +:+ LOCK_DURATION_SECONDS env +:+ " seconds.");
                               lockedItems := [] |}), r.2)
        end
    end.
Proof.
  intros Hlen Hcomplete missing locks addLockRequests.
  unfold lockItems.
  change (filter (λ request, rq_operation request ≠ "create") requests)
    with (nonCreate requests).
  change (map (λ request, {| it_id := rq_id request; it_vid := None;
                             it_resourceType := rq_resourceType request;
                             it_operation := rq_operation request;
                             isOriginalUpdateItem := None |}) (nonCreate requests))
    with (map to_lock (nonCreate requests)).
  assert (map (λ itemToLock,
                 getMostRecentResource env (db w) (it_resourceType itemToLock)
                   (it_id itemToLock)) (map to_lock (nonCreate requests))
          = map (lookup env (db w)) (nonCreate requests)) as ->
    by (by rewrite map_map).
  rewrite length_map.
  destruct (Nat.ltb_spec dynamoDbMaxBatchSize (length (nonCreate requests)))
    as [Hgt | _]; [unfold dynamoDbMaxBatchSize in Hgt; lia |].
  rewrite first_failure_none by exact Hcomplete.
  rewrite idItemsFailedToRead_filter. fold missing.
  destruct missing as [| m ms] eqn:Hm; simpl length.
  - simpl Nat.ltb. cbv iota.
    rewrite lock_requests_found. fold locks addLockRequests.
    destruct addLockRequests as [| a l]; [done |]. simpl length. simpl Nat.ltb.
    cbv iota.
    destruct (transactWriteItems env w (a :: l)) as [[|] w']; done.
  - done.
Qed.

Lemma lockItems_over_limit env w requests :
  (25 < length (nonCreate requests))%nat →
  lockItems env w requests
  = (Resolved {| successfulLock := false;
                 lock_errorType := Some SYSTEM_ERROR;
                 errorMessage := Some "Cannot lock more than 25 items";
                 lockedItems := [] |}, w).
Proof.
  intros Hgt. unfold lockItems.
  change (filter (λ request, rq_operation request ≠ "create") requests)
    with (nonCreate requests).
  rewrite length_map.
  destruct (Nat.ltb_spec dynamoDbMaxBatchSize (length (nonCreate requests)))
    as [_ | Hle]; [done | unfold dynamoDbMaxBatchSize in Hle; lia].
Qed.

Lemma addLockRequests_map env d l :
  omap (λ request, lock_request_of <$> found env d request) l
  = map lock_request_of (omap (found env d) l).
Proof.
  induction l as [| r l IH]; [done |]. cbn [omap list_omap].
  rewrite IH. by destruct (found env d r).
Qed.

(** The store refuses a lock batch one of whose rows is not AVAILABLE. *)
Lemma lock_batch_refused (ps : list Projection) :
  ∀ d p it,
    p ∈ ps →
    d !! (pj_id p, pj_versionId p) = Some it →
    documentStatus it ≠ AVAILABLE →
    apply_writes d (map lock_request_of ps) = None.
Proof.
  induction ps as [| q ps IH]; intros d p it Hin Hit Hst.
  - by apply elem_of_nil in Hin.
  - cbn [map apply_writes]. unfold lock_request_of at 1. cbn [apply_write].
    destruct (d !! (pj_id q, pj_versionId q)) as [it' |] eqn:Hq; [| done].
    case_decide as Hav; [| done].
    apply elem_of_cons in Hin as [-> | Hin]; [congruence |].
    destruct (decide ((pj_id p, pj_versionId p) = (pj_id q, pj_versionId q))) as [e | n].
    + eapply (IH _ p); [done | rewrite e; apply lookup_insert_eq | done].
    + eapply (IH _ p); [done | by rewrite lookup_insert_ne | done].
Qed.

(** A missing resource, within the limit of 25: the answer of the phase. *)
Lemma missing_resources_abort env w requests :
  (length (nonCreate requests) ≤ 25)%nat →
  lookups_complete env (db w) requests →
  (∃ request, request ∈ nonCreate requests ∧ not_found env (db w) request) →
  let missing := filter (not_found env (db w)) (nonCreate requests) in
  lockItems env w requests
  = (Resolved {| successfulLock := false;
                 lock_errorType := Some USER_ERROR;
                 errorMessage :=
                   Some ("Failed to find resources: " +:+ join_comma (map label missing));
                 lockedItems := [] |}, w)
  ∧ missing ≠ [].
Proof.
  intros Hlen Hcomplete (request & Hin & Hnf) missing.
  rewrite (lockItems_run env w requests Hlen Hcomplete). fold missing.
  assert (request ∈ missing) as Hm by (by apply list_elem_of_filter).
  destruct missing as [| m ms] eqn:Hmissing; [by apply elem_of_nil in Hm |].
  done.
Qed.

(** C5, as amended. When at most 25 operations need a lock and every version
    lookup completes, an id that is not found aborts the lock phase with a
    user-facing error, errorType USER_ERROR, whose message lists the
    resourceType/id of every operation whose resource is missing; the lock
    set returned is empty, the world is as it was and nothing was submitted
    to the store. *)
Theorem lockItems_aborts_on_missing_resources env w requests :
  (length (nonCreate requests) ≤ 25)%nat →
  lookups_complete env (db w) requests →
  (∃ request, request ∈ nonCreate requests ∧ not_found env (db w) request) →
  let missing := filter (not_found env (db w)) (nonCreate requests) in
  lockItems env w requests
  = (Resolved {| successfulLock := false;
                 lock_errorType := Some USER_ERROR;
                 errorMessage :=
                   Some ("Failed to find resources: " +:+ join_comma (map label missing));
                 lockedItems := [] |}, w)
  ∧ (∀ request, request ∈ nonCreate requests → not_found env (db w) request →
                label request ∈ map label missing)
  ∧ submitted w (lockItems env w requests).2 = [].
Proof.
  intros Hlen Hcomplete (request & Hin & Hnf) missing.
  rewrite (lockItems_run env w requests Hlen Hcomplete). fold missing.
  assert (request ∈ missing) as Hm by (by apply list_elem_of_filter).
  destruct missing as [| m ms] eqn:Hmissing; [by apply elem_of_nil in Hm |].
  split; [done |]. split.
  - intros r Hr Hr'. apply list_elem_of_fmap. exists r. split; [done |].
    rewrite <- Hmissing. by apply list_elem_of_filter.
  - unfold submitted. simpl. by rewrite drop_all.
Qed.

(** C6, as amended. Provided every version lookup completes: when the id of
    some operation that needs a lock is missing, the lock phase returns
    [successfulLock] false and submits nothing to the store; when every id
    is found, at most 25 operations need a lock, and the row of some
    looked-up version is not AVAILABLE, the lock phase does submit its
    status-update batch, that one batch only, the store refuses it as a
    whole, leaving the table as it was, and the phase returns
    [successfulLock] false with no lock held. *)
Theorem lockItems_fails_on_missing_or_unavailable env w requests :
  lookups_complete env (db w) requests →
  let r := lockItems env w requests in
  ((∃ request, request ∈ nonCreate requests ∧ not_found env (db w) request) →
     ∃ response,
       r = (Resolved response, w)
       ∧ successfulLock response = false
       ∧ submitted w r.2 = [])
  ∧ ((length (nonCreate requests) ≤ 25)%nat →
     (∀ request, request ∈ nonCreate requests → ¬ not_found env (db w) request) →
     (∃ request p it,
        request ∈ nonCreate requests
        ∧ lookup env (db w) request = Found p
        ∧ db w !! (pj_id p, pj_versionId p) = Some it
        ∧ documentStatus it ≠ AVAILABLE) →
     ∃ response,
       r.1 = Resolved response
       ∧ successfulLock response = false
       ∧ lockedItems response = []
       ∧ db r.2 = db w
       ∧ submitted w r.2
         = [{| ev_call :=
                 TransactWrite (map lock_request_of (omap (found env (db w))
                                                       (nonCreate requests)));
               ev_ok := false;
               ev_after := db w |}]).
Proof.
  intros Hcomplete r. subst r. split.
  - intros Hmissing.
    destruct (Nat.le_gt_cases (length (nonCreate requests)) 25) as [Hle | Hgt].
    + destruct (missing_resources_abort env w requests Hle Hcomplete Hmissing)
        as (-> & Hs).
      eexists. split; [done |]. split; [done |]. unfold submitted. simpl.
      by rewrite drop_all.
    + rewrite (lockItems_over_limit env w requests Hgt).
      eexists. split; [done |]. split; [done |]. unfold submitted. simpl.
      by rewrite drop_all.
  - intros Hlen Hfound (request & p & it & Hin & Hp & Hit & Hst).
    rewrite (lockItems_run env w requests Hlen Hcomplete).
    assert (filter (not_found env (db w)) (nonCreate requests) = []) as ->.
    { destruct (filter _ _) as [| x xs] eqn:Hf; [done |]. exfalso.
      assert (x ∈ filter (not_found env (db w)) (nonCreate requests)) as Hx
        by (rewrite Hf; by left).
      apply list_elem_of_filter in Hx as [Hx1 Hx2]. by eapply Hfound. }
    rewrite addLockRequests_map.
    assert (p ∈ omap (found env (db w)) (nonCreate requests)) as Hpin.
    { apply list_elem_of_omap. exists request. split; [done |].
      unfold found. by rewrite Hp. }
    pose proof (lock_batch_refused _ _ p it Hpin Hit Hst) as Hrefused.
    destruct (omap (found env (db w)) (nonCreate requests)) as [| q qs] eqn:Hqs;
      [by apply elem_of_nil in Hpin |].
    rewrite <- Hqs in *. clear Hqs.
    set (items := map lock_request_of (omap (found env (db w)) (nonCreate requests))) in *.
    assert (items ≠ []) as Hne by (subst items; by destruct (omap _ _)).
    destruct items as [| i0 items'] eqn:Hitems; [done |]. rewrite <- Hitems in *.
    pose proof (transactWriteItems_spec env w items) as (_ & _ & Hev & Hdb).
    assert ((transactWriteItems env w items).1 = false) as Hok.
    { unfold transactWriteItems. rewrite Hrefused.
      destruct (storeFault env (length (events w))); [done |].
      by destruct (Nat.ltb MAX_BATCH_ITEMS (length items)). }
    cbv zeta. rewrite Hok in *. simpl.
    eexists. split; [done |]. split; [done |]. split; [done |].
    split; [done |]. rewrite Hdb in Hev. by apply submitted_app.
Qed.

(** ** At most one AVAILABLE version of each id *)

(** The row is in the table and AVAILABLE. *)
Definition available (d : Db) (k : string * string) : Prop :=
  ∃ it, d !! k = Some it ∧ documentStatus it = AVAILABLE.

(** At most one version of each id is AVAILABLE. *)
Definition single_available (d : Db) : Prop :=
  ∀ id v1 v2, available d (id, v1) → available d (id, v2) → v1 = v2.

(** No version of the id is AVAILABLE. *)
Definition dark (d : Db) (id : string) : Prop :=
  ∀ v, ¬ available d (id, v).

(** No row is AVAILABLE in [d'] that was not in [d]. *)
Definition no_new_available (d' d : Db) : Prop :=
  ∀ k, available d' k → available d k.

Lemma no_new_available_refl d : no_new_available d d.
Proof. by intros k. Qed.

Lemma no_new_available_trans d1 d2 d3 :
  no_new_available d3 d2 → no_new_available d2 d1 → no_new_available d3 d1.
Proof. intros H32 H21 k Hk. by apply H21, H32. Qed.

Lemma single_available_mono d d' :
  no_new_available d' d → single_available d → single_available d'.
Proof. intros Hle Hs id v1 v2 H1 H2. apply (Hs id); by apply Hle. Qed.

Lemma dark_mono d d' id : no_new_available d' d → dark d id → dark d' id.
Proof. intros Hle Hd v Hv. by apply (Hd v), Hle. Qed.

(** A request that makes no row AVAILABLE. *)
Definition quiet (r : WriteRequest) : Prop :=
  match r with
  | Update _ new _ _ => new ≠ AVAILABLE
  | Put it => documentStatus it ≠ AVAILABLE
  | Delete _ _ => True
  end.

Lemma apply_write_quiet d r d' :
  quiet r → apply_write d r = Some d' → no_new_available d' d.
Proof.
  intros Hq Ha k (it & Hit & Hst).
  destruct r as [old new id [vid |] | item | id [vid |]]; simpl in *; try done.
  - destruct (decide (k = (id, vid))) as [-> | Hne].
    + exfalso.
      destruct (d !! (id, vid)) as [it' |], old as [o |]; try done;
        try case_decide; try done; injection Ha as <-;
        rewrite lookup_insert_eq in Hit; injection Hit as <-; simpl in Hst; done.
    + exists it. split; [| done].
      destruct (d !! (id, vid)) as [it' |], old as [o |]; try done;
        try case_decide; try done; injection Ha as <-;
        by rewrite lookup_insert_ne in Hit.
  - injection Ha as <-. destruct (decide (k = item_key item)) as [-> | Hne].
    + rewrite lookup_insert_eq in Hit. injection Hit as <-. done.
    + rewrite lookup_insert_ne in Hit by done. by exists it.
  - injection Ha as <-. destruct (decide (k = (id, vid))) as [-> | Hne].
    + by rewrite lookup_delete_eq in Hit.
    + rewrite lookup_delete_ne in Hit by done. by exists it.
Qed.

Lemma apply_writes_quiet rs :
  ∀ d d', Forall quiet rs → apply_writes d rs = Some d' → no_new_available d' d.
Proof.
  induction rs as [| r rs IH]; intros d d' Hq Ha; simpl in Ha.
  - injection Ha as <-. apply no_new_available_refl.
  - apply Forall_cons in Hq as [Hr Hq].
    destruct (apply_write d r) as [d1 |] eqn:H1; [| done].
    eapply no_new_available_trans; [by eapply IH | by eapply apply_write_quiet].
Qed.

(** The row a lookup answered with. *)
Definition row (p : Projection) : string * string := (pj_id p, pj_versionId p).

Lemma lock_request_quiet p : quiet (lock_request_of p).
Proof. done. Qed.

(** What a lock batch that went through tells: every row it names was
    AVAILABLE, no two of its requests name the same row, and afterwards no
    version of the ids it names is AVAILABLE. *)
Lemma lock_batch_effect (ps : list Projection) :
  ∀ d d',
    single_available d →
    apply_writes d (map lock_request_of ps) = Some d' →
    (∀ p, p ∈ ps → available d (row p) ∧ dark d' (pj_id p))
    ∧ NoDup (map row ps).
Proof.
  induction ps as [| q ps IH]; intros d d' Hs Ha.
  - split; [intros p Hp; by apply elem_of_nil in Hp | constructor].
  - cbn [map apply_writes] in Ha.
    destruct (apply_write d (lock_request_of q)) as [d1 |] eqn:H1; [| done].
    pose proof (apply_write_quiet _ _ _ (lock_request_quiet q) H1) as Hle1.
    assert (Forall quiet (map lock_request_of ps)) as Hq.
    { apply Forall_forall. intros x Hx. apply list_elem_of_fmap in Hx as (p & -> & _).
      apply lock_request_quiet. }
    pose proof (apply_writes_quiet _ _ _ Hq Ha) as Hle.
    destruct (IH d1 d' (single_available_mono _ _ Hle1 Hs) Ha) as [Hps Hnd].
    unfold lock_request_of in H1. cbn [apply_write] in H1.
    destruct (d !! (pj_id q, pj_versionId q)) as [it |] eqn:Hq'; [| done].
    case_decide as Hav; [| done]. injection H1 as <-.
    assert (available d (row q)) as Havq by (by exists it).
    assert (¬ available (<[(pj_id q, pj_versionId q) := set_status LOCKED it]> d) (row q))
      as Hlocked.
    { intros (it' & Hit' & Hst'). unfold row in Hit'.
      rewrite lookup_insert_eq in Hit'. by injection Hit' as <-. }
    split.
    + intros p Hp. apply elem_of_cons in Hp as [-> | Hp].
      * split; [done |]. eapply dark_mono; [exact Hle |].
        intros v Hv. pose proof (Hle1 _ Hv) as Hv'.
        assert (v = pj_versionId q) as -> by (by eapply Hs).
        by apply Hlocked.
      * destruct (Hps p Hp) as [Hp1 Hp2]. split; [by apply Hle1 | done].
    + cbn [map]. constructor; [| done].
      intros Hin. apply list_elem_of_fmap in Hin as (p & Hrow & Hp).
      destruct (Hps p Hp) as [Hp1 _]. rewrite <- Hrow in Hp1. by apply Hlocked.
Qed.

(** The submissions between two worlds all left the table in a state that
    satisfies [P]. *)
Definition traced (P : Db → Prop) (w w' : World) : Prop :=
  ∃ news, events w' = events w ++ news ∧ Forall (λ ev, P (ev_after ev)) news.

Lemma traced_refl P w w' : events w' = events w → traced P w w'.
Proof. intros H. exists []. by rewrite app_nil_r. Qed.

Lemma traced_trans P w1 w2 w3 : traced P w1 w2 → traced P w2 w3 → traced P w1 w3.
Proof.
  intros (n1 & H1 & F1) (n2 & H2 & F2). exists (n1 ++ n2).
  split; [by rewrite H2, H1, app_assoc | by apply Forall_app].
Qed.

Lemma traced_submitted P w w' :
  traced P w w' → Forall (λ ev, P (ev_after ev)) (submitted w w').
Proof. intros (news & H & F). by rewrite (submitted_app _ _ _ H). Qed.

(** A write batch keeps a property of the table that it has before the
    batch and after the batch is applied. *)
Lemma transactWriteItems_traced (P : Db → Prop) env w items :
  P (db w) →
  (∀ d', apply_writes (db w) items = Some d' → P d') →
  let r := transactWriteItems env w items in
  traced P w r.2 ∧ P (db r.2).
Proof.
  intros Hw Hstep r.
  pose proof (transactWriteItems_spec env w items) as (_ & _ & Hev & Hdb).
  fold r in Hev, Hdb.
  assert (P (db r.2)) as HP.
  { destruct r.1; [by apply Hstep | by rewrite Hdb]. }
  split; [| done]. eexists. split; [exact Hev |]. by repeat constructor.
Qed.

Lemma transactGetItems_traced (P : Db → Prop) env w items :
  P (db w) →
  let r := transactGetItems env w items in
  traced P w r.2 ∧ db r.2 = db w.
Proof.
  intros Hw r.
  pose proof (transactGetItems_spec env w items) as (Hdb & _ & _ & ok & Hev).
  fold r in Hev, Hdb. split; [| done].
  eexists. split; [exact Hev |]. by repeat constructor.
Qed.

(** *** Releases *)

(** The release of the lock asks for AVAILABLE. *)
Definition reopens (rollBack : bool) (l : ItemRequest) : Prop :=
  released_status rollBack l = AVAILABLE.

Global Instance reopens_dec rollBack l : Decision (reopens rollBack l).
Proof. unfold reopens. apply _. Defined.

(** The locks can be released without two versions of an id becoming
    AVAILABLE: a lock whose release asks for AVAILABLE names the only
    version of its id that may be AVAILABLE already, and two such locks on
    one id name the same row. *)
Definition releasable (d : Db) (rollBack : bool) (locks : list ItemRequest) : Prop :=
  (∀ l v, l ∈ locks → reopens rollBack l →
          available d (it_id l, v) → v = (lock_key l).2)
  ∧ (∀ l l', l ∈ locks → l' ∈ locks → reopens rollBack l → reopens rollBack l' →
             it_id l = it_id l' → lock_key l = lock_key l').

Lemma release_step d rollBack locks l d' :
  single_available d → releasable d rollBack locks → l ∈ locks →
  apply_write d (release rollBack l) = Some d' →
  single_available d' ∧ releasable d' rollBack locks.
Proof.
  intros Hs [Hr1 Hr2] Hl Ha.
  destruct (decide (reopens rollBack l)) as [Hre | Hre].
  - (* the row of the lock becomes AVAILABLE *)
    destruct (apply_release d rollBack l) as (d1 & H1 & (it & Hit & Hst) & Hother).
    rewrite H1 in Ha. injection Ha as <-.
    assert (∀ id v, available d1 (id, v) →
                    (id, v) = lock_key l ∨ available d (id, v)) as Hcases.
    { intros id v (it' & Hit' & Hst').
      destruct (decide ((id, v) = lock_key l)) as [? | Hne]; [by left |].
      right. exists it'. by rewrite <- (Hother _ Hne). }
    assert (∀ v, available d1 (it_id l, v) → v = (lock_key l).2) as Hl1.
    { intros v Hv. destruct (Hcases _ _ Hv) as [Hk | Hk].
      - by rewrite <- Hk.
      - by eapply Hr1. }
    split.
    + intros id v1 v2 Hv1 Hv2.
      destruct (decide (id = it_id l)) as [-> | Hne].
      * by rewrite (Hl1 _ Hv1), (Hl1 _ Hv2).
      * destruct (Hcases _ _ Hv1) as [Hk1 | Hk1];
          [unfold lock_key in Hk1; congruence |].
        destruct (Hcases _ _ Hv2) as [Hk2 | Hk2];
          [unfold lock_key in Hk2; congruence |].
        by eapply Hs.
    + split; [| done].
      intros l' v Hl' Hre' Hv.
      destruct (Hcases _ _ Hv) as [Hk | Hk]; [| by eapply Hr1].
      assert (it_id l' = it_id l) as Hid by (unfold lock_key in Hk; congruence).
      rewrite (Hr2 l' l Hl' Hl Hre' Hre Hid). by rewrite <- Hk.
  - (* the row of the lock does not become AVAILABLE *)
    assert (no_new_available d' d) as Hle.
    { eapply apply_write_quiet; [| exact Ha]. unfold release. simpl.
      exact Hre. }
    split; [by eapply single_available_mono |].
    split; [| done]. intros l' v Hl' Hre' Hv. eapply Hr1; [done | done |].
    by apply Hle.
Qed.

Lemma release_steps rollBack locks ls :
  ∀ d d',
    single_available d → releasable d rollBack locks →
    (∀ l, l ∈ ls → l ∈ locks) →
    apply_writes d (map (release rollBack) ls) = Some d' →
    single_available d' ∧ releasable d' rollBack locks.
Proof.
  induction ls as [| l ls IH]; intros d d' Hs Hr Hsub Ha.
  - injection Ha as <-. done.
  - cbn [map apply_writes] in Ha.
    destruct (apply_write d (release rollBack l)) as [d1 |] eqn:H1; [| done].
    destruct (release_step d rollBack locks l d1 Hs Hr) as [Hs1 Hr1];
      [apply Hsub; by left | done |].
    eapply (IH d1); try done. intros l' Hl'. apply Hsub. by right.
Qed.

(** The loop of [unlockItems] keeps a property of the table that every
    batch keeps. *)
Lemma unlock_from_traced (P : Db → Prop) env params :
  (∀ p d d', p ∈ params → P d → apply_writes d p = Some d' → P d') →
  ∀ w i chunks,
    P (db w) →
    let r := unlock_from env w i params chunks in
    traced P w r.2 ∧ P (db r.2).
Proof.
  induction params as [| p params IH]; intros Hstep w i chunks Hw; simpl.
  - split; [by apply traced_refl | done].
  - pose proof (transactWriteItems_traced P env w p Hw) as Ht.
    destruct Ht as [Ht HP]; [intros d' Hd'; eapply (Hstep p); [by left | done | done] |].
    destruct (transactWriteItems env w p) as [ok w1]. simpl in *.
    destruct ok; [| done].
    destruct (IH (λ p' d d' Hp', Hstep p' d d' (list_elem_of_further _ _ _ Hp'))
                w1 (S i) chunks HP) as [Ht' HP'].
    split; [by eapply traced_trans | done].
Qed.

(** Releasing a releasable lock set never leaves two versions of an id
    AVAILABLE, whatever the number of batches that go through. *)
Lemma unlockItems_traced env w locks rollBack :
  single_available (db w) → releasable (db w) rollBack locks →
  let r := unlockItems env w locks rollBack in
  traced single_available w r.2 ∧ single_available (db r.2).
Proof.
  intros Hs Hr r. subst r. rewrite unlockItems_loop.
  set (P := λ d, single_available d ∧ releasable d rollBack locks).
  destruct (unlock_from_traced P env
              (map (map (unlock_request rollBack)) (chunkArray locks MAX_TRANSACTION_SIZE)))
    with (w := w) (i := 0%nat) (chunks := chunkArray locks MAX_TRANSACTION_SIZE)
    as [(news & Hev & Hall) [Hs' _]].
  - intros p d d' Hp [Hd1 Hd2] Ha.
    apply list_elem_of_fmap in Hp as (chunk & -> & Hchunk).
    rewrite (map_ext _ _ (unlock_request_release rollBack)) in Ha.
    eapply (release_steps rollBack locks chunk d d'); try done.
    intros l Hl.
    rewrite <- (chunkArray_concat MAX_TRANSACTION_SIZE locks)
      by (unfold MAX_TRANSACTION_SIZE; lia).
    by apply (elem_of_concat l chunk).
  - by split.
  - split; [| done]. exists news. split; [done |].
    eapply Forall_impl; [exact Hall |]. by intros ev [? _].
Qed.

(** *** The lock phase *)

Lemma first_failure_complete (f : BatchReadWriteRequest → Lookup) l :
  first_failure (map f l) = None →
  ∀ request e, request ∈ l → f request ≠ LookupFailure e.
Proof.
  intros Hnone request e Hin Hf.
  destruct (first_failure_some f l request e Hin Hf) as [e' He']. congruence.
Qed.

Lemma lockItems_rejects env w requests e :
  (length (nonCreate requests) ≤ 25)%nat →
  first_failure (map (lookup env (db w)) (nonCreate requests)) = Some e →
  lockItems env w requests = (Rejected e, w).
Proof.
  intros Hlen Hfail. unfold lockItems.
  change (filter (λ request, rq_operation request ≠ "create") requests)
    with (nonCreate requests).
  change (map (λ request, {| it_id := rq_id request; it_vid := None;
                             it_resourceType := rq_resourceType request;
                             it_operation := rq_operation request;
                             isOriginalUpdateItem := None |}) (nonCreate requests))
    with (map to_lock (nonCreate requests)).
  assert (map (λ itemToLock,
                 getMostRecentResource env (db w) (it_resourceType itemToLock)
                   (it_id itemToLock)) (map to_lock (nonCreate requests))
          = map (lookup env (db w)) (nonCreate requests)) as ->
    by (by rewrite map_map).
  rewrite length_map.
  destruct (Nat.ltb_spec dynamoDbMaxBatchSize (length (nonCreate requests)))
    as [Hgt | _]; [unfold dynamoDbMaxBatchSize in Hgt; lia |].
  by rewrite Hfail.
Qed.

(** Every lookup of the lock phase answers for the id it was asked. *)
Definition answers_for_id (env : Env) (d : Db) (requests : list BatchReadWriteRequest)
    : Prop :=
  ∀ request p, request ∈ nonCreate requests →
               lookup env d request = Found p → pj_id p = rq_id request.

(** What holds of the locks taken: no version of a locked id is AVAILABLE
    any more, though one was; no two locks are on the same id; and every
    update has its lock, on the version it supersedes. *)
Definition locked_ok (d0 d1 : Db) (requests : list BatchReadWriteRequest)
    (locks : list ItemRequest) : Prop :=
  (∀ l, l ∈ locks → dark d1 (it_id l) ∧ ¬ dark d0 (it_id l))
  ∧ (∀ l l', l ∈ locks → l' ∈ locks → it_id l = it_id l' → l = l')
  ∧ (∀ request, request ∈ requests → rq_operation request = "update" →
                ∃ l, l ∈ locks ∧ it_id l = rq_id request ∧ superseded l).

Lemma NoDup_fmap_elem {A B} (f : A → B) (l : list A) x y :
  NoDup (map f l) → x ∈ l → y ∈ l → f x = f y → x = y.
Proof.
  induction l as [| a l IH]; intros Hnd Hx Hy Hf; [by apply elem_of_nil in Hx |].
  cbn [map] in Hnd. apply NoDup_cons in Hnd as [Ha Hnd].
  apply elem_of_cons in Hx as [-> | Hx]; apply elem_of_cons in Hy as [-> | Hy].
  - done.
  - exfalso. apply Ha. rewrite Hf. apply list_elem_of_fmap. by exists y.
  - exfalso. apply Ha. rewrite <- Hf. apply list_elem_of_fmap. by exists x.
  - by apply IH.
Qed.

Lemma locks_rows env d l :
  map (λ k, (it_id k, it_vid k))
      (omap (λ request, (λ p, lock_of p request) <$> found env d request) l)
  = map (λ k : string * string, (k.1, Some k.2)) (map row (omap (found env d) l)).
Proof.
  induction l as [| r l IH]; [done |]. cbn [omap list_omap].
  destruct (found env d r); simpl; by rewrite IH.
Qed.

Lemma lock_phase env w requests :
  single_available (db w) →
  answers_for_id env (db w) requests →
  match lockItems env w requests with
  | (Rejected _, w') => w' = w
  | (Resolved response, w') =>
      traced single_available w w'
      ∧ single_available (db w')
      ∧ no_new_available (db w') (db w)
      ∧ (successfulLock response = false → lockedItems response = [])
      ∧ (successfulLock response = true →
           locked_ok (db w) (db w') requests (lockedItems response))
  end.
Proof.
  intros Hs Hids.
  destruct (Nat.le_gt_cases (length (nonCreate requests)) 25) as [Hlen | Hgt].
  2:{ rewrite (lockItems_over_limit env w requests Hgt).
      split; [by apply traced_refl |]. split; [done |].
      split; [apply no_new_available_refl |]. by split. }
  destruct (first_failure (map (lookup env (db w)) (nonCreate requests)))
    as [e |] eqn:Hfail.
  { by rewrite (lockItems_rejects env w requests e Hlen Hfail). }
  pose proof (first_failure_complete _ _ Hfail) as Hcomplete.
  rewrite (lockItems_run env w requests Hlen Hcomplete).
  destruct (filter (not_found env (db w)) (nonCreate requests)) as [| m ms] eqn:Hmissing.
  2:{ split; [by apply traced_refl |]. split; [done |].
      split; [apply no_new_available_refl |]. by split. }
  assert (∀ request, request ∈ nonCreate requests →
                     ∃ p, found env (db w) request = Some p
                          ∧ pj_id p = rq_id request) as Hfound.
  { intros request Hin. unfold found.
    destruct (lookup env (db w) request) as [p | | e] eqn:Hp.
    - exists p. split; [done |]. by eapply Hids.
    - exfalso. assert (request ∈ filter (not_found env (db w)) (nonCreate requests))
        as Hm by (by apply list_elem_of_filter).
      rewrite Hmissing in Hm. by apply elem_of_nil in Hm.
    - exfalso. by eapply Hcomplete. }
  assert (∀ request, request ∈ requests → rq_operation request = "update" →
                     request ∈ nonCreate requests) as Hupdates.
  { intros request Hin Hop. apply list_elem_of_filter. split; [| done].
    rewrite Hop. done. }
  rewrite addLockRequests_map.
  set (ps := omap (found env (db w)) (nonCreate requests)) in *.
  set (locks := omap (λ request, (λ p, lock_of p request) <$> found env (db w) request)
                  (nonCreate requests)) in *.
  destruct (map lock_request_of ps) as [| a items] eqn:Hitems.
  { (* nothing to lock *)
    split; [by apply traced_refl |]. split; [done |].
    split; [apply no_new_available_refl |]. split; [done |]. intros _.
    split; [intros l Hl; by apply elem_of_nil in Hl |].
    split; [intros l l' Hl; by apply elem_of_nil in Hl |].
    intros request Hin Hop. exfalso.
    destruct (Hfound request (Hupdates _ Hin Hop)) as (p & Hp & _).
    assert (p ∈ ps) as Hpin
      by (apply list_elem_of_omap; exists request; split; [by apply Hupdates | done]).
    destruct ps; [by apply elem_of_nil in Hpin | done]. }
  rewrite <- Hitems. clear Hitems a items.
  pose proof (transactWriteItems_spec env w (map lock_request_of ps)) as (_ & _ & _ & Hdb).
  assert (Forall quiet (map lock_request_of ps)) as Hq.
  { apply Forall_forall. intros x Hx. apply list_elem_of_fmap in Hx as (p & -> & _).
    apply lock_request_quiet. }
  destruct (transactWriteItems_traced
              (λ d, single_available d ∧ no_new_available d (db w)) env w
              (map lock_request_of ps)) as [Ht [Hs' Hle]].
  { split; [done | apply no_new_available_refl]. }
  { intros d' Hd'. pose proof (apply_writes_quiet _ _ _ Hq Hd') as Hle.
    split; [by eapply single_available_mono | done]. }
  cbv zeta.
  destruct (transactWriteItems env w (map lock_request_of ps)) as [ok w'].
  simpl in *.
  split.
  { destruct Ht as (news & Hev & Hall). exists news. split; [done |].
    eapply Forall_impl; [exact Hall |]. by intros ev [? _]. }
  split; [done |]. split; [done |].
  destruct ok; simpl; split; try done. intros _.
  destruct (lock_batch_effect ps (db w) (db w') Hs Hdb) as [Hps Hnd].
  assert (∀ l, l ∈ locks →
               ∃ request p, request ∈ nonCreate requests ∧ p ∈ ps
                            ∧ l = lock_of p request) as Hlocks.
  { intros l Hl. apply list_elem_of_omap in Hl as (request & Hin & Hl).
    destruct (found env (db w) request) as [p |] eqn:Hp; [| done].
    injection Hl as <-. exists request, p. split; [done |]. split; [| done].
    apply list_elem_of_omap. by exists request. }
  split; [| split].
  - intros l Hl. destruct (Hlocks l Hl) as (request & p & _ & Hp & ->).
    destruct (Hps p Hp) as [Hav Hdark]. split; [done |].
    intros Hd. by apply (Hd (pj_versionId p)).
  - intros l l' Hl Hl' Hid.
    assert (NoDup (map (λ k, (it_id k, it_vid k)) locks)) as Hnd'.
    { unfold locks. rewrite locks_rows.
      assert (Inj eq eq (λ k : string * string, (k.1, Some k.2))) as Hinj.
      { intros [a1 b1] [a2 b2] [= -> ->]. done. }
      by apply (NoDup_fmap_2 (λ k : string * string, (k.1, Some k.2))). }
    eapply (NoDup_fmap_elem _ locks); try done.
    destruct (Hlocks l Hl) as (r1 & p1 & _ & Hp1 & ->).
    destruct (Hlocks l' Hl') as (r2 & p2 & _ & Hp2 & ->).
    simpl in *. destruct (Hps p1 Hp1) as [Hav1 _]. destruct (Hps p2 Hp2) as [Hav2 _].
    unfold row in Hav1, Hav2. rewrite Hid in Hav1.
    by rewrite Hid, (Hs _ _ _ Hav1 Hav2).
  - intros request Hin Hop.
    destruct (Hfound request (Hupdates _ Hin Hop)) as (p & Hp & Hpid).
    exists (lock_of p request). split.
    + apply list_elem_of_omap. exists request. split; [by apply Hupdates |].
      by rewrite Hp.
    + split; [done |]. right. unfold lock_of. simpl. by rewrite Hop.
Qed.

(** *** The stage phase *)

(** A lock record that staging adds: that of a create, on version "1" of
    the id given or minted, or that of an update, on the next version of the
    id of its resource. *)
Definition staged_lock (env : Env) (m : gmap string string)
    (requests : list BatchReadWriteRequest) (l : ItemRequest) : Prop :=
  (it_operation l = "create" ∧ isOriginalUpdateItem l = None ∧ it_vid l = Some "1"
   ∧ ∃ request, request ∈ requests ∧ rq_operation request = "create"
                ∧ if truthy (rq_id request) then it_id l = rq_id request
                  else ∃ n, it_id l = uuidv4 env n)
  ∨ (it_operation l = "update" ∧ isOriginalUpdateItem l = Some false
     ∧ it_vid l = Some (next_version m (it_id l))
     ∧ ∃ request, request ∈ requests ∧ rq_operation request = "update"
                  ∧ it_id l = res_id (rq_resource request)).

Lemma staged_lock_mono env m requests request l :
  staged_lock env m requests l → staged_lock env m (request :: requests) l.
Proof.
  intros [(? & ? & ? & r & Hr & ?) | (? & ? & ? & r & Hr & ?)]; [left | right];
    repeat (split; [done |]); exists r; (split; [by right | done]).
Qed.

(** The envelope of a written row covers the lock record. *)
Definition covers (e : BatchReadWriteResponse) (l : ItemRequest) : Prop :=
  wrote_row e ∧ rs_id e = it_id l ∧ rs_vid e = it_vid l.

Lemma staging_locks env m l :
  ∀ acc,
    let res := fold_left (stage_request env m) l acc in
    ∀ k, k ∈ newLocks res.1 →
         k ∈ newLocks acc.1
         ∨ (staged_lock env m l k
            ∧ ∃ e, e ∈ newStagingResponses res.1 ∧ covers e k).
Proof.
  induction l as [| r l IH]; intros acc res k Hk; [by left |].
  subst res. simpl in Hk.
  destruct (IH (stage_request env m acc r) k Hk) as [Hacc | [Hst He]].
  2:{ right. split; [by apply staged_lock_mono | done]. }
  clear IH Hk.
  destruct (staging_extends env m l (stage_request env m acc r))
    as (us & ks & es & _ & _ & Hes).
  simpl. rewrite Hes. clear Hes.
  destruct acc as [st w]. unfold stage_request in *.
  repeat case_eqb; simpl in *; try (by left).
  - apply elem_of_app in Hacc as [? | Hnew]; [by left |].
    apply list_elem_of_singleton in Hnew as ->. right. split.
    + left. simpl. rewrite E. repeat (split; [done |]).
      exists r. split; [by left |]. split; [done |].
      destruct (truthy (rq_id r)); [done | by eexists].
    + eexists. split; [apply elem_of_app; left; apply elem_of_app; right; by left |].
      split; [left; simpl; done | done].
  - apply elem_of_app in Hacc as [? | Hnew]; [by left |].
    apply list_elem_of_singleton in Hnew as ->. right. split.
    + right. simpl. rewrite E0. repeat (split; [done |]).
      exists r. split; [by left | done].
    + eexists. split; [apply elem_of_app; left; apply elem_of_app; right; by left |].
      split; [right; simpl; done | done].
Qed.

Lemma staged_writes_quiet env w requests m :
  Forall quiet (editRequests (generateStagingRequests env w requests m).1).
Proof.
  destruct (staging_writes env m requests (no_requests, w))
    as (Hd & (cs & Hc & Fc) & (us & Hu & Fu)).
  fold (generateStagingRequests env w requests m) in Hd, Hc, Hu.
  unfold editRequests. rewrite Hd, Hc, Hu. simpl.
  repeat apply Forall_app_2.
  - apply Forall_forall. intros x Hx. apply list_elem_of_fmap in Hx as (r & -> & _). done.
  - clear Hc. induction Fc as [| r x rs xs (id & now & -> & _) _ IH]; constructor; done.
  - clear Hu. induction Fu as [| r x rs xs (now & ->) _ IH]; constructor; done.
Qed.

(** Two envelopes that name the same operation on the same version. *)
Definition same_target (e e' : BatchReadWriteResponse) : Prop :=
  rs_id e = rs_id e' ∧ rs_vid e = rs_vid e'
  ∧ rs_operation e = rs_operation e' ∧ rs_resourceType e = rs_resourceType e'.

Lemma same_target_refl l : Forall2 same_target l l.
Proof. induction l; constructor; done. Qed.

Lemma walk_same_target readResult rest :
  ∀ index, Forall2 same_target rest (walk rest index readResult).1.
Proof.
  induction rest as [| e rest IH]; intros index; simpl; [constructor |].
  case_eqb.
  - destruct (result_item readResult index) as [[item |] | x]; simpl;
      try apply same_target_refl.
    specialize (IH (S index)).
    destruct (walk rest (S index) readResult) as [out x]. simpl in *.
    constructor; done.
  - specialize (IH index).
    destruct (walk rest index readResult) as [out x]. simpl in *.
    constructor; done.
Qed.

Lemma stage_phase env w requests locks :
  single_available (db w) →
  let st := (generateStagingRequests env w requests (version_map locks)).1 in
  let r := stageItems env w requests locks in
  traced single_available w r.2
  ∧ single_available (db r.2)
  ∧ no_new_available (db r.2) (db w)
  ∧ ((stage_success r.1 = false ∧ stage_lockedItems r.1 = locks
      ∧ stage_batchReadWriteResponses r.1 = [])
     ∨ (stage_lockedItems r.1 = locks ++ newLocks st
        ∧ Forall2 same_target (newStagingResponses st)
            (stage_batchReadWriteResponses r.1))).
Proof.
  intros Hs st r. subst st r. unfold stageItems.
  pose proof (generateStagingRequests_world env w requests (version_map locks))
    as [Hdb Hev].
  pose proof (staged_writes_quiet env w requests (version_map locks)) as Hq.
  destruct (generateStagingRequests env w requests (version_map locks)) as [st w1].
  simpl in Hdb, Hev, Hq. simpl fst. fold (editRequests st).
  set (P := λ d, single_available d ∧ no_new_available d (db w)).
  assert (P (db w1)) as HP1 by (rewrite Hdb; split; [done | apply no_new_available_refl]).
  assert (traced P w w1) as Ht1 by (by apply traced_refl).
  assert (∃ written w2,
            (if Nat.ltb 0 (length (editRequests st))
             then transactWriteItems env w1 (editRequests st)
             else (true, w1)) = (written, w2)
            ∧ traced P w w2 ∧ P (db w2)) as (written & w2 & -> & Ht2 & HP2).
  { destruct (Nat.ltb 0 (length (editRequests st))); [| by eexists _, _].
    destruct (transactWriteItems_traced P env w1 (editRequests st) HP1) as [Ht HP].
    { intros d' Hd'. rewrite Hdb in Hd'.
      pose proof (apply_writes_quiet _ _ _ Hq Hd') as Hle.
      split; [by eapply single_available_mono | done]. }
    destruct (transactWriteItems env w1 (editRequests st)) as [ok w2].
    eexists _, _. split; [done |]. split; [by eapply traced_trans | done]. }
  assert (∀ w', traced P w w' → traced single_available w w') as Hweaken.
  { intros w' (news & Hn & Hall). exists news. split; [done |].
    eapply Forall_impl; [exact Hall |]. by intros ev [? _]. }
  destruct written; simpl.
  2:{ destruct HP2. split; [by apply Hweaken |]. split; [done |]. split; [done |].
      by left. }
  destruct (Nat.ltb 0 (length (readRequests st))).
  2:{ destruct HP2. split; [by apply Hweaken |]. split; [done |]. split; [done |].
      right. split; [done | apply same_target_refl]. }
  destruct (transactGetItems_traced P env w2 (readRequests st) HP2) as [Ht3 Hdb3].
  destruct (transactGetItems env w2 (readRequests st)) as [[readResult |] w3];
    simpl in Ht3, Hdb3.
  - rewrite populate_walk.
    pose proof (walk_same_target (Some readResult) (newStagingResponses st) 0) as Hsame.
    destruct (walk (newStagingResponses st) 0 (Some readResult)) as [populated [x |]];
      simpl in *; rewrite Hdb3; destruct HP2;
      (split; [by apply Hweaken; eapply traced_trans |]);
      (split; [done |]); (split; [done |]); by right.
  - simpl. rewrite Hdb3. destruct HP2.
    split; [by apply Hweaken; eapply traced_trans |].
    split; [done |]. split; [done |]. right. split; [done | apply same_target_refl].
Qed.

(** *** The rollback *)

Definition lock_fullId (l : ItemRequest) : string :=
  generateFullId (it_id l) (or_else (it_vid l) "0").

Definition removal_fullId (x : LockRemoval) : string :=
  generateFullId (rm_id x) (interpolate (rm_vid x)).

Lemma set_property_entries {A} (P : string * A → Prop) key (value : A) record :
  Forall P record → P (key, value) → Forall P (set_property key value record).
Proof.
  intros Hall Hnew. induction record as [| [k v] record IH]; simpl.
  - by repeat constructor.
  - apply Forall_cons in Hall as [Hkv Hall]. case_eqb.
    + subst k. by constructor.
    + constructor; [done | by apply IH].
Qed.

Lemma indexed_locks (locks : list ItemRequest) :
  ∀ record,
    Forall (λ kv, kv.1 = lock_fullId kv.2 ∧ kv.2 ∈ locks) record →
    Forall (λ kv, kv.1 = lock_fullId kv.2 ∧ kv.2 ∈ locks)
      (fold_left
         (λ record lockedItem,
            set_property
              (generateFullId (it_id lockedItem) (or_else (it_vid lockedItem) "0"))
              lockedItem record)
         locks record).
Proof.
  assert (∀ ls record,
            (∀ l, l ∈ ls → l ∈ locks) →
            Forall (λ kv, kv.1 = lock_fullId kv.2 ∧ kv.2 ∈ locks) record →
            Forall (λ kv, kv.1 = lock_fullId kv.2 ∧ kv.2 ∈ locks)
              (fold_left
                 (λ record lockedItem,
                    set_property
                      (generateFullId (it_id lockedItem) (or_else (it_vid lockedItem) "0"))
                      lockedItem record)
                 ls record)) as H.
  { induction ls as [| l ls IH]; intros record Hsub Hrec; [done |].
    simpl. apply IH; [intros l' Hl'; apply Hsub; by right |].
    apply set_property_entries; [done |]. split; [done |]. apply Hsub. by left. }
  intros record. by apply H.
Qed.

Lemma removed_locks (removals : list LockRemoval) :
  ∀ (record : list (string * ItemRequest)) kv,
    kv ∈ fold_left
           (λ record itemToRemove,
              delete_property
                (generateFullId (rm_id itemToRemove) (interpolate (rm_vid itemToRemove)))
                record)
           removals record →
    kv ∈ record ∧ kv.1 ∉ map removal_fullId removals.
Proof.
  induction removals as [| x removals IH]; intros record kv Hkv; simpl in *.
  - split; [done | apply not_elem_of_nil].
  - destruct (IH _ kv Hkv) as [Hin Hnot].
    apply list_elem_of_filter in Hin as [Hne Hin].
    split; [done |]. apply not_elem_of_cons. split; [| done].
    exact Hne.
Qed.

(** A lock that survives the removal was in the lock set, and none of the
    entries to remove has its full id. *)
Lemma removeLocksFromArray_spec locks removals l :
  l ∈ removeLocksFromArray locks removals →
  l ∈ locks ∧ lock_fullId l ∉ map removal_fullId removals.
Proof.
  unfold removeLocksFromArray. intros Hl.
  apply list_elem_of_fmap in Hl as ([k v] & -> & Hkv).
  apply removed_locks in Hkv as [Hin Hnot].
  pose proof (indexed_locks locks [] (Forall_nil_2 _)) as Hall.
  rewrite Forall_forall in Hall. destruct (Hall _ Hin) as [Hk Hv].
  simpl in *. split; [done |]. by rewrite <- Hk.
Qed.

Lemma rollback_requests_quiet l :
  Forall quiet (transactionRequests (generateRollbackRequests l)).
Proof.
  unfold generateRollbackRequests.
  change (fold_left _ l ?a) with (fold_left rollback_step l a).
  rewrite rollback_fold. simpl.
  apply Forall_forall. intros x Hx. apply list_elem_of_fmap in Hx as (e & -> & _). done.
Qed.

Lemma rollback_removals l :
  itemsToRemoveFromLock (generateRollbackRequests l)
  = map rollback_removal (filter wrote_row l).
Proof.
  unfold generateRollbackRequests.
  change (fold_left _ l ?a) with (fold_left rollback_step l a).
  by rewrite rollback_fold.
Qed.

Lemma rollback_phase env w responses locks :
  single_available (db w) →
  let r := rollbackItems env w responses locks in
  traced single_available w r.2
  ∧ single_available (db r.2)
  ∧ no_new_available (db r.2) (db w)
  ∧ ∀ l, l ∈ r.1 →
         l ∈ locks
         ∧ lock_fullId l
           ∉ map removal_fullId (map rollback_removal (filter wrote_row responses)).
Proof.
  intros Hs r. subst r. unfold rollbackItems.
  set (P := λ d, single_available d ∧ no_new_available d (db w)).
  destruct (transactWriteItems_traced P env w
              (transactionRequests (generateRollbackRequests responses)))
    as [(news & Hev & Hall) [Hs' Hle]].
  { split; [done | apply no_new_available_refl]. }
  { intros d' Hd'.
    pose proof (apply_writes_quiet _ _ _ (rollback_requests_quiet responses) Hd') as Hle.
    split; [by eapply single_available_mono | done]. }
  destruct (transactWriteItems env w _) as [ok w']. simpl in *.
  split.
  { exists news. split; [done |]. eapply Forall_impl; [exact Hall |]. by intros ev [? _]. }
  split; [done |]. split; [done |].
  intros l Hl. rewrite <- rollback_removals. by apply removeLocksFromArray_spec.
Qed.

Lemma toString_truthy n : truthy (toString n) = true.
Proof.
  unfold toString. destruct (Z.to_int n) as [d | d]; simpl; [| done].
  by destruct d.
Qed.

(** A lock record added by staging has the full id of the removal entry of
    an envelope that covers it. *)
Lemma covered_fullId m env requests e l :
  staged_lock env m requests l → covers e l →
  lock_fullId l = removal_fullId (rollback_removal e).
Proof.
  intros Hst (_ & Hid & Hvid).
  unfold lock_fullId, removal_fullId, rollback_removal. simpl.
  rewrite Hid, Hvid.
  destruct Hst as [(_ & _ & -> & _) | (_ & _ & -> & _)]; simpl; [done |].
  unfold next_version. by rewrite toString_truthy.
Qed.

(** *** The transaction *)

(** The resource of every update carries the id of the operation. *)
Definition updates_carry_id (requests : list BatchReadWriteRequest) : Prop :=
  ∀ request, request ∈ requests → rq_operation request = "update" →
             res_id (rq_resource request) = rq_id request.

(** The id of every create, given or minted, has no AVAILABLE version. *)
Definition creates_fresh (env : Env) (d : Db) (requests : list BatchReadWriteRequest)
    : Prop :=
  ∀ request, request ∈ requests → rq_operation request = "create" →
             if truthy (rq_id request) then dark d (rq_id request)
             else ∀ n, dark d (uuidv4 env n).

Lemma Forall2_elem_of_l {A B} (P : A → B → Prop) l k x :
  Forall2 P l k → x ∈ l → ∃ y, y ∈ k ∧ P x y.
Proof.
  intros HF. induction HF as [| a b l k Hab HF IH]; intros Hx;
    [by apply elem_of_nil in Hx |].
  apply elem_of_cons in Hx as [-> | Hx].
  - exists b. split; [by left | done].
  - destruct (IH Hx) as (y & Hy & HP). exists y. split; [by right | done].
Qed.

Lemma getElapsedTime_world env w startTime :
  db (getElapsedTime env w startTime).2 = db w
  ∧ events (getElapsedTime env w startTime).2 = events w.
Proof. done. Qed.

(** After a failure the locks still held are locks of the lock phase, and
    all of them can be released to AVAILABLE. *)
Lemma releasable_rollback d0 d1 d requests locks remaining :
  locked_ok d0 d1 requests locks →
  no_new_available d d1 →
  (∀ l, l ∈ remaining → l ∈ locks) →
  releasable d true remaining.
Proof.
  intros (Hdark & Hinj & _) Hle Hsub. split.
  - intros l v Hl _ Hv. exfalso.
    destruct (Hdark l (Hsub l Hl)) as [Hd _]. by apply (Hd v), Hle.
  - intros l l' Hl Hl' _ _ Hid. by rewrite (Hinj l l' (Hsub l Hl) (Hsub l' Hl') Hid).
Qed.

(** On commit the locks of the lock phase and those added by staging can be
    released. *)
Lemma releasable_commit env d0 d1 d requests locks m news :
  locked_ok d0 d1 requests locks →
  no_new_available d1 d0 →
  no_new_available d d1 →
  updates_carry_id requests →
  creates_fresh env d0 requests →
  (∀ k, k ∈ news → staged_lock env m requests k) →
  releasable d false (locks ++ news).
Proof.
  intros (Hdark & Hinj & Hupd) Hle10 Hle Hcarry Hfresh Hnews.
  (* the lock of the lock phase on the id of a staged update *)
  assert (∀ k, k ∈ news → it_operation k = "update" →
               ∃ l, l ∈ locks ∧ it_id l = it_id k ∧ superseded l) as Hupdate.
  { intros k Hk Hop.
    destruct (Hnews k Hk) as [(Hc & _) | (_ & _ & _ & r & Hr & Hrop & Hid)];
      [congruence |].
    destruct (Hupd r Hr Hrop) as (l & Hl & Hlid & Hsup).
    exists l. split; [done |]. split; [| done].
    by rewrite Hlid, Hid, (Hcarry r Hr Hrop). }
  (* the id of a staged create had no AVAILABLE version *)
  assert (∀ k, k ∈ news → it_operation k = "create" → dark d0 (it_id k)) as Hcreate.
  { intros k Hk Hop.
    destruct (Hnews k Hk) as [(_ & _ & _ & r & Hr & Hrop & Hid) | (Hu & _)];
      [| congruence].
    pose proof (Hfresh r Hr Hrop) as Hf.
    destruct (truthy (rq_id r)); [by rewrite Hid |].
    destruct Hid as [n ->]. apply Hf. }
  assert (∀ k, k ∈ news → it_operation k = "create" ∨ it_operation k = "update") as Hops.
  { intros k Hk. destruct (Hnews k Hk) as [(? & _) | (? & _)]; [by left | by right]. }
  assert (∀ l, l ∈ locks ++ news → dark d (it_id l)) as Hall.
  { intros l Hl. apply elem_of_app in Hl as [Hl | Hl].
    - destruct (Hdark l Hl) as [Hd _]. by eapply dark_mono.
    - destruct (Hops l Hl) as [Hop | Hop].
      + eapply dark_mono; [| by apply Hcreate].
        by eapply no_new_available_trans.
      + destruct (Hupdate l Hl Hop) as (l0 & Hl0 & Hid & _).
        rewrite <- Hid. destruct (Hdark l0 Hl0) as [Hd _]. by eapply dark_mono. }
  assert (∀ l k, l ∈ locks → k ∈ news → reopens false l → it_id l = it_id k → False)
    as Hmixed.
  { intros l k Hl Hk Hre Hid.
    destruct (Hops k Hk) as [Hop | Hop].
    - destruct (Hdark l Hl) as [_ Hnd]. apply Hnd. rewrite Hid. by apply Hcreate.
    - destruct (Hupdate k Hk Hop) as (l0 & Hl0 & Hid0 & Hsup).
      assert (l = l0) as -> by (apply Hinj; [done | done | congruence]).
      unfold reopens, released_status in Hre. by rewrite decide_True in Hre. }
  split.
  - intros l v Hl _ Hv. exfalso. by apply (Hall l Hl v).
  - intros l l' Hl Hl' Hre Hre' Hid.
    apply elem_of_app in Hl as [Hl | Hl]; apply elem_of_app in Hl' as [Hl' | Hl'].
    + by rewrite (Hinj l l' Hl Hl' Hid).
    + exfalso. by eapply (Hmixed l l').
    + exfalso. by eapply (Hmixed l' l).
    + unfold lock_key. rewrite Hid. f_equal.
      destruct (Hnews l Hl) as [(Hc & _ & -> & _) | (Hu & _ & -> & _)];
        destruct (Hnews l' Hl') as [(Hc' & _ & -> & _) | (Hu' & _ & -> & _)].
      * done.
      * exfalso. destruct (Hupdate l' Hl' Hu') as (l0 & Hl0 & Hid0 & _).
        destruct (Hdark l0 Hl0) as [_ Hnd]. apply Hnd. rewrite Hid0, <- Hid.
        by apply Hcreate.
      * exfalso. destruct (Hupdate l Hl Hu) as (l0 & Hl0 & Hid0 & _).
        destruct (Hdark l0 Hl0) as [_ Hnd]. apply Hnd. rewrite Hid0, Hid.
        by apply Hcreate.
      * by rewrite Hid.
Qed.

(** C8, as amended. Take a transaction in which the resource of every update
    carries the id of the operation, the id of every create, given or
    minted, has no AVAILABLE version in the store, and every version lookup
    answers for the id it was asked. Run over a store in which at most one
    version of each id is AVAILABLE, it leaves the store, after each batch it
    submits (the lock batch, the staged writes, the rollback deletes and each
    chunk of the unlock) and at its end, in a state in which at most one
    version of each id is AVAILABLE. *)
Theorem transaction_keeps_one_available_version env w request :
  single_available (db w) →
  answers_for_id env (db w) (requests request) →
  updates_carry_id (requests request) →
  creates_fresh env (db w) (requests request) →
  let r := transaction env w request in
  Forall (λ ev, single_available (ev_after ev)) (submitted w r.2)
  ∧ single_available (db r.2).
Proof.
  intros Hs Hids Hcarry Hfresh r.
  assert (traced single_available w r.2 ∧ single_available (db r.2)) as [Ht Hfinal];
    [| split; [by apply traced_submitted | done]].
  subst r. unfold transaction.
  destruct (requests request) as [| rq rqs] eqn:Hrequests;
    [split; [by apply traced_refl | done] |].
  rewrite <- Hrequests in *. clear Hrequests rq rqs.
  pose proof (lock_phase env w (requests request) Hs Hids) as Hlock.
  destruct (lockItems env w (requests request)) as [[response | e] w1].
  2:{ subst w1. split; [by apply traced_refl | done]. }
  destruct Hlock as (Ht1 & Hs1 & Hle1 & Hfailed & Hlocked).
  destruct (getElapsedTime env w1 (startTime request)) as [elapsed w2] eqn:Hw2.
  assert (db w2 = db w1 ∧ events w2 = events w1) as [Hdb2 Hev2].
  { pose proof (getElapsedTime_world env w1 (startTime request)) as H.
    by rewrite Hw2 in H. }
  assert (traced single_available w w2) as Ht2.
  { destruct Ht1 as (news & Hev & Hall). exists news. by rewrite Hev2. }
  destruct (Z.ltb (budget env) elapsed || negb (successfulLock response))%bool eqn:Hstop.
  - (* the locks are released at once *)
    assert (releasable (db w2) true (lockedItems response)) as Hrel.
    { destruct (successfulLock response) eqn:Hok.
      - eapply releasable_rollback; [by apply Hlocked | | done].
        rewrite Hdb2. apply no_new_available_refl.
      - rewrite (Hfailed eq_refl). split; intros l; intros; by apply elem_of_nil in H. }
    rewrite <- Hdb2 in Hs1.
    destruct (unlockItems_traced env w2 (lockedItems response) true Hs1 Hrel) as [Ht3 Hs3].
    destruct (unlockItems env w2 (lockedItems response) true) as [u w3]. simpl in *.
    assert (traced single_available w w3) by (by eapply traced_trans).
    by destruct (Z.ltb (budget env) elapsed).
  - apply orb_false_iff in Hstop as [_ Hok]. apply negb_false_iff in Hok.
    specialize (Hlocked Hok). rewrite <- Hdb2 in Hs1.
    destruct (stage_phase env w2 (requests request) (lockedItems response) Hs1)
      as (Ht3 & Hs3 & Hle3 & Hstage).
    pose proof (staging_locks env (version_map (lockedItems response))
                  (requests request) (no_requests, w2)) as Hnew.
    fold (generateStagingRequests env w2 (requests request)
            (version_map (lockedItems response))) in Hnew.
    set (st := (generateStagingRequests env w2 (requests request)
                  (version_map (lockedItems response))).1) in *.
    destruct (stageItems env w2 (requests request) (lockedItems response))
      as [staged w3]. simpl in Ht3, Hs3, Hle3, Hstage.
    destruct (getElapsedTime env w3 (startTime request)) as [elapsed' w4] eqn:Hw4.
    assert (db w4 = db w3 ∧ events w4 = events w3) as [Hdb4 Hev4].
    { pose proof (getElapsedTime_world env w3 (startTime request)) as H.
      by rewrite Hw4 in H. }
    assert (traced single_available w w4) as Ht4.
    { destruct (traced_trans _ _ _ _ Ht2 Ht3) as (news & Hev & Hall).
      exists news. by rewrite Hev4. }
    rewrite <- Hdb4 in Hs3, Hle3. rewrite Hdb2 in Hle3.
    destruct (Z.ltb (budget env) elapsed' || negb (stage_success staged))%bool eqn:Hstop'.
    + (* the staged rows are deleted and the remaining locks released *)
      destruct (rollback_phase env w4 (stage_batchReadWriteResponses staged)
                  (stage_lockedItems staged) Hs3) as (Ht5 & Hs5 & Hle5 & Hremaining).
      destruct (rollbackItems env w4 (stage_batchReadWriteResponses staged)
                  (stage_lockedItems staged)) as [remaining w5].
      simpl in Ht5, Hs5, Hle5, Hremaining.
      assert (releasable (db w5) true remaining) as Hrel.
      { eapply releasable_rollback; [exact Hlocked | |].
        - eapply no_new_available_trans; [exact Hle5 | exact Hle3].
        - intros l Hl. destruct (Hremaining l Hl) as [Hin Hnot].
          destruct Hstage as [(_ & Hlocks & _) | (Hlocks & Hsame)];
            rewrite Hlocks in Hin; [done |].
          apply elem_of_app in Hin as [Hin | Hin]; [done |]. exfalso.
          destruct (Hnew l Hin) as [Hnil | (Hst & e & He & Hcov)];
            [by apply elem_of_nil in Hnil |].
          destruct (Forall2_elem_of_l _ _ _ e Hsame He)
            as (e' & He' & Hid & Hvid & Hop & _).
          assert (covers e' l) as Hcov'.
          { destruct Hcov as (Hw & Hi & Hv). unfold covers, wrote_row in *.
            rewrite <- Hid, <- Hvid, <- Hop. done. }
          apply Hnot. rewrite (covered_fullId _ _ _ e' l Hst Hcov').
          apply list_elem_of_fmap. exists (rollback_removal e'). split; [done |].
          apply list_elem_of_fmap. exists e'. split; [done |].
          apply list_elem_of_filter. split; [apply Hcov' | done]. }
      destruct (unlockItems_traced env w5 remaining true Hs5 Hrel) as [Ht6 Hs6].
      destruct (unlockItems env w5 remaining true) as [u w6]. simpl in *.
      assert (traced single_available w w6)
        by (eapply traced_trans; [eapply traced_trans |]; done).
      by destruct (Z.ltb (budget env) elapsed').
    + (* commit *)
      apply orb_false_iff in Hstop' as [_ Hok']. apply negb_false_iff in Hok'.
      destruct Hstage as [(Hfail & _) | (Hlocks & _)]; [congruence |].
      assert (releasable (db w4) false (stage_lockedItems staged)) as Hrel.
      { rewrite Hlocks.
        eapply (releasable_commit env (db w) (db w1)); try done.
        intros k Hk. destruct (Hnew k Hk) as [Hnil | [Hst _]];
          [by apply elem_of_nil in Hnil | done]. }
      destruct (unlockItems_traced env w4 (stage_lockedItems staged) false Hs3 Hrel)
        as [Ht5 Hs5].
      destruct (unlockItems env w4 (stage_lockedItems staged) false) as [u w5].
      simpl in *. split; [by eapply traced_trans | done].
Qed.

End ServiceProperties.

(** * Scenarios *)

Module Scenarios.

Import DynamoDbBundleServiceHelper DynamoDbBundleService HelperProperties ServiceProperties.

(** The rows of a table that hold a version of a resource. *)
Definition versions_of (d : Db) (resourceType id : string) : list Item :=
  filter (λ it, item_id it = id ∧ res_resourceType (item_resource it) = resourceType)
    (map snd (map_to_list d)).

Definition version_number (it : Item) : Z :=
  number_or_zero (parseInt (Some (item_vid it))).

Definition newer (a b : Item) : Item :=
  if Z.ltb (version_number a) (version_number b) then b else a.

(** Modelled from the spec: DynamoDbHelper.getMostRecentResource, which is
    not among the sources: the "resource-type-scoped most recent version
    lookup returning not-found as a distinguishable condition". *)
Definition mostRecent (d : Db) (resourceType id : string) : Lookup :=
  match versions_of d resourceType id with
  | [] => ResourceNotFoundError
  | it :: its =>
      let latest := fold_left newer its it in
      Found {| pj_resourceType := res_resourceType (item_resource latest);
               pj_id := item_id latest;
               pj_versionId := item_vid latest |}
  end.

(** A store that never fails on its own, a clock that stands still. *)
Definition calm : Env :=
  {| getMostRecentResource := mostRecent;
     storeFault := λ _, false;
     clock := λ _, 1000;
     toISOString := toString;
     uuidv4 := λ n, "uuid-" +:+ toString (Z.of_nat n);
     maxExecutionTimeMs := None;
     LOCK_DURATION_SECONDS := "35" |}.

(** The same, except that the submission of rank [n] fails. *)
Definition failing_at (n : nat) : Env :=
  {| getMostRecentResource := mostRecent;
     storeFault := λ k, Nat.eqb k n;
     clock := clock calm;
     toISOString := toISOString calm;
     uuidv4 := uuidv4 calm;
     maxExecutionTimeMs := None;
     LOCK_DURATION_SECONDS := "35" |}.

Definition patient (id vid : string) (status : DOCUMENT_STATUS) : Item :=
  {| item_id := id; item_vid := vid; documentStatus := status;
     item_resource :=
       {| res_resourceType := "Patient"; res_id := id;
          res_meta := Some {| versionId := Some vid;
                              lastUpdated := Some "2020-04-10T20:41:39.912Z" |};
          res_content := "Langard" |} |}.

Definition table (rows : list Item) : Db :=
  list_to_map (map (λ it, (item_key it, it)) rows).

Definition world (rows : list Item) : World :=
  {| db := table rows; events := []; ticks := 0; minted := 0 |}.

Definition operation (op id : string) : BatchReadWriteRequest :=
  {| rq_operation := op; rq_resourceType := "Patient"; rq_id := id;
     rq_resource := {| res_resourceType := "Patient"; res_id := id;
                       res_meta := None; res_content := "Doe" |} |}.

Definition bundle (ops : list BatchReadWriteRequest) : TransactionRequest :=
  {| requests := ops; startTime := 0 |}.

(** The statuses of the rows of a table, in the order of their keys. *)
Definition statuses (d : Db) : list (string * string * DOCUMENT_STATUS) :=
  map (λ kv, (kv.1, documentStatus kv.2)) (map_to_list d).

(** *** Checking a concrete table *)

(** The keys of the AVAILABLE rows. *)
Definition available_keys (d : Db) : list (string * string) :=
  map fst (filter (λ kv, documentStatus kv.2 = AVAILABLE) (map_to_list d)).

Lemma available_keys_spec d k : available d k ↔ k ∈ available_keys d.
Proof.
  unfold available, available_keys. split.
  - intros (it & Hit & Hst). apply list_elem_of_fmap. exists (k, it).
    split; [done |]. apply list_elem_of_filter. split; [done |].
    by apply elem_of_map_to_list.
  - intros Hk. apply list_elem_of_fmap in Hk as ([k' it] & -> & Hin).
    apply list_elem_of_filter in Hin as [Hst Hin].
    apply elem_of_map_to_list in Hin. by exists it.
Qed.

Definition single_availableb (d : Db) : bool :=
  bool_decide (NoDup (map fst (available_keys d))).

Lemma single_availableb_sound d : single_availableb d = true → single_available d.
Proof.
  intros H. apply bool_decide_eq_true in H. intros id v1 v2 H1 H2.
  apply available_keys_spec in H1, H2.
  by injection (NoDup_fmap_elem fst _ (id, v1) (id, v2) H H1 H2 eq_refl).
Qed.

Lemma single_availableb_complete d : single_availableb d = false → ¬ single_available d.
Proof.
  intros H Hs. apply bool_decide_eq_false in H. apply H. clear H.
  assert (NoDup (available_keys d)) as Hnd.
  { unfold available_keys. apply NoDup_fmap_fst.
    - intros k x y Hx Hy. apply list_elem_of_filter in Hx as [_ Hx], Hy as [_ Hy].
      apply elem_of_map_to_list in Hx, Hy. congruence.
    - apply NoDup_filter, NoDup_map_to_list. }
  assert (∀ k, k ∈ available_keys d → available d k) as Hav
    by (intros k; apply available_keys_spec).
  induction (available_keys d) as [| [id v] ks IH]; [constructor |].
  apply NoDup_cons in Hnd as [Hk Hnd]. cbn [map]. constructor.
  - intros Hin. apply list_elem_of_fmap in Hin as ([id' v'] & Hid & Hin').
    simpl in Hid. subst id'.
    assert (v = v') as <-.
    { apply (Hs id); apply Hav; [by left | by right]. }
    done.
  - apply IH; [done |]. intros k Hk'. apply Hav. by right.
Qed.

Definition darkb (d : Db) (id : string) : bool :=
  bool_decide (id ∉ map fst (available_keys d)).

Lemma darkb_sound d id : darkb d id = true → dark d id.
Proof.
  intros H v Hv. apply bool_decide_eq_true in H. apply H.
  apply available_keys_spec in Hv. apply list_elem_of_fmap. by exists (id, v).
Qed.

(** *** The lookup of the scenarios *)

Lemma newer_cases a b : newer a b = a ∨ newer a b = b.
Proof. unfold newer. destruct (Z.ltb _ _); [by right | by left]. Qed.

Lemma latest_elem (its : list Item) :
  ∀ it, fold_left newer its it = it ∨ fold_left newer its it ∈ its.
Proof.
  induction its as [| a its IH]; intros it; simpl; [by left |].
  destruct (IH (newer it a)) as [-> | Hin]; [| right; by right].
  destruct (newer_cases it a) as [-> | ->]; [by left | right; by left].
Qed.

Lemma mostRecent_answers d resourceType id p :
  mostRecent d resourceType id = Found p → pj_id p = id.
Proof.
  unfold mostRecent.
  destruct (versions_of d resourceType id) as [| it its] eqn:Hv; [done |].
  intros [= <-]. simpl.
  assert (fold_left newer its it ∈ versions_of d resourceType id) as Hin.
  { rewrite Hv. destruct (latest_elem its it) as [-> | ?]; [by left | by right]. }
  unfold versions_of in Hin. by apply list_elem_of_filter in Hin as [[? _] _].
Qed.

Lemma mostRecent_completes d resourceType id e :
  mostRecent d resourceType id ≠ LookupFailure e.
Proof. unfold mostRecent. by destruct (versions_of d resourceType id). Qed.

Lemma calm_answers_for_id d requests : answers_for_id calm d requests.
Proof. intros request p _ Hp. by apply mostRecent_answers in Hp. Qed.

Lemma calm_lookups_complete d requests : lookups_complete calm d requests.
Proof. intros request e _. apply mostRecent_completes. Qed.

End Scenarios.


(** * Concrete runs *)

Module Runs.

Import DynamoDbBundleServiceHelper DynamoDbBundleService.
Import HelperProperties ServiceProperties Scenarios.

Definition lock (op id vid : string) (original : option bool) : ItemRequest :=
  {| it_id := id; it_vid := Some vid; it_resourceType := "Patient";
     it_operation := op; isOriginalUpdateItem := original |}.

Definition envelope (op id vid : string) : BatchReadWriteResponse :=
  {| rs_id := id; rs_vid := Some vid; rs_operation := op;
     rs_lastModified := "2020-04-23T15:19:35.843Z"; rs_resourceType := "Patient";
     rs_resource := empty_object |}.

(** Membership in a list given in full. *)
Ltac in_list :=
  repeat first [ by apply list_elem_of_here | apply list_elem_of_further ].

(** Cases on membership in a list given in full. *)
Ltac cases_in H :=
  simpl in H;
  repeat (let E := fresh "E" in
          apply elem_of_cons in H as [E | H]; [try discriminate E; try subst |]);
  try (by apply elem_of_nil in H).

(** C10. An operation request whose operation is none of create, update,
    delete and read is skipped by [generateStagingRequests]: the arrays of
    store requests, of response envelopes and of lock records, and the world,
    are those obtained without that entry. So a transaction can succeed with
    fewer envelopes than operations: a bundle of one vread on an existing
    resource succeeds with no envelope at all. *)
Theorem unhandled_operations_are_skipped
    env w m (before after : list BatchReadWriteRequest) (r : BatchReadWriteRequest) :
  rq_operation r ≠ "create" → rq_operation r ≠ "update" →
  rq_operation r ≠ "delete" → rq_operation r ≠ "read" →
  generateStagingRequests env w (before ++ r :: after) m
  = generateStagingRequests env w (before ++ after) m
  ∧ ∃ response,
      (transaction calm (world [patient "X" "2" AVAILABLE])
         (bundle [operation "vread" "X"])).1 = Resolved response
      ∧ success response = true
      ∧ (length (batchReadWriteResponses response)
         < length [operation "vread" "X"])%nat.
Proof.
  intros Hc Hu Hd Hr. split; [by apply generateStagingRequests_skip |].
  eexists. split; [vm_compute; reflexivity |]. split; [reflexivity | simpl; lia].
Qed.

Lemma unhandled_operations_are_skipped_witness :
  generateStagingRequests calm (world []) [operation "create" "A"; operation "patch" "X"] ∅
  = generateStagingRequests calm (world []) [operation "create" "A"] ∅.
Proof.
  apply (unhandled_operations_are_skipped calm (world []) ∅
           [operation "create" "A"] [] (operation "patch" "X")); discriminate.
Defined.

(** A lock set after a committed update of X and read of Y. *)
Definition committed_locks : list ItemRequest :=
  [lock "update" "X" "3" (Some true); lock "read" "Y" "1" None;
   lock "update" "X" "4" (Some false)].

Definition staged_rows : list Item :=
  [patient "X" "3" LOCKED; patient "Y" "1" LOCKED; patient "X" "4" PENDING].

Lemma unlockItems_releases_witness :
  ∃ it, db (unlockItems calm (world staged_rows) committed_locks false).2 !! ("X", "3")
        = Some it
        ∧ documentStatus it = DELETED.
Proof.
  destruct (unlockItems_releases calm (world staged_rows) committed_locks false)
    as (n & Hle & _ & _ & Hrows & Hcalm & _).
  assert (n = 3%nat) as ->.
  { specialize (Hcalm 1%nat (λ _ _, eq_refl)). simpl in Hcalm, Hle. lia. }
  apply (Hrows [] (lock "update" "X" "3" (Some true))
           [lock "read" "Y" "1" None; lock "update" "X" "4" (Some false)]).
  - reflexivity.
  - intros Hin. cases_in Hin.
Defined.

Lemma stageItems_write_order_witness :
  deleteRequests
    (generateStagingRequests calm (world staged_rows)
       [operation "update" "X"; operation "delete" "Y"; operation "create" ""]
       (version_map [lock "update" "X" "3" (Some true); lock "delete" "Y" "1" None])).1
  = [Update (Some LOCKED) PENDING_DELETE "Y" (Some "1")].
Proof.
  exact (proj1 (proj2 (stageItems_write_order calm (world staged_rows)
                         [operation "update" "X"; operation "delete" "Y";
                          operation "create" ""]
                         [lock "update" "X" "3" (Some true);
                          lock "delete" "Y" "1" None]))).
Defined.

Lemma generateRollbackRequests_coverage_witness :
  envelope "read" "Y" "1"
  ∉ filter wrote_row [envelope "create" "A" "1"; envelope "read" "Y" "1"].
Proof.
  apply (generateRollbackRequests_coverage
           [envelope "create" "A" "1"; envelope "read" "Y" "1"]).
  - in_list.
  - by left.
Defined.

Definition one_read_result : option TransactGetItemsOutput :=
  Some {| Responses := Some [{| Item_ := Some (patient "Y" "1" LOCKED) |}] |}.

Lemma populateBundleEntryResponseWithReadResult_merges_witness :
  (populateBundleEntryResponseWithReadResult
     [envelope "delete" "X" "3"; envelope "read" "Y" "1"] one_read_result).2 = None.
Proof.
  apply (populateBundleEntryResponseWithReadResult_merges
           [envelope "delete" "X" "3"; envelope "read" "Y" "1"] one_read_result).
  intros [| k] Hk; [by eexists | simpl in Hk; lia].
Defined.

Lemma lockItems_aborts_on_missing_resources_witness :
  (lockItems calm (world [patient "X" "3" AVAILABLE])
     [operation "read" "X"; operation "delete" "Y"]).1
  = Resolved {| successfulLock := false; lock_errorType := Some USER_ERROR;
                errorMessage := Some "Failed to find resources: Patient/Y";
                lockedItems := [] |}.
Proof.
  destruct (lockItems_aborts_on_missing_resources calm
              (world [patient "X" "3" AVAILABLE])
              [operation "read" "X"; operation "delete" "Y"]) as (-> & _).
  - simpl. lia.
  - apply calm_lookups_complete.
  - exists (operation "delete" "Y"). split; [in_list | reflexivity].
  - reflexivity.
Defined.

Lemma lockItems_fails_on_missing_or_unavailable_witness :
  ∃ response,
    (lockItems calm (world [patient "X" "1" LOCKED]) [operation "read" "X"]).1
    = Resolved response
    ∧ successfulLock response = false.
Proof.
  destruct (lockItems_fails_on_missing_or_unavailable calm
              (world [patient "X" "1" LOCKED]) [operation "read" "X"]
              (calm_lookups_complete _ _)) as [_ H].
  destruct H as (response & H1 & H2 & _).
  - simpl. lia.
  - intros request Hin. vm_compute in Hin.
    apply list_elem_of_singleton in Hin as ->. vm_compute. discriminate.
  - exists (operation "read" "X"),
      {| pj_resourceType := "Patient"; pj_id := "X"; pj_versionId := "1" |},
      (patient "X" "1" LOCKED).
    split; [in_list |]. split; [vm_compute; reflexivity |].
    split; [vm_compute; reflexivity | discriminate].
  - exists response. split; [exact H1 | exact H2].
Defined.

(** Thirty locks, on thirty ids. *)
Definition thirty_locks : list ItemRequest :=
  map (λ n, lock "read" ("id-" +:+ toString (Z.of_nat n)) "1" None) (seq 0 30).

Lemma unlockItems_reports_unreleased_chunks_witness :
  (unlockItems (failing_at 1) (world []) thirty_locks true).1
  = {| successfulUnlock := false; locksFailedToRelease := drop 25 thirty_locks |}.
Proof.
  destruct (unlockItems_reports_unreleased_chunks (failing_at 1) (world [])
              thirty_locks true) as (_ & _ & _ & Hfail & _).
  assert (ev_ok <$> submitted (world [])
                      (unlockItems (failing_at 1) (world []) thirty_locks true).2
                    !! 1%nat
          = Some false) as Hev by (vm_compute; reflexivity).
  apply fmap_Some in Hev as (ev & Hev & Hok).
  destruct (Hfail 1%nat ev Hev (eq_sym Hok)) as (_ & _ & -> & ->).
  reflexivity.
Defined.

Definition two_resources : World :=
  world [patient "X" "3" AVAILABLE; patient "Y" "1" AVAILABLE].

Definition mixed_bundle : TransactionRequest :=
  bundle [operation "update" "X"; operation "create" "Z"; operation "read" "Y"].

Lemma transaction_keeps_one_available_version_witness :
  single_available (db two_resources)
  ∧ single_available (db (transaction calm two_resources mixed_bundle).2).
Proof.
  assert (single_available (db two_resources)) as Hs
    by (apply single_availableb_sound; vm_compute; reflexivity).
  split; [exact Hs |].
  apply (transaction_keeps_one_available_version calm two_resources mixed_bundle).
  - exact Hs.
  - apply calm_answers_for_id.
  - intros request Hin Hop. cases_in Hin; reflexivity.
  - intros request Hin Hop. cases_in Hin; try discriminate.
    apply darkb_sound. vm_compute. reflexivity.
Defined.

Lemma generateStagingRequests_update_defaults_to_version_1_witness :
  ∃ item rest,
    updateRequests
      (generateStagingRequests calm (world []) [operation "update" "X"] ∅).1
    = Put item :: rest
    ∧ item_vid item = "1".
Proof.
  destruct (generateStagingRequests_update_defaults_to_version_1 calm (world []) ∅
              [] [] (operation "update" "X") eq_refl (or_introl (lookup_empty _)))
    as (now & us & ks & es & Hu & _).
  eexists _, _. split; [exact Hu | reflexivity].
Defined.

(** ** Runs that refute a statement of the specification *)

(** Twenty-six deletes of a resource that the store does not hold. *)
Definition oversized : list BatchReadWriteRequest :=
  replicate 26 (operation "delete" "Y").

(** C5 as stated fails: every operation of [oversized] needs a lock on an id
    that is not found, yet the lock phase answers with the system error of
    the limit of 25 locks, whose message names no missing resource. *)
Lemma lockItems_over_limit_is_a_system_error :
  (∃ request, request ∈ nonCreate oversized
              ∧ not_found calm (db (world [])) request)
  ∧ lockItems calm (world []) oversized
    = (Resolved {| successfulLock := false;
                   lock_errorType := Some SYSTEM_ERROR;
                   errorMessage := Some "Cannot lock more than 25 items";
                   lockedItems := [] |}, world [])
  ∧ Some SYSTEM_ERROR ≠ Some USER_ERROR.
Proof.
  split; [| split; [vm_compute; reflexivity | discriminate]].
  exists (operation "delete" "Y"). split; [| vm_compute; reflexivity].
  apply list_elem_of_filter. split; [discriminate | by left].
Qed.

(** A store whose lookups time out, except for ids it knows to be absent. *)
Definition timing_out : Env :=
  {| getMostRecentResource :=
       λ _ _ id, if String.eqb id "Y" then ResourceNotFoundError
                 else LookupFailure (Error "Request timed out");
     storeFault := storeFault calm;
     clock := clock calm;
     toISOString := toISOString calm;
     uuidv4 := uuidv4 calm;
     maxExecutionTimeMs := None;
     LOCK_DURATION_SECONDS := "35" |}.

(** When a lookup fails otherwise than by not finding, the lock phase
    rejects, whatever is missing: it answers with no error type at all. *)
Lemma lockItems_rejects_when_a_lookup_fails :
  not_found timing_out (db (world [])) (operation "delete" "Y")
  ∧ lockItems timing_out (world []) [operation "read" "X"; operation "delete" "Y"]
    = (Rejected (Error "Request timed out"), world []).
Proof. split; vm_compute; reflexivity. Qed.

Definition locked_resource : World := world [patient "X" "1" LOCKED].

(** C6 as stated fails: the version looked up for the read of X is LOCKED, not
    AVAILABLE, and the lock phase, which does return [successfulLock] false,
    has submitted its status-update batch to the store. *)
Lemma lockItems_submits_the_batch_for_a_locked_version :
  lookup calm (db locked_resource) (operation "read" "X")
  = Found {| pj_resourceType := "Patient"; pj_id := "X"; pj_versionId := "1" |}
  ∧ documentStatus <$> db locked_resource !! ("X", "1") = Some LOCKED
  ∧ (∃ response,
       (lockItems calm locked_resource [operation "read" "X"]).1 = Resolved response
       ∧ successfulLock response = false)
  ∧ written (submitted locked_resource
               (lockItems calm locked_resource [operation "read" "X"]).2)
    = [[Update (Some AVAILABLE) LOCKED "X" (Some "1")]]
  ∧ written (submitted locked_resource
               (lockItems calm locked_resource [operation "read" "X"]).2) ≠ [].
Proof.
  split; [vm_compute; reflexivity |]. split; [vm_compute; reflexivity |].
  split; [eexists; split; [vm_compute; reflexivity | reflexivity] |].
  assert (written (submitted locked_resource
                     (lockItems calm locked_resource [operation "read" "X"]).2)
          = [[Update (Some AVAILABLE) LOCKED "X" (Some "1")]]) as ->
    by (vm_compute; reflexivity).
  split; [reflexivity | discriminate].
Qed.

Definition second_version : World := world [patient "X" "2" AVAILABLE].

Definition create_again : TransactionRequest := bundle [operation "create" "X"].

(** C8 as stated fails: the store holds one AVAILABLE version of X, version
    2; a transaction that creates a resource with the id X commits, and
    leaves versions 1 and 2 of X both AVAILABLE. *)
Lemma create_on_a_known_id_leaves_two_available_versions :
  single_available (db second_version)
  ∧ (∃ response,
       (transaction calm second_version create_again).1 = Resolved response
       ∧ success response = true)
  ∧ available (db (transaction calm second_version create_again).2) ("X", "1")
  ∧ available (db (transaction calm second_version create_again).2) ("X", "2")
  ∧ ¬ single_available (db (transaction calm second_version create_again).2).
Proof.
  assert (available (db (transaction calm second_version create_again).2) ("X", "1"))
    as H1 by (apply available_keys_spec; vm_compute; in_list).
  assert (available (db (transaction calm second_version create_again).2) ("X", "2"))
    as H2 by (apply available_keys_spec; vm_compute; in_list).
  split; [apply single_availableb_sound; vm_compute; reflexivity |].
  split; [eexists; split; [vm_compute; reflexivity | reflexivity] |].
  split; [done |]. split; [done |].
  intros Hs. by pose proof (Hs "X" "1" "2" H1 H2).
Qed.

Definition two_ids : World :=
  world [patient "X" "1" AVAILABLE; patient "Y" "2" AVAILABLE].

Definition update_of_another : TransactionRequest :=
  bundle [{| rq_operation := "update"; rq_resourceType := "Patient"; rq_id := "X";
             rq_resource := {| res_resourceType := "Patient"; res_id := "Y";
                               res_meta := None; res_content := "Doe" |} |}].

(** The same happens when the resource of an update carries another id than
    the operation: the update of X with the resource of Y commits version 1
    of Y beside its version 2. *)
Lemma update_with_another_id_leaves_two_available_versions :
  single_available (db two_ids)
  ∧ ¬ single_available (db (transaction calm two_ids update_of_another).2).
Proof.
  split; [apply single_availableb_sound; vm_compute; reflexivity |].
  apply single_availableb_complete. vm_compute. reflexivity.
Qed.

Definition without_Responses : option TransactGetItemsOutput :=
  Some {| Responses := None |}.

(** C4 on a read result that is an object without a [Responses] list: the
    one read envelope has no item, and what is thrown is the TypeError of
    indexing [undefined], not the incomplete-read error. *)
Lemma populate_without_Responses_throws_a_TypeError :
  nth_item without_Responses 0 = None
  ∧ populateBundleEntryResponseWithReadResult [envelope "read" "Y" "1"] without_Responses
    = ([envelope "read" "Y" "1"],
       Some (TypeError "Cannot read property of undefined"))
  ∧ TypeError "Cannot read property of undefined" ≠ incomplete_read.
Proof. repeat split. discriminate. Qed.

End Runs.

(** * Further properties of the staging helper *)

(** ** Version numbers

    The version of an update is computed by
    [((parseInt(idToVersionId[id], 10) || 0) + 1).toString()]: what the
    rendering and the reading of integers do to each other decides which
    version is staged. *)

Module Versions.

Import DynamoDbBundleServiceHelper HelperProperties.











End Versions.

(** ** The test factory (testUtilities/GenerateRollbackRequestsFactory.ts) *)

Module GenerateRollbackRequestsFactory.

Import DynamoDbBundleServiceHelper.

(** [buildExpectedBundleEntryResult]: the rollback the tests expect for one
    envelope; [None] is the object [{}] the function returns for an
    operation that is none of create, update, read and delete. *)
Definition buildExpectedBundleEntryResult (bundleEntryResponse : BatchReadWriteResponse)
    : option RollbackRequests :=
  let id := rs_id bundleEntryResponse in
  let vid := rs_vid bundleEntryResponse in
  let resourceType := rs_resourceType bundleEntryResponse in
  let operation := rs_operation bundleEntryResponse in
  if (String.eqb operation "create" || String.eqb operation "update")%bool then
    Some {| transactionRequests := [buildDeleteParam id vid];
            itemsToRemoveFromLock :=
              [{| rm_id := id; rm_vid := vid; rm_resourceType := resourceType |}] |}
  else if (String.eqb operation "read" || String.eqb operation "delete")%bool then
    Some {| transactionRequests := []; itemsToRemoveFromLock := [] |}
  else None.

End GenerateRollbackRequestsFactory.

Module MoreHelperProperties.

Import DynamoDbBundleServiceHelper HelperProperties ServiceProperties.

(** ** What staging answers *)

(** The operations [generateStagingRequests] has a case for. *)
Definition handled (r : BatchReadWriteRequest) : Prop :=
  is_create r ∨ is_update r ∨ is_delete r ∨ is_read r.

Global Instance handled_dec r : Decision (handled r).
Proof. unfold handled. apply _. Defined.

(** The envelope staged for a request. *)
Definition answers (env : Env) (m : gmap string string)
    (r : BatchReadWriteRequest) (e : BatchReadWriteResponse) : Prop :=
  rs_operation e = rq_operation r
  ∧ rs_resourceType e = rq_resourceType r
  ∧ rs_resource e = empty_object
  ∧ (is_create r →
       rs_vid e = Some "1"
       ∧ (if truthy (rq_id r) then rs_id e = rq_id r else ∃ n, rs_id e = uuidv4 env n))
  ∧ (is_update r →
       rs_id e = res_id (rq_resource r)
       ∧ rs_vid e = Some (next_version m (res_id (rq_resource r))))
  ∧ (is_delete r ∨ is_read r → rs_id e = rq_id r ∧ rs_vid e = m !! rq_id r)
  ∧ (if decide (is_read r) then rs_lastModified e = ""
     else ∃ k, rs_lastModified e = toISOString env (clock env k)).

(** The point get staged for a read. *)
Definition read_of (m : gmap string string) (r : BatchReadWriteRequest) : GetRequest :=
  {| get_id := rq_id r; get_vid := m !! rq_id r |}.

(** The lock record that goes with the envelope of a create or an update. *)
Definition lock_of_envelope (e : BatchReadWriteResponse) : ItemRequest :=
  {| it_id := rs_id e; it_vid := rs_vid e; it_resourceType := rs_resourceType e;
     it_operation := rs_operation e;
     isOriginalUpdateItem :=
       if decide (rs_operation e = "update") then Some false else None |}.

Lemma staging_answers env m l :
  ∀ acc,
    let res := fold_left (stage_request env m) l acc in
    ∃ es,
      newStagingResponses res.1 = newStagingResponses acc.1 ++ es
      ∧ Forall2 (answers env m) (filter handled l) es
      ∧ readRequests res.1 = readRequests acc.1 ++ map (read_of m) (filter is_read l)
      ∧ newLocks res.1 = newLocks acc.1 ++ map lock_of_envelope (filter wrote_row es).
Proof.
  induction l as [| r l IH]; intros acc; simpl.
  - exists []. rewrite !app_nil_r. by repeat split.
  - destruct (IH (stage_request env m acc r)) as (es & -> & Fes & -> & ->). clear IH.
    rewrite !filter_cons. destruct acc as [st w]. unfold stage_request.
    unfold handled in *.
    repeat case_eqb; repeat case_decide;
      try (exfalso; unfold is_create, is_update, is_delete, is_read in *;
           intuition congruence);
      simpl; rewrite <- ?app_assoc.
    + eexists (_ :: es). split; [done |]. split; [| split; [done |]].
      * constructor; [| done]. unfold answers. simpl.
        repeat split; try done;
          try (unfold is_create, is_update, is_delete, is_read in *;
               intros; exfalso; intuition congruence).
        -- destruct (truthy (rq_id r)); [done | by eexists].
        -- case_decide; [unfold is_read in *; congruence | by eexists].
      * rewrite filter_cons. rewrite decide_True by (by left). simpl.
        unfold lock_of_envelope at 2. simpl.
        rewrite decide_False by congruence.
        destruct (String.eqb_spec (rq_operation r) "update"); [congruence | done].
    + eexists (_ :: es). split; [done |]. split; [| split; [done |]].
      * constructor; [| done]. unfold answers. simpl.
        repeat split; try done;
          try (unfold is_create, is_update, is_delete, is_read in *;
               intros; exfalso; intuition congruence).
        case_decide; [unfold is_read in *; congruence | by eexists].
      * rewrite filter_cons. rewrite decide_True by (by right). simpl.
        unfold lock_of_envelope at 2. simpl.
        rewrite decide_True by done.
        destruct (String.eqb_spec (rq_operation r) "update"); [done | congruence].
    + eexists (_ :: es). split; [done |]. split; [| split; [done |]].
      * constructor; [| done]. unfold answers. simpl.
        repeat split; try done;
          try (unfold is_create, is_update, is_delete, is_read in *;
               intros; exfalso; intuition congruence).
        case_decide; [unfold is_read in *; congruence | by eexists].
      * rewrite filter_cons.
        rewrite decide_False by (unfold wrote_row; simpl; intuition congruence).
        done.
    + eexists (_ :: es). split; [done |]. split; [| split; [done |]].
      * constructor; [| done]. unfold answers. simpl.
        repeat split; try done;
          try (unfold is_create, is_update, is_delete, is_read in *;
               intros; exfalso; intuition congruence).
        case_decide; [done | unfold is_read in *; congruence].
      * rewrite filter_cons.
        rewrite decide_False by (unfold wrote_row; simpl; intuition congruence).
        done.
    + exists es. by repeat split.
Qed.

(** X3. [generateStagingRequests] answers every create, update, delete and
    read operation with one envelope, in the order of the operations, and
    nothing else: the envelope repeats the operation and the resource type of
    the request, holds an empty resource, and is addressed to version "1" of
    the given (else a minted) id for a create, to the next version of the
    resource's id for an update, and to the version the map holds for the
    request's id (possibly none) for a delete or a read; a read is stamped
    with the empty string, the others with a reading of the clock. The point
    gets are those of the reads, in order, at the version of the map. *)
Theorem generateStagingRequests_envelopes
    env w (requests : list BatchReadWriteRequest) (m : gmap string string) :
  let st := (generateStagingRequests env w requests m).1 in
  Forall2 (answers env m) (filter handled requests) (newStagingResponses st)
  ∧ readRequests st = map (read_of m) (filter is_read requests).
Proof.
  destruct (staging_answers env m requests (no_requests, w)) as (es & He & Fes & Hr & _).
  simpl. unfold generateStagingRequests. rewrite He, Hr. by split.
Qed.

Lemma wrote_rows_count env m (l : list BatchReadWriteRequest) :
  ∀ es, Forall2 (answers env m) (filter handled l) es →
        length (filter wrote_row es)
        = (length (filter is_create l) + length (filter is_update l))%nat.
Proof.
  induction l as [| r l IH]; intros es Fes.
  - by inversion Fes.
  - rewrite !filter_cons in *. destruct (decide (handled r)) as [Hr | Hr].
    + inversion Fes as [| ? e ? es' Hre Fes' ]. subst.
      rewrite filter_cons. specialize (IH _ Fes').
      destruct Hre as (Hop & _).
      destruct (decide (wrote_row e)) as [He | He]; unfold wrote_row in He;
        rewrite Hop in He;
        unfold handled, is_create, is_update, is_delete, is_read in *;
        repeat case_decide; simpl; try lia; exfalso; intuition congruence.
    + specialize (IH _ Fes). unfold handled in Hr.
      rewrite !decide_False by tauto. done.
Qed.

(** X4. The lock records that staging adds are those of the rows it puts:
    [newLocks] is, in order, one record per envelope of a create or an
    update, with the id, the version, the resource type and the operation of
    that envelope, and with [isOriginalUpdateItem] set, to false, exactly for
    an update. Deletes and reads add no lock: there are as many new locks as
    create and update operations. *)
Theorem generateStagingRequests_locks_mirror_envelopes
    env w (requests : list BatchReadWriteRequest) (m : gmap string string) :
  let st := (generateStagingRequests env w requests m).1 in
  newLocks st = map lock_of_envelope (filter wrote_row (newStagingResponses st))
  ∧ length (newLocks st)
    = (length (filter is_create requests) + length (filter is_update requests))%nat.
Proof.
  destruct (staging_answers env m requests (no_requests, w)) as (es & He & Fes & _ & Hk).
  simpl. unfold generateStagingRequests. rewrite He, Hk. simpl. split; [done |].
  rewrite length_map. by eapply wrote_rows_count.
Qed.

(** ** Merging read results, whatever the result *)

Lemma walk_keeps readResult rest :
  ∀ index i e,
    rest !! i = Some e → ¬ is_read_envelope e →
    (walk rest index readResult).1 !! i = Some e.
Proof.
  induction rest as [| e0 rest IH]; intros index i e Hi He; [done |].
  cbn [walk]. unfold is_read_envelope in *.
  destruct (String.eqb_spec (rs_operation e0) "read") as [E | E].
  - destruct (result_item readResult index) as [[item |] | x]; try done.
    specialize (IH (S index)).
    destruct (walk rest (S index) readResult) as [out x]. simpl in *.
    destruct i as [| i]; simpl in *; [congruence | by eapply IH].
  - specialize (IH index).
    destruct (walk rest index readResult) as [out x]. simpl in *.
    destruct i as [| i]; simpl in *; [done | by eapply IH].
Qed.

Lemma walk_without_reads readResult rest :
  ∀ index, filter is_read_envelope rest = [] → walk rest index readResult = (rest, None).
Proof.
  induction rest as [| e rest IH]; intros index Hf; [done |].
  rewrite filter_cons in Hf. cbn [walk]. unfold is_read_envelope in *.
  destruct (String.eqb_spec (rs_operation e) "read") as [E | E].
  - by rewrite decide_True in Hf.
  - rewrite decide_False in Hf by done. by rewrite (IH index Hf).
Qed.

(** X5. Whatever the read result, and whether it throws or not,
    [populateBundleEntryResponseWithReadResult] leaves the array with the
    same number of envelopes, each with the id, the version, the operation
    and the resource type it had; an envelope that is not a read is left
    exactly as it was; and an array without read envelope is returned as it
    is, without a throw, even for a result that holds nothing. *)
Theorem populateBundleEntryResponseWithReadResult_keeps_targets
    (l : list BatchReadWriteResponse) (readResult : option TransactGetItemsOutput) :
  let result := populateBundleEntryResponseWithReadResult l readResult in
  Forall2 same_target l result.1
  ∧ (∀ i e, l !! i = Some e → ¬ is_read_envelope e → result.1 !! i = Some e)
  ∧ (filter is_read_envelope l = [] → result = (l, None)).
Proof.
  simpl. rewrite populate_walk. split; [| split].
  - apply walk_same_target.
  - apply walk_keeps.
  - apply walk_without_reads.
Qed.

(** ** Rolling back, as the tests expect it *)

Import GenerateRollbackRequestsFactory.

(** The arrays of several rollbacks, put end to end. *)
Definition merged (rs : list RollbackRequests) : RollbackRequests :=
  {| transactionRequests := concat (map transactionRequests rs);
     itemsToRemoveFromLock := concat (map itemsToRemoveFromLock rs) |}.

(** X6. [generateRollbackRequests] meets the expectation the test factory
    builds: for envelopes whose operations are among create, update, read and
    delete (those for which [buildExpectedBundleEntryResult] gives the two
    arrays), the rollback of the list is the expected rollbacks of its
    envelopes put end to end; for one envelope it is the expected one. *)
Theorem generateRollbackRequests_meets_the_expectation
    (l : list BatchReadWriteResponse) (rs : list RollbackRequests) :
  mapM buildExpectedBundleEntryResult l = Some rs →
  generateRollbackRequests l = merged rs.
Proof.
  intros Hrs. unfold generateRollbackRequests.
  change (fold_left _ l ?acc) with (fold_left rollback_step l acc).
  rewrite rollback_fold. simpl. unfold merged.
  revert rs Hrs. induction l as [| e l IH]; intros rs Hrs.
  - by injection Hrs as <-.
  - simpl in Hrs.
    destruct (buildExpectedBundleEntryResult e) as [x |] eqn:Hx; [| done].
    simpl in Hrs.
    destruct (mapM buildExpectedBundleEntryResult l) as [xs |] eqn:Hxs; [| done].
    injection Hrs as <-. specialize (IH _ eq_refl). injection IH as IH1 IH2.
    rewrite filter_cons. unfold buildExpectedBundleEntryResult in Hx.
    destruct (decide (wrote_row e)) as [He | He]; unfold wrote_row in He.
    + assert ((String.eqb (rs_operation e) "create"
               || String.eqb (rs_operation e) "update")%bool = true) as Hb.
      { destruct He as [-> | ->]; reflexivity. }
      rewrite Hb in Hx. injection Hx as <-. simpl. by rewrite IH1, IH2.
    + assert ((String.eqb (rs_operation e) "create"
               || String.eqb (rs_operation e) "update")%bool = false) as Hb.
      { repeat case_eqb; simpl; tauto. }
      rewrite Hb in Hx. destruct (_ || _)%bool; [| done].
      injection Hx as <-. simpl. by rewrite IH1, IH2.
Qed.

End MoreHelperProperties.

(** * Further properties of the coordinator *)

Module MoreServiceProperties.

Import DynamoDbBundleServiceHelper DynamoDbBundleService.
Import HelperProperties ServiceProperties MoreHelperProperties.

(** ** The lock phase *)

Lemma first_failure_origin (f : BatchReadWriteRequest → Lookup) l e :
  first_failure (map f l) = Some e →
  ∃ request, request ∈ l ∧ f request = LookupFailure e.
Proof.
  induction l as [| r l IH]; [done |]. simpl.
  destruct (f r) as [p | | e'] eqn:Hr.
  - intros H. destruct (IH H) as (r' & ? & ?). exists r'. split; [by right | done].
  - intros H. destruct (IH H) as (r' & ? & ?). exists r'. split; [by right | done].
  - intros [= ->]. exists r. split; [by left | done].
Qed.

Lemma no_locks_without_rows env d (l : list BatchReadWriteRequest) :
  omap (found env d) l = [] →
  omap (λ request, (λ p, lock_of p request) <$> found env d request) l = [].
Proof.
  induction l as [| r l IH]; [done |]. simpl.
  destruct (found env d r); simpl; [done | exact IH].
Qed.

(** The three ways [lockItems] ends: it rejects; it resolves without having
    looked at the table; or it goes on to lock the versions found. *)
Lemma lockItems_cases env w requests :
  (∃ e request, lockItems env w requests = (Rejected e, w)
                ∧ request ∈ nonCreate requests
                ∧ lookup env (db w) request = LookupFailure e)
  ∨ (∃ response, lockItems env w requests = (Resolved response, w)
                 ∧ lockedItems response = []
                 ∧ successfulLock response = false
                 ∧ is_Some (lock_errorType response)
                 ∧ is_Some (errorMessage response))
  ∨ ((length (nonCreate requests) ≤ 25)%nat
     ∧ lookups_complete env (db w) requests
     ∧ filter (not_found env (db w)) (nonCreate requests) = []
     ∧ let ps := omap (found env (db w)) (nonCreate requests) in
       let locks := omap (λ request, (λ p, lock_of p request)
                                       <$> found env (db w) request)
                      (nonCreate requests) in
       let r := transactWriteItems env w (map lock_request_of ps) in
       lockItems env w requests
       = match ps with
         | [] => (Resolved {| successfulLock := true; lock_errorType := None;
                              errorMessage := None; lockedItems := locks |}, w)
         | _ =>
             (Resolved
                (if r.1
                 then {| successfulLock := true; lock_errorType := None;
                         errorMessage := None; lockedItems := locks |}
                 else {| successfulLock := false; lock_errorType := Some SYSTEM_ERROR;
                         errorMessage :=
                           Some ("Failed to lock resources for transaction. Please try again after "
                                 +:+ LOCK_DURATION_SECONDS env +:+ " seconds.");
                         lockedItems := [] |}), r.2)
         end).
Proof.
  destruct (decide (length (nonCreate requests) ≤ 25)%nat) as [Hlen | Hlen].
  - destruct (first_failure (map (lookup env (db w)) (nonCreate requests)))
      as [e |] eqn:Hfail.
    + left. destruct (first_failure_origin _ _ _ Hfail) as (request & Hin & Hr).
      exists e, request. split; [by apply lockItems_rejects | done].
    + right. pose proof (first_failure_complete _ _ Hfail) as Hcomplete.
      pose proof (lockItems_run env w requests Hlen Hcomplete) as Hrun.
      simpl in Hrun.
      destruct (filter (not_found env (db w)) (nonCreate requests)) as [| m ms] eqn:Hm.
      * right. split; [done |]. split; [done |]. split; [done |]. simpl.
        rewrite addLockRequests_map in Hrun. rewrite Hrun.
        destruct (omap (found env (db w)) (nonCreate requests)) as [| p ps] eqn:Hps;
          [| done].
        by rewrite (no_locks_without_rows _ _ _ Hps).
      * left. eexists. split; [exact Hrun |]. by repeat split.
  - right. left. eexists. split; [apply lockItems_over_limit; lia |]. by repeat split.
Qed.

(** X7. [lockItems] holds locks only when it reports success. Whatever the
    requests, the lookups and the faults of the store: when the promise
    rejects, it rejects with the failure of a lookup of one of the
    operations that are not creates, and nothing was submitted; when it
    resolves without success, no lock is returned, the table is as it was,
    and an error type and a message are given; when it resolves with
    success there is neither. In no case is the clock read or an identifier
    minted. *)
Theorem lockItems_holds_locks_only_on_success env w requests :
  match lockItems env w requests with
  | (Rejected e, w') =>
      w' = w
      ∧ ∃ request, request ∈ nonCreate requests
                   ∧ lookup env (db w) request = LookupFailure e
  | (Resolved response, w') =>
      ticks w' = ticks w ∧ minted w' = minted w
      ∧ (successfulLock response = true →
           lock_errorType response = None ∧ errorMessage response = None)
      ∧ (successfulLock response = false →
           lockedItems response = [] ∧ db w' = db w
           ∧ is_Some (lock_errorType response) ∧ is_Some (errorMessage response))
  end.
Proof.
  destruct (lockItems_cases env w requests)
    as [(e & request & -> & Hin & Hr)
       | [(response & -> & Hno & -> & ? & ?) | (_ & _ & _ & Hrun)]].
  - split; [done | by exists request].
  - by repeat split.
  - simpl in Hrun. rewrite Hrun. clear Hrun.
    destruct (omap (found env (db w)) (nonCreate requests)) as [| p ps];
      [by repeat split |].
    destruct (transactWriteItems_spec env w (map lock_request_of (p :: ps)))
      as (Ht & Hm & _ & Hdb).
    simpl in Ht, Hm, Hdb. split; [done |]. split; [done |].
    destruct (transactWriteItems env w _).1; simpl; by repeat split.
Qed.


(** The effect of a lock batch that goes through, row by row. *)
Lemma lock_batch_rows (ps : list Projection) :
  ∀ d d',
    apply_writes d (map lock_request_of ps) = Some d' →
    (∀ p, p ∈ ps → ∃ it, d !! row p = Some it ∧ documentStatus it = AVAILABLE
                         ∧ d' !! row p = Some (set_status LOCKED it))
    ∧ (∀ k, k ∉ map row ps → d' !! k = d !! k)
    ∧ NoDup (map row ps).
Proof.
  induction ps as [| p ps IH]; intros d d' Ha.
  - injection Ha as <-. split; [| split]; [by intros p Hp%elem_of_nil | done | constructor].
  - cbn [map apply_writes] in Ha.
    destruct (apply_write d (lock_request_of p)) as [d1 |] eqn:Hw; [| done].
    unfold lock_request_of, apply_write in Hw.
    destruct (d !! (pj_id p, pj_versionId p)) as [it |] eqn:Hit; [| done].
    destruct (decide (documentStatus it = AVAILABLE)) as [Hst | Hst]; [| done].
    injection Hw as <-.
    destruct (IH _ _ Ha) as (Hrows & Hother & Hnd). clear IH.
    assert (row p ∉ map row ps) as Hfresh.
    { intros Hin. apply list_elem_of_fmap in Hin as (q & Hq & Hin).
      destruct (Hrows q Hin) as (it' & Hit' & Hst' & _).
      rewrite <- Hq in Hit'. unfold row in Hit'.
      rewrite lookup_insert_eq in Hit'. injection Hit' as <-. done. }
    split; [| split].
    + intros q Hq. apply elem_of_cons in Hq as [-> | Hq].
      * exists it. split; [done |]. split; [done |].
        rewrite (Hother _ Hfresh). unfold row. by rewrite lookup_insert_eq.
      * destruct (Hrows q Hq) as (it' & Hit' & Hst' & Hd').
        assert (row q ≠ row p) as Hne.
        { intros E. apply Hfresh. rewrite <- E. apply list_elem_of_fmap. by exists q. }
        unfold row in *. rewrite lookup_insert_ne in Hit' by done.
        by exists it'.
    + intros k Hk. cbn [map] in Hk. apply not_elem_of_cons in Hk as [Hne Hk].
      rewrite (Hother k Hk). unfold row in Hne. by rewrite lookup_insert_ne.
    + cbn [map]. by constructor.
Qed.

(** The lock of a request whose lookup found a version. *)
Definition locks_request (env : Env) (d : Db)
    (request : BatchReadWriteRequest) (l : ItemRequest) : Prop :=
  ∃ p, lookup env d request = Found p ∧ l = lock_of p request.

Lemma omap_all_found env d (l : list BatchReadWriteRequest) :
  (∀ request e, request ∈ l → lookup env d request ≠ LookupFailure e) →
  filter (not_found env d) l = [] →
  Forall2 (locks_request env d) l
    (omap (λ request, (λ p, lock_of p request) <$> found env d request) l).
Proof.
  induction l as [| r l IH]; intros Hc Hm; [constructor |].
  rewrite filter_cons in Hm.
  destruct (decide (not_found env d r)) as [Hr | Hr]; [done |].
  unfold not_found in Hr.
  destruct (lookup env d r) as [p | | e] eqn:Hl.
  - assert (found env d r = Some p) as Hf by (unfold found; by rewrite Hl).
    simpl. rewrite Hf. simpl. constructor.
    + by exists p.
    + apply IH; [| done]. intros request e Hin. apply Hc. by right.
  - done.
  - exfalso. eapply Hc; [by left | done].
Qed.

(** What a successful lock phase returns and does. *)
Lemma lock_success_rows env w requests response w' :
  lockItems env w requests = (Resolved response, w') →
  successfulLock response = true →
  Forall2 (locks_request env (db w)) (nonCreate requests) (lockedItems response)
  ∧ (∀ l, l ∈ lockedItems response →
       ∃ v it, it_vid l = Some v
               ∧ db w !! (it_id l, v) = Some it ∧ documentStatus it = AVAILABLE
               ∧ db w' !! (it_id l, v) = Some (set_status LOCKED it))
  ∧ (∀ k, (k.1, Some k.2) ∉ map (λ l, (it_id l, it_vid l)) (lockedItems response) →
          db w' !! k = db w !! k)
  ∧ NoDup (map (λ l, (it_id l, it_vid l)) (lockedItems response))
  ∧ (length (nonCreate requests) ≤ 25)%nat.
Proof.
  intros Hlock Hok.
  destruct (lockItems_cases env w requests)
    as [(e & request & Hrej & _)
       | [(response' & Hres & _ & Hf & _) | (Hlen & Hcomplete & Hmissing & Hrun)]].
  - congruence.
  - rewrite Hres in Hlock. injection Hlock as <- <-. congruence.
  - simpl in Hrun. rewrite Hrun in Hlock. clear Hrun.
    pose proof (omap_all_found env (db w) _ Hcomplete Hmissing) as Flocks.
    pose proof (locks_rows env (db w) (nonCreate requests)) as Hkeys.
    set (ps := omap (found env (db w)) (nonCreate requests)) in *.
    set (locks := omap (λ request, (λ p, lock_of p request) <$> found env (db w) request)
                    (nonCreate requests)) in *.
    assert (lockedItems response = locks
            ∧ apply_writes (db w) (map lock_request_of ps) = Some (db w'))
      as [-> Happly].
    { destruct ps as [| p ps'] eqn:Hps.
      - injection Hlock as <- <-. by split.
      - destruct (transactWriteItems_spec env w (map lock_request_of (p :: ps')))
          as (_ & _ & _ & Hdb).
        destruct (transactWriteItems env w (map lock_request_of (p :: ps')))
          as [[|] w1]; simpl in *; injection Hlock as <- <-; [by split | done]. }
    destruct (lock_batch_rows ps _ _ Happly) as (Hrows & Hother & Hnd).
    assert (Inj eq eq (λ k : string * string, (k.1, Some k.2))) as Hinj.
    { intros [a b] [a' b'] [= -> ->]. done. }
    split; [done |]. split; [| split; [| split; [| done]]].
    + intros l Hl.
      assert ((it_id l, it_vid l) ∈ map (λ k, (it_id k, it_vid k)) locks) as Hk.
      { apply list_elem_of_fmap. by exists l. }
      rewrite Hkeys in Hk. apply list_elem_of_fmap in Hk as (k & Hk & Hin).
      apply list_elem_of_fmap in Hin as (p & -> & Hp).
      injection Hk as Hid Hvid.
      destruct (Hrows p Hp) as (it & ? & ? & ?).
      exists (pj_versionId p), it. rewrite Hid. by repeat split.
    + intros k Hk. apply Hother. intros Hin. apply Hk. rewrite Hkeys.
      apply list_elem_of_fmap. by exists k.
    + rewrite Hkeys. by apply NoDup_fmap_2.
Qed.

(** X8. When [lockItems] reports success, it returns one lock per operation
    that is not a create, in the order of the operations: the lock carries
    the id, the resource type and the version the lookup found, the
    operation of the request, and [isOriginalUpdateItem] set, to true,
    exactly for an update. The row of every lock was AVAILABLE and is now
    LOCKED, otherwise unchanged; every other row of the table is as it
    was; no two locks are on the same row; and at most 25 operations are not
    creates. *)
Theorem lockItems_locks_the_versions_found env w requests response w' :
  lockItems env w requests = (Resolved response, w') →
  successfulLock response = true →
  Forall2 (locks_request env (db w)) (nonCreate requests) (lockedItems response)
  ∧ (∀ l, l ∈ lockedItems response →
       ∃ v it, it_vid l = Some v
               ∧ db w !! (it_id l, v) = Some it ∧ documentStatus it = AVAILABLE
               ∧ db w' !! (it_id l, v) = Some (set_status LOCKED it))
  ∧ (∀ k, (k.1, Some k.2) ∉ map (λ l, (it_id l, it_vid l)) (lockedItems response) →
          db w' !! k = db w !! k)
  ∧ NoDup (map (λ l, (it_id l, it_vid l)) (lockedItems response))
  ∧ (length (nonCreate requests) ≤ 25)%nat.
Proof. apply lock_success_rows. Qed.



(** ** Releasing *)

Lemma unlock_from_calm env rollBack (cs : list (list ItemRequest)) :
  Forall (λ c, (length c ≤ 25)%nat) cs →
  ∀ w i chunks,
    (∀ k, (length (events w) ≤ k)%nat → storeFault env k = false) →
    let r := unlock_from env w i (map (map (release rollBack)) cs) chunks in
    r.1 = {| successfulUnlock := true; locksFailedToRelease := [] |}
    ∧ length (events r.2) = (length (events w) + length cs)%nat.
Proof.
  induction 1 as [| c cs Hc _ IH]; intros w i chunks Hcalm.
  - simpl. split; [done | lia].
  - cbn [map unlock_from].
    destruct (transactWriteItems_spec env w (map (release rollBack) c))
      as (_ & _ & Hev & _).
    unfold transactWriteItems in *.
    rewrite (Hcalm (length (events w))) in * by lia.
    rewrite length_map in *.
    destruct (Nat.ltb_spec MAX_BATCH_ITEMS (length c)) as [Hgt | _];
      [unfold MAX_BATCH_ITEMS in Hgt; lia |].
    destruct (releases_apply rollBack c (db w)) as [d' Hd']. rewrite Hd' in *.
    simpl in Hev.
    match goal with
    | |- context [unlock_from env ?w1 _ _ _] =>
        destruct (IH w1 (S i) chunks) as [-> Hlen]
    end.
    + intros k Hk. apply Hcalm. simpl in Hk. rewrite length_app in Hk. lia.
    + split; [done |]. rewrite Hlen. simpl. rewrite length_app. simpl. lia.
Qed.

Lemma chunkArray_length {A} (l : list A) :
  length (chunkArray l 25) = ((length l + 24) / 25)%nat.
Proof.
  induction l as [| x l IH] using (chunk_ind 25 ltac:(lia)); [done |].
  rewrite chunkArray_cons by lia. cbn [length]. rewrite IH.
  rewrite length_drop. cbn [length].
  destruct (decide (S (length l) ≤ 25)%nat) as [Hle | Hgt].
  - replace (S (length l) - 25)%nat with 0%nat by lia.
    change ((0 + 24) / 25)%nat with 0%nat.
    apply (Nat.div_unique _ 25 1 (length l)); lia.
  - replace (S (length l) + 24)%nat with ((S (length l) - 25 + 24) + 1 * 25)%nat by lia.
    rewrite Nat.div_add by lia. lia.
Qed.

(** Without a fault of the store every batch of the unlock goes through. *)
Lemma unlockItems_calm env w locks rollBack :
  (∀ k, (length (events w) ≤ k)%nat → storeFault env k = false) →
  let r := unlockItems env w locks rollBack in
  r.1 = {| successfulUnlock := true; locksFailedToRelease := [] |}
  ∧ length (events r.2)
    = (length (events w) + length (chunkArray locks MAX_TRANSACTION_SIZE))%nat.
Proof.
  intros Hcalm r. subst r. rewrite unlockItems_loop.
  rewrite (map_ext (map (unlock_request rollBack)) (map (release rollBack))).
  - apply unlock_from_calm; [| done].
    eapply Forall_impl; [apply chunkArray_bound; unfold MAX_TRANSACTION_SIZE; lia |].
    simpl. unfold MAX_TRANSACTION_SIZE. lia.
  - intros c. apply map_ext. intros l. apply unlock_request_release.
Qed.

(** X9. [unlockItems] fails only when the store does. The status updates
    it submits name a version ("0" for a lock without one) and carry no
    condition, and its batches hold at most 25 of them: if the store has no
    fault of its own from the call on, every batch goes through, success is
    reported with an empty [locksFailedToRelease], and the lock set was
    released in the least number of batches of 25 that holds it. *)
Theorem unlockItems_fails_only_when_the_store_does env w lockedItems rollBack :
  (∀ k, (length (events w) ≤ k)%nat → storeFault env k = false) →
  let r := unlockItems env w lockedItems rollBack in
  r.1 = {| successfulUnlock := true; locksFailedToRelease := [] |}
  ∧ Forall (λ ev, ev_ok ev = true) (submitted w r.2)
  ∧ length (submitted w r.2) = ((length lockedItems + 24) / 25)%nat.
Proof.
  intros Hcalm r.
  destruct (unlockItems_spec env w lockedItems rollBack)
    as (j & news & Hj & Hev & _ & Hok & Hr & _).
  destruct (unlockItems_calm env w lockedItems rollBack Hcalm) as [Hres Hlen].
  fold r in Hev, Hr, Hres, Hlen.
  split; [done |].
  rewrite (submitted_app _ _ _ Hev).
  rewrite Hev, length_app in Hlen.
  assert (length news = length (chunkArray lockedItems MAX_TRANSACTION_SIZE)) as Hn by lia.
  split; [| rewrite Hn; apply chunkArray_length].
  rewrite Hres in Hr. case_decide; [done |].
  apply Forall_forall. intros ev Hin.
  assert (ev_ok ev ∈ map ev_ok news) as Hin' by (apply list_elem_of_fmap; by exists ev).
  rewrite Hok, app_nil_r in Hin'. by apply elem_of_replicate in Hin' as [? _].
Qed.

(** The table after the releases of a rollback: every row named by a lock is
    AVAILABLE, otherwise as it was (a bare row if there was none). *)
Definition reopened (d : Db) (k : string * string) : Item :=
  match d !! k with
  | Some it => set_status AVAILABLE it
  | None => bare_item k.1 k.2 AVAILABLE
  end.

Lemma rollback_releases (ls : list ItemRequest) :
  ∀ d d',
    apply_writes d (map (release true) ls) = Some d' →
    ∀ k, d' !! k = if decide (k ∈ map lock_key ls) then Some (reopened d k) else d !! k.
Proof.
  induction ls as [| l ls IH]; intros d d' Ha k.
  - injection Ha as <-. rewrite decide_False; [done | apply not_elem_of_nil].
  - cbn [map apply_writes] in Ha.
    destruct (apply_write d (release true l)) as [d1 |] eqn:Hw; [| done].
    rewrite (IH _ _ Ha k). clear IH Ha.
    assert (d1 = <[lock_key l := reopened d (lock_key l)]> d) as ->.
    { unfold release, apply_write, released_status in Hw. unfold reopened.
      destruct (lock_key l) as [id v]. simpl in *.
      destruct (d !! (id, v)); by injection Hw as <-. }
    cbn [map]. destruct (decide (k = lock_key l)) as [-> | Hne].
    + rewrite (decide_True (P := lock_key l ∈ lock_key l :: _)) by (by left).
      case_decide; [| by rewrite lookup_insert_eq].
      f_equal. unfold reopened at 1. rewrite lookup_insert_eq.
      unfold reopened. by destruct (d !! lock_key l).
    + unfold reopened at 1. rewrite !lookup_insert_ne by done. fold (reopened d k).
      destruct (decide (k ∈ map lock_key ls)) as [Hin | Hin].
      * rewrite decide_True; [done | by right].
      * rewrite decide_False; [done |]. by apply not_elem_of_cons.
Qed.

(** Rows that were locked and are then reopened are what they were. *)
Lemma locked_rows_reopen env w requests response w1 d :
  lockItems env w requests = (Resolved response, w1) →
  (∀ l, l ∈ lockedItems response → it_vid l ≠ Some "") →
  apply_writes (db w1) (map (release true) (lockedItems response)) = Some d →
  d = db w.
Proof.
  intros Hlock Hvid Ha.
  pose proof (rollback_releases _ _ _ Ha) as Hafter. clear Ha.
  destruct (successfulLock response) eqn:Hs.
  - destruct (lock_success_rows env w requests response w1 Hlock Hs)
      as (_ & Hrows & Hother & _).
    apply map_eq. intros k. rewrite Hafter.
    assert (∀ l, l ∈ lockedItems response →
                 ∃ v it, lock_key l = (it_id l, v)
                         ∧ it_vid l = Some v
                         ∧ db w !! (it_id l, v) = Some it
                         ∧ documentStatus it = AVAILABLE
                         ∧ db w1 !! (it_id l, v) = Some (set_status LOCKED it)) as Hkeys.
    { intros l Hl. destruct (Hrows l Hl) as (v & it & Hv & ? & ? & ?).
      specialize (Hvid l Hl). exists v, it. split; [| done].
      unfold lock_key. rewrite Hv. rewrite Hv in Hvid.
      destruct v; [done | reflexivity]. }
    case_decide as Hk.
    + apply list_elem_of_fmap in Hk as (l & -> & Hl).
      destruct (Hkeys l Hl) as (v & it & -> & _ & Hit & Hst & Hit1).
      unfold reopened. rewrite Hit1, Hit. f_equal.
      destruct it; simpl in *; by subst.
    + apply Hother. intros Hin. apply Hk.
      apply list_elem_of_fmap in Hin as (l & Hl & Hin).
      destruct (Hkeys l Hin) as (v & it & Hkey & Hv & _).
      apply list_elem_of_fmap. exists l. split; [| done].
      rewrite Hkey. rewrite Hv in Hl. destruct k as [k1 k2]. simpl in Hl. congruence.
  - assert (lockedItems response = [] ∧ db w1 = db w) as [Hno Hdb].
    { destruct (lockItems_cases env w requests)
        as [(e & request & Hrej & _)
           | [(response' & Hres & Hno & _) | (_ & _ & _ & Hrun)]].
      - congruence.
      - rewrite Hres in Hlock. by injection Hlock as <- <-.
      - simpl in Hrun. rewrite Hrun in Hlock. clear Hrun.
        destruct (omap (found env (db w)) (nonCreate requests)) as [| p ps].
        + injection Hlock as <- <-. done.
        + destruct (transactWriteItems_spec env w (map lock_request_of (p :: ps)))
            as (_ & _ & _ & Hdb).
          destruct (transactWriteItems env w (map lock_request_of (p :: ps)))
            as [[|] w2]; simpl in *; injection Hlock as <- <-; done. }
    apply map_eq. intros k. rewrite Hafter, Hno.
    rewrite decide_False; [by rewrite Hdb | apply not_elem_of_nil].
Qed.

(** The batches that went through when [unlockItems] reports success. *)
Lemma unlocked_all env w locks rollBack :
  let r := unlockItems env w locks rollBack in
  successfulUnlock r.1 = true →
  apply_writes (db w) (map (release rollBack) locks) = Some (db r.2).
Proof.
  intros r Hok.
  destruct (unlockItems_spec env w locks rollBack)
    as (j & news & Hj & _ & _ & _ & Hr & Ha & _).
  fold r in Hr, Ha. rewrite Hr in Hok. case_decide; [done |].
  rewrite take_ge in Ha by (rewrite length_map; lia).
  rewrite <- concat_map, chunkArray_concat in Ha by (unfold MAX_TRANSACTION_SIZE; lia).
  by rewrite (map_ext _ _ (unlock_request_release rollBack)) in Ha.
Qed.

(** X10. Locking and then releasing with rollback is a round trip: if
    [lockItems] resolves, with or without success, and every lock it returns
    carries a version that is not the empty string, then after
    [unlockItems] of those locks with rollback, when it reports success, the
    table is what it was before the lock phase, row for row. (A lock whose
    version is the empty string is released at version "0": the row that was
    locked stays LOCKED.) *)
Theorem lock_then_roll_back_restores_the_table env w requests response w1 :
  lockItems env w requests = (Resolved response, w1) →
  (∀ l, l ∈ lockedItems response → it_vid l ≠ Some "") →
  let r := unlockItems env w1 (lockedItems response) true in
  successfulUnlock r.1 = true →
  db r.2 = db w.
Proof.
  intros Hlock Hvid r Hok. eapply locked_rows_reopen; [done | done |].
  by apply unlocked_all.
Qed.



(** ** Pruning the lock set *)













(** ** The rollback *)

(** The key of the row an envelope is addressed to. *)
Definition target (e : BatchReadWriteResponse) : string * option string :=
  (rs_id e, rs_vid e).

Lemma rollback_deletes (es : list BatchReadWriteResponse) :
  ∀ d d',
    apply_writes d (map rollback_delete es) = Some d' →
    ∀ k, d' !! k = if decide ((k.1, Some k.2) ∈ map target es) then None else d !! k.
Proof.
  induction es as [| e es IH]; intros d d' Ha k.
  - injection Ha as <-. rewrite decide_False; [done | apply not_elem_of_nil].
  - cbn [map apply_writes] in Ha. unfold rollback_delete at 1 in Ha. simpl in Ha.
    destruct (rs_vid e) as [v |] eqn:Hv; [| done].
    rewrite (IH _ _ Ha k). clear IH Ha. cbn [map].
    replace (target e) with (rs_id e, Some v) by (unfold target; by rewrite Hv).
    destruct (decide ((k.1, Some k.2) ∈ map target es)) as [Hin | Hin].
    + rewrite decide_True; [done | by right].
    + destruct (decide (k = (rs_id e, v))) as [-> | Hne].
      * rewrite lookup_delete_eq. rewrite decide_True; [done | by left].
      * rewrite lookup_delete_ne by done. rewrite decide_False; [done |].
        apply not_elem_of_cons. split; [| done].
        intros [= ? ?]. apply Hne. by destruct k; simpl in *; subst.
Qed.

(** X13. [rollbackItems] submits one write batch, whatever the envelopes,
    even when there is nothing to delete: the deletes of the rows addressed
    by the envelopes of creates and updates, in order. If the batch goes
    through, each of those rows is gone and every other row is as it was; if
    it does not, the table is as it was. In both cases the lock set returned
    is the given one pruned of the locks on those rows: the failure of the
    batch is not reported. *)
Theorem rollbackItems_deletes_the_staged_rows env w responses locks :
  let staged := filter wrote_row responses in
  let r := rollbackItems env w responses locks in
  r.1 = removeLocksFromArray locks (map rollback_removal staged)
  ∧ ∃ ok,
      submitted w r.2
      = [{| ev_call := TransactWrite (map rollback_delete staged);
            ev_ok := ok; ev_after := db r.2 |}]
      ∧ (ok = false → db r.2 = db w)
      ∧ (ok = true →
           ∀ k, db r.2 !! k
                = if decide ((k.1, Some k.2) ∈ map target staged) then None
                  else db w !! k).
Proof.
  simpl. unfold rollbackItems. rewrite rollback_removals.
  assert (transactionRequests (generateRollbackRequests responses)
          = map rollback_delete (filter wrote_row responses)) as ->.
  { unfold generateRollbackRequests.
    change (fold_left _ responses ?a) with (fold_left rollback_step responses a).
    by rewrite rollback_fold. }
  destruct (transactWriteItems_spec env w
              (map rollback_delete (filter wrote_row responses)))
    as (_ & _ & Hev & Hdb).
  destruct (transactWriteItems env w _) as [ok w']. simpl in *.
  split; [done |]. exists ok. split; [by apply submitted_app |].
  destruct ok; split; try done.
  intros _. by apply rollback_deletes.
Qed.


(** ** Staging *)

(** The two ways [stageItems] ends: nothing written and nothing reported, or
    the whole write batch applied and every staged envelope reported. *)
Lemma stageItems_cases env w requests locks :
  let st := (generateStagingRequests env w requests (version_map locks)).1 in
  let r := stageItems env w requests locks in
  (r.1 = {| stage_success := false; stage_batchReadWriteResponses := [];
            stage_lockedItems := locks |}
   ∧ db r.2 = db w
   ∧ editRequests st ≠ []
   ∧ ∃ ev, submitted w r.2 = [ev] ∧ ev_call ev = TransactWrite (editRequests st)
           ∧ ev_ok ev = false)
  ∨ (apply_writes (db w) (editRequests st) = Some (db r.2)
     ∧ stage_lockedItems r.1 = locks ++ newLocks st
     ∧ Forall2 same_target (newStagingResponses st) (stage_batchReadWriteResponses r.1)
     ∧ (stage_success r.1 = false → readRequests st ≠ [])
     ∧ ∃ news, events r.2 = events w ++ news).
Proof.
  intros st r. subst st r. unfold stageItems.
  pose proof (generateStagingRequests_world env w requests (version_map locks))
    as [Hdb Hev].
  destruct (generateStagingRequests env w requests (version_map locks)) as [st w1].
  simpl in Hdb, Hev. simpl fst. fold (editRequests st).
  assert (∃ written w2,
            (if Nat.ltb 0 (length (editRequests st))
             then transactWriteItems env w1 (editRequests st)
             else (true, w1)) = (written, w2)
            ∧ (∃ news, events w2 = events w ++ news)
            ∧ (if written then apply_writes (db w) (editRequests st) = Some (db w2)
               else db w2 = db w ∧ editRequests st ≠ []
                    ∧ submitted w w2
                      = [{| ev_call := TransactWrite (editRequests st);
                            ev_ok := false; ev_after := db w2 |}]))
    as (written & w2 & -> & (news2 & Hev2) & Hw).
  { destruct (editRequests st) as [| x xs] eqn:He; simpl length; simpl Nat.ltb; cbv iota.
    - exists true, w1. split; [done |]. split; [exists []; by rewrite app_nil_r |].
      simpl. by rewrite Hdb.
    - destruct (transactWriteItems_spec env w1 (x :: xs)) as (_ & _ & Hev2 & Hdb2).
      destruct (transactWriteItems env w1 (x :: xs)) as [ok w2]. simpl in *.
      exists ok, w2. split; [done |]. rewrite Hev in Hev2.
      split; [by eexists |]. destruct ok.
      + by rewrite <- Hdb.
      + split; [congruence |]. split; [done |]. by apply submitted_app. }
  destruct written; simpl.
  2:{ left. destruct Hw as (? & ? & Hsub). split; [done |]. split; [done |].
      split; [done |]. eexists. by split. }
  right.
  destruct (readRequests st) as [| g gs] eqn:Hg; simpl length; simpl Nat.ltb; cbv iota.
  { simpl. split; [done |]. split; [done |]. split; [apply same_target_refl |].
    split; [done | by eexists]. }
  destruct (transactGetItems_spec env w2 (g :: gs)) as (Hdb3 & _ & _ & ok & Hev3).
  assert (∃ news, events (transactGetItems env w2 (g :: gs)).2 = events w ++ news)
    as Hprefix by (rewrite Hev3, Hev2, <- app_assoc; by eexists).
  destruct (transactGetItems env w2 (g :: gs)) as [[readResult |] w3];
    simpl in Hdb3, Hprefix.
  - rewrite populate_walk.
    pose proof (walk_same_target (Some readResult) (newStagingResponses st) 0) as Hsame.
    destruct (walk (newStagingResponses st) 0 (Some readResult)) as [populated [x |]];
      simpl in *; rewrite Hdb3; by repeat split.
  - simpl. rewrite Hdb3. split; [done |]. split; [done |].
    split; [apply same_target_refl |]. by split.
Qed.



Lemma Forall2_compose {A B C} (P : A → B → Prop) (Q : B → C → Prop) l k j :
  Forall2 P l k → Forall2 Q k j → Forall2 (λ x z, ∃ y, P x y ∧ Q y z) l j.
Proof.
  intros HP. revert j. induction HP as [| x y l k Hxy _ IH]; intros j HQ.
  - inversion HQ. constructor.
  - inversion HQ as [| ? z ? j' Hyz HQ']. subst. constructor; [by exists y | by apply IH].
Qed.

(** A staged envelope of a create or an update is addressed to a version
    that JavaScript holds for true. *)
Lemma staged_rows_versioned env m r e :
  answers env m r e → wrote_row e → ∃ v, rs_vid e = Some v ∧ truthy v = true.
Proof.
  intros (Hop & _ & _ & Hc & Hu & _) [He | He]; rewrite Hop in He.
  - destruct (Hc He) as [-> _]. by exists "1".
  - destruct (Hu He) as [_ ->]. eexists. split; [done |]. apply toString_truthy.
Qed.

(** X16. Rolling back after staging leaves only locks taken before staging:
    whatever [stageItems] did, every lock that [rollbackItems] returns, given
    the envelopes and the lock set that [stageItems] reported, is a lock of
    the set that [stageItems] was given. The locks on the rows of staged
    creates and updates are dropped, so the unlock that follows never turns
    a row that is being deleted AVAILABLE. *)
Theorem rollback_leaves_only_the_locks_taken_before_staging
    env w requests lockedItems w' :
  let staged := stageItems env w requests lockedItems in
  let r := rollbackItems env w' (stage_batchReadWriteResponses staged.1)
             (stage_lockedItems staged.1) in
  ∀ l, l ∈ r.1 → l ∈ lockedItems.
Proof.
  intros staged r l Hl. subst r. unfold rollbackItems in Hl.
  destruct (transactWriteItems env w' _) as [ok w'']. simpl in Hl.
  apply removeLocksFromArray_spec in Hl as [Hin Hnot].
  rewrite rollback_removals in Hnot.
  destruct (stageItems_cases env w requests lockedItems)
    as [(Hr & _) | (_ & Hlocks & Hsame & _)]; fold staged in Hr || fold staged in Hlocks, Hsame.
  - by rewrite Hr in Hin.
  - rewrite Hlocks in Hin. apply elem_of_app in Hin as [Hin | Hin]; [done |].
    exfalso. apply Hnot. clear Hnot.
    destruct (staging_answers env (version_map lockedItems) requests (no_requests, w))
      as (es & He & Fes & _ & Hk).
    unfold generateStagingRequests in Hin, Hsame. simpl in He, Hk.
    rewrite Hk in Hin. rewrite He in Hsame. simpl in Hin, Hsame.
    apply list_elem_of_fmap in Hin as (e & -> & He').
    apply list_elem_of_filter in He' as [Hwrote He'].
    destruct (Forall2_elem_of_l _ _ _ _ Hsame He') as (e' & Hin' & Hid & Hvid & Hop & _).
    apply list_elem_of_lookup in He' as [i Hi].
    destruct (Forall2_lookup_r _ _ _ _ _ Fes Hi) as (request & _ & Hans).
    destruct (staged_rows_versioned _ _ _ _ Hans Hwrote) as (v & Hv & Htruthy).
    apply list_elem_of_fmap. exists (rollback_removal e'). split.
    + unfold lock_fullId, removal_fullId, lock_of_envelope, rollback_removal. simpl.
      rewrite <- Hid, <- Hvid, Hv. simpl. by rewrite Htruthy.
    + apply list_elem_of_fmap. exists e'. split; [done |].
      apply list_elem_of_filter. split; [| done].
      unfold wrote_row in *. by rewrite <- Hop.
Qed.


(** ** The transaction as a whole *)

(** A write request that only changes the status of a row. *)
Definition is_status_update (x : WriteRequest) : Prop :=
  match x with
  | Update _ _ _ _ => True
  | _ => False
  end.

(** Naming the outcome of the rollback and of the unlock in the goal. *)
Ltac run_release :=
  repeat match goal with
    | |- context [rollbackItems ?env ?w ?es ?ls] =>
        destruct (rollbackItems env w es ls) as [? ?]
    | |- context [unlockItems ?env ?w ?ls ?rb] =>
        destruct (unlockItems env w ls rb) as [? ?]
    | H : context [rollbackItems ?env ?w ?es ?ls] |- _ =>
        destruct (rollbackItems env w es ls) as [? ?]
    | H : context [unlockItems ?env ?w ?ls ?rb] |- _ =>
        destruct (unlockItems env w ls rb) as [? ?]
    end.

Lemma written_calls (news : list StoreEvent) (batches : list (list WriteRequest)) :
  map ev_call news = map TransactWrite batches → written news = batches.
Proof.
  revert batches. induction news as [| ev news IH]; intros [| b bs] H; try done.
  injection H as Hc H. rewrite <- (IH bs H). unfold written. simpl. by rewrite Hc.
Qed.

Lemma written_app (l k : list StoreEvent) : written (l ++ k) = written l ++ written k.
Proof. unfold written. apply omap_app. Qed.

(** What the lock phase leaves when it resolves. *)
Lemma lock_verdict env w requests response w1 :
  lockItems env w requests = (Resolved response, w1) →
  ticks w1 = ticks w
  ∧ (successfulLock response = false →
       lockedItems response = [] ∧ is_Some (lock_errorType response))
  ∧ ∃ news, events w1 = events w ++ news
            ∧ Forall (Forall is_status_update) (written news).
Proof.
  intros Hlock.
  destruct (lockItems_cases env w requests)
    as [(e & request & Hrej & _)
       | [(response' & Hres & Hno & Hf & He & _) | (_ & _ & _ & Hrun)]].
  - congruence.
  - rewrite Hres in Hlock. injection Hlock as <- <-.
    split; [done |]. split; [done |]. exists []. by rewrite app_nil_r.
  - simpl in Hrun. rewrite Hrun in Hlock. clear Hrun.
    destruct (omap (found env (db w)) (nonCreate requests)) as [| p ps].
    + injection Hlock as <- <-. split; [done |]. split; [done |].
      exists []. by rewrite app_nil_r.
    + destruct (transactWriteItems_spec env w (map lock_request_of (p :: ps)))
        as (Ht & _ & Hev & _).
      destruct (transactWriteItems env w (map lock_request_of (p :: ps))) as [ok w2].
      simpl in *. injection Hlock as <- <-. split; [done |]. split.
      * destruct ok; [done |]. by split.
      * eexists. split; [exact Hev |]. unfold written. simpl.
        constructor; [| constructor]. constructor; [done |].
        apply Forall_forall. intros x Hx. by apply list_elem_of_fmap in Hx as (q & -> & _).
Qed.

Lemma unlock_events env w locks rollBack :
  let r := unlockItems env w locks rollBack in
  ticks r.2 = ticks w
  ∧ ∃ news, events r.2 = events w ++ news
            ∧ Forall (Forall is_status_update) (written news).
Proof.
  intros r.
  assert (ticks r.2 = ticks w) as Ht.
  { subst r. rewrite unlockItems_loop.
    generalize (map (map (unlock_request rollBack)) (chunkArray locks MAX_TRANSACTION_SIZE)).
    generalize (chunkArray locks MAX_TRANSACTION_SIZE). generalize 0%nat.
    intros i chunks params. revert w i.
    induction params as [| c params IH]; intros w i; [done |]. cbn [unlock_from].
    destruct (transactWriteItems_spec env w c) as (Ht & _).
    destruct (transactWriteItems env w c) as [[|] w1]; simpl in *; [| done].
    by rewrite IH. }
  split; [done |].
  destruct (unlockItems_spec env w locks rollBack) as (j & news & _ & Hev & Hcalls & _).
  exists news. split; [done |]. rewrite (written_calls _ _ Hcalls).
  apply Forall_forall. intros b Hb. apply elem_of_take in Hb as (i & Hb & _).
  apply list_lookup_fmap_Some in Hb as (c & -> & _).
  apply Forall_forall. intros x Hx. by apply list_elem_of_fmap in Hx as (l & -> & _).
Qed.


(** X18. The time budget is checked after the lock phase, and comes before
    everything else: if the first reading of the clock is past the budget
    (26 seconds unless the constructor was given another), a transaction that
    has requests and does not reject resolves as a USER_ERROR with the
    elapsed-time message and no envelope, whether the locks were obtained or
    not, and stages nothing: every write request it submits, to lock or to
    unlock, is a status update. *)
Theorem transaction_over_budget_after_locking env w request :
  requests request ≠ [] →
  budget env < clock env (ticks w) - startTime request →
  let r := transaction env w request in
  (∀ e, r.1 ≠ Rejected e) →
  r.1 = Resolved {| success := false; message := ELAPSED_TIME_WARNING_MESSAGE;
                    batchReadWriteResponses := []; errorType := Some USER_ERROR |}
  ∧ Forall (Forall is_status_update) (written (submitted w r.2)).
Proof.
  intros Hreq Hlate r Hres. subst r. unfold transaction in *.
  destruct (requests request) as [| r0 rs]; [done |].
  destruct (lockItems env w (r0 :: rs)) as [[lr | e] w1] eqn:Hlock;
    [| by destruct (Hres e)].
  destruct (lock_verdict _ _ _ _ _ Hlock) as (Hticks & _ & news1 & Hev1 & Hw1).
  unfold getElapsedTime, Date_now. rewrite Hticks. simpl.
  assert (Z.ltb (budget env) (clock env (ticks w) - startTime request) = true) as ->
    by (apply Z.ltb_lt; lia).
  simpl.
  match goal with
  | |- context [unlockItems env ?w2 _ _] =>
      destruct (unlock_events env w2 (lockedItems lr) true) as (_ & news2 & Hev2 & Hw2);
      destruct (unlockItems env w2 (lockedItems lr) true) as [u w3]
  end.
  simpl in *. split; [done |].
  rewrite (submitted_app w w3 (news1 ++ news2)).
  - rewrite written_app. by apply Forall_app.
  - by rewrite Hev2, Hev1, app_assoc.
Qed.

(** The envelope returned for a request: the staged one, perhaps filled by
    the read. *)
Definition reported (env : Env) (m : gmap string string)
    (r : BatchReadWriteRequest) (e : BatchReadWriteResponse) : Prop :=
  ∃ staged, answers env m r staged ∧ same_target staged e.

(** X19. A successful transaction returns one envelope for each of its
    create, update, delete and read operations, in their order, and none for
    any other operation: each is the envelope staged for the request (see
    [answers]) with the same id, version, operation and resource type, the
    version map being that of the locks the lock phase returned. *)
Theorem transaction_answers_the_handled_operations env w request response w' :
  transaction env w request = (Resolved response, w') →
  success response = true →
  let m := match (lockItems env w (requests request)).1 with
           | Resolved lockItemsResponse => version_map (lockedItems lockItemsResponse)
           | Rejected _ => ∅
           end in
  Forall2 (reported env m) (filter handled (requests request))
    (batchReadWriteResponses response)
  ∧ length (batchReadWriteResponses response)
    = length (filter handled (requests request)).
Proof.
  intros Hrun Hok m.
  assert (Forall2 (reported env m) (filter handled (requests request))
            (batchReadWriteResponses response)) as Hall.
  2:{ split; [done |]. symmetry. by eapply Forall2_length. }
  subst m. unfold transaction in Hrun.
  destruct (requests request) as [| r0 rs].
  { injection Hrun as <- <-. constructor. }
  remember (r0 :: rs) as ops eqn:Hops. clear Hops r0 rs.
  destruct (lockItems env w ops) as [[lr | e] w1] eqn:Hlock; [| done].
  destruct (getElapsedTime env w1 (startTime request)) as [t1 w2].
  simpl fst.
  destruct (Z.ltb (budget env) t1 || negb (successfulLock lr))%bool.
  { run_release. destruct (Z.ltb (budget env) t1); injection Hrun as <- <-; done. }
  destruct (stageItems_cases env w2 ops (lockedItems lr))
    as [(Hr & _) | (_ & _ & Hsame & _)].
  - destruct (stageItems env w2 ops (lockedItems lr)) as [sr w3].
    simpl in Hr. subst sr.
    destruct (getElapsedTime env w3 (startTime request)) as [t2 w4].
    rewrite orb_true_r in Hrun. run_release.
    destruct (Z.ltb (budget env) t2); injection Hrun as <- <-; done.
  - destruct (staging_answers env (version_map (lockedItems lr)) ops
                (no_requests, w2)) as (es & He & Fes & _).
    unfold generateStagingRequests in Hsame. simpl in He. rewrite He in Hsame.
    destruct (stageItems env w2 ops (lockedItems lr)) as [sr w3].
    simpl in Hsame.
    destruct (getElapsedTime env w3 (startTime request)) as [t2 w4].
    destruct (Z.ltb (budget env) t2 || negb (stage_success sr))%bool.
    + run_release.
      destruct (Z.ltb (budget env) t2); injection Hrun as <- <-; done.
    + run_release. injection Hrun as <- <-. simpl. by eapply Forall2_compose.
Qed.


(** An operation that asks for a row to be written or deleted. *)
Definition writes (r : BatchReadWriteRequest) : Prop :=
  is_create r ∨ is_update r ∨ is_delete r.

(** Without such an operation nothing is staged for the table and no lock is
    added. *)
Lemma nothing_to_write env w (requests : list BatchReadWriteRequest) m :
  Forall (λ r, ¬ writes r) requests →
  let st := (generateStagingRequests env w requests m).1 in
  editRequests st = [] ∧ newLocks st = [].
Proof.
  intros Hnone st.
  assert (∀ P : BatchReadWriteRequest → Prop, ∀ H : ∀ r, Decision (P r),
            (∀ r, P r → writes r) → filter P requests = []) as Hempty.
  { intros P H HP. induction Hnone as [| r l Hr _ IH]; [done |].
    rewrite filter_cons, decide_False; [done |]. intros HPr. by apply Hr, HP. }
  destruct (staging_writes env m requests (no_requests, w))
    as (Hd & (cs & Hc & Fc) & (us & Hu & Fu)).
  destruct (staging_answers env m requests (no_requests, w)) as (es & He & Fes & _ & Hk).
  pose proof (wrote_rows_count env m requests es Fes) as Hcount.
  rewrite (Hempty is_delete) in Hd by (intros r Hr; right; by right).
  rewrite (Hempty is_create) in Fc, Hcount by (intros r Hr; by left).
  rewrite (Hempty is_update) in Fu, Hcount by (intros r Hr; right; by left).
  inversion Fc. inversion Fu. subst.
  apply length_zero_iff_nil in Hcount.
  subst st. unfold editRequests, generateStagingRequests.
  rewrite Hd, Hc, Hu, Hk, Hcount. done.
Qed.

(** X20. A transaction without create, update or delete leaves the table as
    it was when it succeeds. If every operation of the bundle is a read (or
    an operation staging has no case for), the versions found by the lookups
    are not empty strings, and the store has no fault of its own from the
    call on, then after a transaction that reports success every row of the
    table is what it was before: the rows were locked, read, and released
    to AVAILABLE. *)
Theorem transaction_without_writes_leaves_the_table env w request response w' :
  Forall (λ r, ¬ writes r) (requests request) →
  (∀ r p, r ∈ requests request → lookup env (db w) r = Found p → pj_versionId p ≠ "") →
  (∀ k, (length (events w) ≤ k)%nat → storeFault env k = false) →
  transaction env w request = (Resolved response, w') →
  success response = true →
  db w' = db w.
Proof.
  intros Hnone Hversions Hcalm Hrun Hok. unfold transaction in Hrun.
  destruct (requests request) as [| r0 rs].
  { by injection Hrun as <- <-. }
  remember (r0 :: rs) as ops eqn:Hops. clear Hops r0 rs.
  destruct (lockItems env w ops) as [[lr | e] w1] eqn:Hlock; [| done].
  destruct (lock_verdict _ _ _ _ _ Hlock) as (_ & _ & news1 & Hev1 & _).
  unfold getElapsedTime, Date_now in Hrun. cbn [fst snd] in Hrun.
  destruct (Z.ltb (budget env) _ || negb (successfulLock lr))%bool eqn:Hfirst.
  { run_release. destruct (Z.ltb (budget env) _); injection Hrun as <- <-; done. }
  apply orb_false_iff in Hfirst as [_ Hlocked]. apply negb_false_iff in Hlocked.
  match type of Hrun with
  | context [stageItems env ?w2 ops (lockedItems lr)] =>
      destruct (stageItems_cases env w2 ops (lockedItems lr))
        as [(Hr & _) | (Ha & Hlocks & _ & _ & news2 & Hev2)];
      destruct (nothing_to_write env w2 ops (version_map (lockedItems lr)) Hnone)
        as [Hedit Hnew];
      destruct (stageItems env w2 ops (lockedItems lr)) as [sr w3]
  end.
  - simpl in Hr. subst sr. cbn [stage_success negb] in Hrun.
    rewrite orb_true_r in Hrun. run_release.
    destruct (Z.ltb (budget env) _); injection Hrun as <- <-; done.
  - simpl in Ha, Hlocks, Hev2. rewrite Hedit in Ha. rewrite Hnew, app_nil_r in Hlocks.
    injection Ha as Hdb3.
    destruct (Z.ltb (budget env) _ || negb (stage_success sr))%bool.
    { run_release. destruct (Z.ltb (budget env) _); injection Hrun as <- <-; done. }
    rewrite Hlocks in Hrun.
    match type of Hrun with
    | context [unlockItems env ?w4 (lockedItems lr) false] =>
        destruct (unlockItems_calm env w4 (lockedItems lr) false) as [Hu _];
        [| pose proof (unlocked_all env w4 (lockedItems lr) false) as Hall;
           destruct (unlockItems env w4 (lockedItems lr) false) as [u w5] ]
    end.
    { intros k Hk. apply Hcalm. simpl in Hk. rewrite Hev2, Hev1, !length_app in Hk. lia. }
    simpl in Hu, Hall. injection Hrun as <- <-.
    specialize (Hall ltac:(by rewrite Hu)). simpl in Hall. rewrite <- Hdb3 in Hall.
    destruct (lock_success_rows env w ops lr w1 Hlock Hlocked) as (Flocks & _).
    assert (∀ l, l ∈ lockedItems lr →
                 it_vid l ≠ Some "" ∧ release false l = release true l) as Hreads.
    { intros l Hl.
      apply list_elem_of_lookup in Hl as [i Hi].
      destruct (Forall2_lookup_r _ _ _ _ _ Flocks Hi) as (r & Hr & p & Hp & ->).
      apply list_elem_of_lookup_2, list_elem_of_filter in Hr as [_ Hr].
      split.
      - simpl. intros [= E]. by apply (Hversions r p).
      - unfold release, released_status, lock_key. simpl.
        rewrite decide_False; [done |].
        rewrite Forall_forall in Hnone. specialize (Hnone r Hr).
        unfold superseded, writes, is_create, is_update, is_delete in *. simpl.
        intuition congruence. }
    eapply (locked_rows_reopen env w ops lr w1);
      [done | intros l Hl; by destruct (Hreads l Hl) |].
    rewrite <- Hall. f_equal. apply map_ext_in.
    intros l Hl. symmetry. apply Hreads. by apply list_elem_of_In.
Qed.


(** X21. The limit of 25 locks ends a transaction with nothing submitted
    to the store: when more than 25 operations are not creates and the
    first reading of the clock is within the budget, the transaction
    resolves as a SYSTEM_ERROR with the message of the limit and no
    envelope, nothing has been submitted to the store, and the table is as
    it was. Creates do not count towards the limit. *)
Theorem transaction_over_the_lock_limit env w request :
  (25 < length (nonCreate (requests request)))%nat →
  clock env (ticks w) - startTime request ≤ budget env →
  let r := transaction env w request in
  r.1 = Resolved {| success := false; message := "Cannot lock more than 25 items";
                    batchReadWriteResponses := []; errorType := Some SYSTEM_ERROR |}
  ∧ submitted w r.2 = []
  ∧ db r.2 = db w.
Proof.
  intros Hmany Hintime r. subst r. unfold transaction.
  pose proof (lockItems_over_limit env w (requests request) Hmany) as Hlock.
  destruct (requests request) as [| r0 rs]; [simpl in Hmany; lia |].
  rewrite Hlock. unfold getElapsedTime, Date_now.
  assert (Z.ltb (budget env) (clock env (ticks w) - startTime request) = false) as ->
    by (apply Z.ltb_ge; lia).
  simpl. split; [done |]. split; [| done].
  unfold submitted. simpl. by rewrite drop_all.
Qed.

End MoreServiceProperties.

(** * Further runs *)

Module MoreRuns.

Import DynamoDbBundleServiceHelper DynamoDbBundleService GenerateRollbackRequestsFactory.
Import HelperProperties ServiceProperties Scenarios Runs.
Import MoreHelperProperties MoreServiceProperties.

Lemma generateRollbackRequests_meets_the_expectation_witness :
  generateRollbackRequests [envelope "create" "A" "1"; envelope "read" "Y" "1"]
  = merged [{| transactionRequests := [Delete "A" (Some "1")];
               itemsToRemoveFromLock :=
                 [{| rm_id := "A"; rm_vid := Some "1"; rm_resourceType := "Patient" |}] |};
            {| transactionRequests := []; itemsToRemoveFromLock := [] |}].
Proof.
  apply (generateRollbackRequests_meets_the_expectation
           [envelope "create" "A" "1"; envelope "read" "Y" "1"]).
  reflexivity.
Defined.

(** One resource, and the bundle that reads it. *)
Definition one_resource : World := world [patient "Y" "1" AVAILABLE].

Definition one_read : TransactionRequest := bundle [operation "read" "Y"].

Lemma lockItems_locks_the_versions_found_witness :
  ∃ it, db (lockItems calm one_resource (requests one_read)).2 !! ("Y", "1")
        = Some (set_status LOCKED it).
Proof.
  assert (∃ response w',
            lockItems calm one_resource (requests one_read) = (Resolved response, w')
            ∧ successfulLock response = true
            ∧ lock "read" "Y" "1" None ∈ lockedItems response)
    as (response & w' & Hlock & Hok & Hin).
  { eexists _, _. split; [vm_compute; reflexivity |]. split; [reflexivity | in_list]. }
  destruct (lockItems_locks_the_versions_found calm one_resource (requests one_read)
              response w' Hlock Hok) as (_ & Hrows & _).
  destruct (Hrows _ Hin) as (v & it & [= <-] & _ & _ & Hafter).
  rewrite Hlock. by exists it.
Defined.

Lemma lock_then_roll_back_restores_the_table_witness :
  ∃ response w1,
    lockItems calm one_resource (requests one_read) = (Resolved response, w1)
    ∧ db (unlockItems calm w1 (lockedItems response) true).2 = db one_resource.
Proof.
  eexists _, _. split; [vm_compute; reflexivity |].
  apply (lock_then_roll_back_restores_the_table calm one_resource (requests one_read)).
  - vm_compute. reflexivity.
  - intros l Hl. cases_in Hl. discriminate.
  - vm_compute. reflexivity.
Defined.

Lemma unlockItems_fails_only_when_the_store_does_witness :
  (unlockItems calm (world []) thirty_locks true).1
  = {| successfulUnlock := true; locksFailedToRelease := [] |}.
Proof.
  apply (unlockItems_fails_only_when_the_store_does calm (world []) thirty_locks true).
  intros k Hk. reflexivity.
Defined.


Lemma rollback_leaves_only_the_locks_taken_before_staging_witness :
  lock "update" "X" "3" (Some true) ∈ [lock "update" "X" "3" (Some true)].
Proof.
  apply (rollback_leaves_only_the_locks_taken_before_staging calm
           (world [patient "X" "3" LOCKED]) [operation "update" "X"]
           [lock "update" "X" "3" (Some true)] (world [patient "X" "3" LOCKED])).
  vm_compute. in_list.
Defined.

(** A clock that is past the default budget from its first reading on. *)
Definition late : Env :=
  {| getMostRecentResource := mostRecent;
     storeFault := storeFault calm;
     clock := λ _, 30000;
     toISOString := toISOString calm;
     uuidv4 := uuidv4 calm;
     maxExecutionTimeMs := None;
     LOCK_DURATION_SECONDS := "35" |}.

Lemma transaction_over_budget_after_locking_witness :
  (transaction late two_resources mixed_bundle).1
  = Resolved {| success := false; message := ELAPSED_TIME_WARNING_MESSAGE;
                batchReadWriteResponses := []; errorType := Some USER_ERROR |}.
Proof.
  apply (transaction_over_budget_after_locking late two_resources mixed_bundle).
  - discriminate.
  - reflexivity.
  - intros e. vm_compute. discriminate.
Defined.

Lemma transaction_answers_the_handled_operations_witness :
  ∃ response,
    (transaction calm two_resources mixed_bundle).1 = Resolved response
    ∧ length (batchReadWriteResponses response) = 3%nat.
Proof.
  assert (∃ response w',
            transaction calm two_resources mixed_bundle = (Resolved response, w')
            ∧ success response = true) as (response & w' & Hrun & Hok).
  { eexists _, _. split; [vm_compute; reflexivity | reflexivity]. }
  destruct (transaction_answers_the_handled_operations calm two_resources mixed_bundle
              response w' Hrun Hok) as [_ Hlen].
  exists response. split; [by rewrite Hrun |]. rewrite Hlen. vm_compute. reflexivity.
Defined.

Lemma transaction_without_writes_leaves_the_table_witness :
  db (transaction calm one_resource one_read).2 = db one_resource.
Proof.
  assert (∃ response w',
            transaction calm one_resource one_read = (Resolved response, w')
            ∧ success response = true) as (response & w' & Hrun & Hok).
  { eexists _, _. split; [vm_compute; reflexivity | reflexivity]. }
  rewrite Hrun.
  apply (transaction_without_writes_leaves_the_table calm one_resource one_read
           response w'); [| | | exact Hrun | exact Hok].
  - repeat constructor. intros [H | [H | H]]; discriminate H.
  - intros r p Hin Hp. apply list_elem_of_singleton in Hin as ->.
    vm_compute in Hp. injection Hp as <-. discriminate.
  - intros k Hk. reflexivity.
Defined.

(** Twenty-six deletes, asked in time. *)
Definition oversized_bundle : TransactionRequest := bundle oversized.

Lemma transaction_over_the_lock_limit_witness :
  (transaction calm (world []) oversized_bundle).1
  = Resolved {| success := false; message := "Cannot lock more than 25 items";
                batchReadWriteResponses := []; errorType := Some SYSTEM_ERROR |}.
Proof.
  apply (transaction_over_the_lock_limit calm (world []) oversized_bundle).
  - vm_compute. lia.
  - vm_compute. discriminate.
Defined.

End MoreRuns.
